(** * OrbitChain: a shallow embedding of [Orbitchain.py]

    The ledger engine of the repository (classes [Transaction], [Validator],
    [Orbit] and [OrbitChainNetwork]) as Rocq functions, and the properties of
    it that the specification states.

    Conventions.
    - Python [int] is [Z]; [len(l)] is [Z.of_nat (length l)]; [str] is
      [string]; [float] is a primitive binary64 float.
    - What the program takes from its host (the wall clock, the random
      generator, SHA-256, [json.dumps]) is gathered in the class [Host];
      every definition is parametric in it.
    - A [Validator] is a mutable object that the caller and the network's
      registry both hold: validators live in a heap indexed by object
      identity and the registry is a list of identities.  Orbits are created
      by the network itself and live in its [orbits] list; the current orbit
      is mutated in place, at its index.
    - A call either returns or raises; both leave a state behind. *)

From Stdlib Require Import ZArith String Ascii List Bool Lia Floats Uint63.
From Equations Require Import Equations.
From stdpp Require Import base tactics option list functions.
From stdpp Require gmap.

Import ListNotations.
Local Open Scope string_scope.
Local Open Scope list_scope.
Local Open Scope Z_scope.

(** ** Python values and calls *)

(** The exceptions the modelled code can raise. *)
Inductive exn : Type :=
| ZeroDivisionError
| IndexError
| ValueError.

(** The result of a call that runs on a state of type [S]: the value it
    returns, or the exception it raises, each with the state it leaves. *)
Inductive outcome (S A : Type) : Type :=
| Returns (a : A) (s : S)
| Raises (e : exn) (s : S).

Arguments Returns {S A} a s.
Arguments Raises {S A} e s.

Definition state_of {S A : Type} (r : outcome S A) : S :=
  match r with
  | Returns _ s => s
  | Raises _ s => s
  end.

Definition returned {S A : Type} (r : outcome S A) : option A :=
  match r with
  | Returns a _ => Some a
  | Raises _ _ => None
  end.

Definition bind {S A B : Type} (m : outcome S A) (k : A -> S -> outcome S B)
  : outcome S B :=
  match m with
  | Returns a s => k a s
  | Raises e s => Raises e s
  end.

(** [len(l)] *)
Definition len {A : Type} (l : list A) : Z := Z.of_nat (length l).

(** [l[i]]: a negative index counts from the end; [None] is [IndexError]. *)
Definition py_index {A : Type} (l : list A) (i : Z) : option nat :=
  if 0 <=? i then (if i <? len l then Some (Z.to_nat i) else None)
  else if 0 <=? len l + i then Some (Z.to_nat (len l + i))
  else None.

Definition getitem {A : Type} (l : list A) (i : Z) : option A :=
  k ← py_index l i; l !! k.

(** [l.remove(x)] where [==] on the elements is decided by [eqb]: the first
    equal element is dropped; [None] is [ValueError]. *)
Fixpoint list_remove {A : Type} (eqb : A -> A -> bool) (x : A) (l : list A)
  : option (list A) :=
  match l with
  | [] => None
  | y :: l' => if eqb y x then Some l' else cons y <$> list_remove eqb x l'
  end.

(** [bool(s)] of a string: it is not empty. *)
Definition truthy (s : string) : bool :=
  match s with
  | EmptyString => false
  | String _ _ => true
  end.

(** [int / int] for two list lengths (both below 2^53, so the conversions
    are exact and the quotient is rounded once, as Python's true division
    does) and a divisor that is not zero. *)
Definition float_of_Z (z : Z) : float := PrimFloat.of_uint63 (Uint63.of_Z z).

Definition true_div (a b : Z) : float :=
  PrimFloat.div (float_of_Z a) (float_of_Z b).

(** ** The host *)

(** The dictionary [seal_orbit] hands to [json.dumps]. *)
Inductive json : Type :=
| JInt (z : Z)
| JStr (s : string).

Class Host : Type := {
  (** values of [datetime.now()] *)
  datetime : Type;
  (** [str(d)], as an f-string renders a [datetime] *)
  datetime_str : datetime -> string;
  (** [d.isoformat()] *)
  datetime_isoformat : datetime -> string;
  (** [hashlib.sha256(s.encode()).hexdigest()] *)
  sha256_hexdigest : string -> string;
  (** [json.dumps(d, sort_keys=True)] of a dictionary given by its items *)
  json_dumps_sorted : list (string * json) -> string
}.

Section OrbitChain.

Context {host : Host}.

(** [hashlib.sha256(s.encode()).hexdigest()[:n]] *)
Definition sha256_prefix (n : nat) (s : string) : string :=
  substring 0 n (sha256_hexdigest s).

(** ** Transaction *)

(** [tx_obj] is the identity of the Python object: [Transaction] defines no
    [__eq__], so [list.remove] compares transactions by identity.  No field
    is assigned after [__init__]. *)
Record Transaction : Type := {
  tx_obj : nat;
  id : string;
  sender : string;
  receiver : string;
  data : string;
  tx_type : string;
  tx_timestamp : datetime;
  signature : string
}.

(** [Transaction.sign] *)
Definition sign (sender receiver data : string) (timestamp : datetime) : string :=
  sha256_prefix 16 (sender ++ receiver ++ data ++ datetime_str timestamp)%string.

(** [Transaction.generate_id]; [nonce] is the text
    [f"{time.time()}{random.randint(0,9999)}"] of this call. *)
Definition generate_id (nonce : string) : string := sha256_prefix 12 nonce.

(** [Transaction.__init__]: [obj] is the identity of the new object and
    [now] the clock's reading. *)
Definition Transaction_init (obj : nat) (nonce : string) (now : datetime)
  (sender receiver data tx_type : string) : Transaction :=
  {| tx_obj := obj;
     id := generate_id nonce;
     sender := sender;
     receiver := receiver;
     data := data;
     tx_type := tx_type;
     tx_timestamp := now;
     signature := sign sender receiver data now |}.

Definition same_transaction (a b : Transaction) : bool :=
  Nat.eqb (tx_obj a) (tx_obj b).

(** ** Validator *)

Record Validator : Type := {
  name : string;
  stake : float;
  reputation : Z;
  is_active : bool;
  sector_position : Z;
  validated_count : Z
}.

(** [Validator.__init__] *)
Definition Validator_init (name : string) (stake : float) : Validator :=
  {| name := name;
     stake := stake;
     reputation := 100;
     is_active := true;
     sector_position := 0;
     validated_count := 0 |}.

Definition set_validated_count (v : Validator) (n : Z) : Validator :=
  {| name := name v;
     stake := stake v;
     reputation := reputation v;
     is_active := is_active v;
     sector_position := sector_position v;
     validated_count := n |}.

Definition set_sector_position (v : Validator) (p : Z) : Validator :=
  {| name := name v;
     stake := stake v;
     reputation := reputation v;
     is_active := is_active v;
     sector_position := p;
     validated_count := validated_count v |}.

Definition set_is_active (v : Validator) (b : bool) : Validator :=
  {| name := name v;
     stake := stake v;
     reputation := reputation v;
     is_active := b;
     sector_position := sector_position v;
     validated_count := validated_count v |}.

(** The two tests of [Validator.validate_transaction]. *)
Definition well_formed (tx : Transaction) : bool :=
  negb (negb (truthy (signature tx))
        || (Z.of_nat (String.length (signature tx)) <? 10))
  && negb (negb (truthy (sender tx)) || negb (truthy (receiver tx))).

(** [Validator.validate_transaction]: the validator after the call and the
    value returned. *)
Definition validate_transaction (v : Validator) (tx : Transaction)
  : Validator * bool :=
  if negb (truthy (signature tx))
     || (Z.of_nat (String.length (signature tx)) <? 10)
  then (v, false)
  else if negb (truthy (sender tx)) || negb (truthy (receiver tx))
  then (v, false)
  else (set_validated_count v (validated_count v + 1), true).

(** ** Orbit *)

Record Orbit : Type := {
  orbit_number : Z;
  transactions : list Transaction;
  max_transactions : Z;
  timestamp : datetime;
  is_sealed : bool;
  validators_confirmed : list nat;
  orbital_hash : string;
  previous_hash : string;
  merkle_root : string
}.

(** [Orbit.__init__]; it raises nothing, whatever [max_transactions] is. *)
Definition Orbit_init (orbit_number max_transactions : Z) (now : datetime)
  : Orbit :=
  {| orbit_number := orbit_number;
     transactions := [];
     max_transactions := max_transactions;
     timestamp := now;
     is_sealed := false;
     validators_confirmed := [];
     orbital_hash := "";
     previous_hash := "";
     merkle_root := "" |}.

(** The default of [max_transactions] in [Orbit.__init__]. *)
Definition default_max_transactions : Z := 8.

(** One turn of the [for i in range(0, len(hashes), 2)] loop over a whole
    level: neighbours are hashed together, a last one without a neighbour
    with itself. *)
Fixpoint pair_hashes (hashes : list string) : list string :=
  match hashes with
  | [] => []
  | [h] => [sha256_prefix 16 (h ++ h)%string]
  | h1 :: h2 :: rest => sha256_prefix 16 (h1 ++ h2)%string :: pair_hashes rest
  end.

(** [while len(hashes) > 1: hashes = new_hashes] *)
Equations? merkle_loop (hashes : list string) : list string
  by wf (length hashes) lt :=
  merkle_loop [] := [];
  merkle_loop [h] := [h];
  merkle_loop (h1 :: h2 :: rest) := merkle_loop (pair_hashes (h1 :: h2 :: rest)).
Proof.
  enough (Hle : forall l, (length (pair_hashes l) <= length l)%nat)
    by (specialize (Hle rest); simpl; lia).
  fix IH 1. intros [|a [|b l]]; simpl; try lia.
  specialize (IH l). lia.
Qed.

(** The value [Orbit.update_merkle_root] stores, as a function of the
    signatures of the orbit's transactions. *)
Definition merkle_of (signatures : list string) : string :=
  match signatures with
  | [] => "0000000000000000"
  | _ :: _ =>
      match merkle_loop signatures with
      | h :: _ => h
      | [] => "0000000000000000"
      end
  end.

Definition set_merkle_root (o : Orbit) (r : string) : Orbit :=
  {| orbit_number := orbit_number o;
     transactions := transactions o;
     max_transactions := max_transactions o;
     timestamp := timestamp o;
     is_sealed := is_sealed o;
     validators_confirmed := validators_confirmed o;
     orbital_hash := orbital_hash o;
     previous_hash := previous_hash o;
     merkle_root := r |}.

Definition set_transactions (o : Orbit) (txs : list Transaction) : Orbit :=
  {| orbit_number := orbit_number o;
     transactions := txs;
     max_transactions := max_transactions o;
     timestamp := timestamp o;
     is_sealed := is_sealed o;
     validators_confirmed := validators_confirmed o;
     orbital_hash := orbital_hash o;
     previous_hash := previous_hash o;
     merkle_root := merkle_root o |}.

(** [Orbit.update_merkle_root] *)
Definition update_merkle_root (o : Orbit) : Orbit :=
  set_merkle_root o (merkle_of (map signature (transactions o))).

(** [Orbit.is_full] *)
Definition is_full (o : Orbit) : bool :=
  len (transactions o) >=? max_transactions o.

(** [Orbit.add_transaction]: the orbit after the call and the value
    returned. *)
Definition add_transaction (o : Orbit) (tx : Transaction) : Orbit * bool :=
  if is_sealed o then (o, false)
  else if len (transactions o) >=? max_transactions o then (o, false)
  else (update_merkle_root (set_transactions o (transactions o ++ [tx])), true).

(** The dictionary [content] of [Orbit.seal_orbit], items in the order of
    the source, for an orbit whose [previous_hash] is already assigned. *)
Definition seal_content (o : Orbit) : list (string * json) :=
  [ ("orbit_number", JInt (orbit_number o));
    ("transactions", JInt (len (transactions o)));
    ("merkle_root", JStr (merkle_root o));
    ("previous_hash", JStr (previous_hash o));
    ("timestamp", JStr (datetime_isoformat (timestamp o))) ].

Definition set_sealed (o : Orbit) (previous : string) : Orbit :=
  {| orbit_number := orbit_number o;
     transactions := transactions o;
     max_transactions := max_transactions o;
     timestamp := timestamp o;
     is_sealed := true;
     validators_confirmed := validators_confirmed o;
     orbital_hash := orbital_hash o;
     previous_hash := previous;
     merkle_root := merkle_root o |}.

Definition set_orbital_hash (o : Orbit) (h : string) : Orbit :=
  {| orbit_number := orbit_number o;
     transactions := transactions o;
     max_transactions := max_transactions o;
     timestamp := timestamp o;
     is_sealed := is_sealed o;
     validators_confirmed := validators_confirmed o;
     orbital_hash := h;
     previous_hash := previous_hash o;
     merkle_root := merkle_root o |}.

(** [Orbit.seal_orbit]; there is no test of [is_sealed] in it. *)
Definition seal_orbit (o : Orbit) (previous_hash : string) : Orbit :=
  let o1 := set_sealed o previous_hash in
  set_orbital_hash o1 (sha256_prefix 16 (json_dumps_sorted (seal_content o1))).

(** ** OrbitChainNetwork *)

(** The dictionary [network_stats]; its keys never change. *)
Record Stats : Type := {
  total_transactions : Z;
  total_orbits : Z;
  network_hash_rate : Z;
  uptime : datetime
}.

(** Identities of [Validator] objects. *)
Definition loc : Type := nat.

(** [net_name] is the attribute [name]. *)
Record Network : Type := {
  net_name : string;
  orbits : list Orbit;
  validators : list loc;
  pending_transactions : list Transaction;
  current_orbit_index : Z;
  consensus_threshold : float;
  network_stats : Stats
}.

(** The validator objects and the network that refers to them. *)
Record World : Type := {
  heap : loc -> Validator;
  net : Network
}.

Definition set_orbits (n : Network) (os : list Orbit) : Network :=
  {| net_name := net_name n;
     orbits := os;
     validators := validators n;
     pending_transactions := pending_transactions n;
     current_orbit_index := current_orbit_index n;
     consensus_threshold := consensus_threshold n;
     network_stats := network_stats n |}.

Definition set_validators (n : Network) (vs : list loc) : Network :=
  {| net_name := net_name n;
     orbits := orbits n;
     validators := vs;
     pending_transactions := pending_transactions n;
     current_orbit_index := current_orbit_index n;
     consensus_threshold := consensus_threshold n;
     network_stats := network_stats n |}.

Definition set_pending (n : Network) (txs : list Transaction) : Network :=
  {| net_name := net_name n;
     orbits := orbits n;
     validators := validators n;
     pending_transactions := txs;
     current_orbit_index := current_orbit_index n;
     consensus_threshold := consensus_threshold n;
     network_stats := network_stats n |}.

Definition set_current_orbit_index (n : Network) (i : Z) : Network :=
  {| net_name := net_name n;
     orbits := orbits n;
     validators := validators n;
     pending_transactions := pending_transactions n;
     current_orbit_index := i;
     consensus_threshold := consensus_threshold n;
     network_stats := network_stats n |}.

Definition set_stats (n : Network) (st : Stats) : Network :=
  {| net_name := net_name n;
     orbits := orbits n;
     validators := validators n;
     pending_transactions := pending_transactions n;
     current_orbit_index := current_orbit_index n;
     consensus_threshold := consensus_threshold n;
     network_stats := st |}.

Definition set_total_transactions (st : Stats) (k : Z) : Stats :=
  {| total_transactions := k;
     total_orbits := total_orbits st;
     network_hash_rate := network_hash_rate st;
     uptime := uptime st |}.

Definition set_total_orbits (st : Stats) (k : Z) : Stats :=
  {| total_transactions := total_transactions st;
     total_orbits := k;
     network_hash_rate := network_hash_rate st;
     uptime := uptime st |}.

Definition with_net (w : World) (n : Network) : World :=
  {| heap := heap w; net := n |}.

Definition with_heap (w : World) (h : loc -> Validator) : World :=
  {| heap := h; net := net w |}.

(** The literal [0.67] of [__init__]: the binary64 number nearest to it, as
    in Python. *)
#[warnings="-inexact-float"]
Definition default_consensus_threshold : float := 0.67%float.

(** What [create_genesis_orbit] reads from the host: the clock at
    [Orbit(...)], and the identity, nonce and clock of the genesis
    transaction. *)
Record GenesisInput : Type := {
  genesis_orbit_now : datetime;
  genesis_tx_obj : nat;
  genesis_tx_nonce : string;
  genesis_tx_now : datetime
}.

(** [OrbitChainNetwork.create_genesis_orbit] *)
Definition create_genesis_orbit (g : GenesisInput) (n : Network) : Network :=
  let genesis := Orbit_init 0 1 (genesis_orbit_now g) in
  let genesis_tx :=
    Transaction_init (genesis_tx_obj g) (genesis_tx_nonce g) (genesis_tx_now g)
      "SYSTEM" "NETWORK" "Genesis orbit created" "genesis" in
  let genesis := fst (add_transaction genesis genesis_tx) in
  let genesis := seal_orbit genesis "" in
  let n := set_orbits n (orbits n ++ [genesis]) in
  let n := set_stats n (set_total_orbits (network_stats n) 1) in
  set_stats n (set_total_transactions (network_stats n) 1).

(** [OrbitChainNetwork.__init__]; [started] is the clock read for
    ['uptime']. *)
Definition Network_init (name : string) (started : datetime) (g : GenesisInput)
  : Network :=
  create_genesis_orbit g
    {| net_name := name;
       orbits := [];
       validators := [];
       pending_transactions := [];
       current_orbit_index := 0;
       consensus_threshold := default_consensus_threshold;
       network_stats :=
         {| total_transactions := 0;
            total_orbits := 0;
            network_hash_rate := 0;
            uptime := started |} |}.

(** [OrbitChainNetwork.add_validator]: [v] is the validator object handed
    in. *)
Definition add_validator (v : loc) (w : World) : World :=
  let n := net w in
  let position :=
    len (validators n) * (360 / Z.max 1 (len (validators n) + 1)) in
  {| heap := <[v := set_sector_position (heap w v) position]> (heap w);
     net := set_validators n (validators n ++ [v]) |}.

(** [OrbitChainNetwork.submit_transaction] *)
Definition submit_transaction (tx : Transaction) (w : World) : World :=
  with_net w (set_pending (net w) (pending_transactions (net w) ++ [tx])).

(** The [for validator in self.validators] loop of
    [validate_transaction_consensus]: the heap and the count of approvals
    after it. *)
Fixpoint count_approvals (vs : list loc) (tx : Transaction)
  (h : loc -> Validator) (approvals : Z) : (loc -> Validator) * Z :=
  match vs with
  | [] => (h, approvals)
  | v :: vs' =>
      if is_active (h v) then
        let (v', ok) := validate_transaction (h v) tx in
        count_approvals vs' tx (<[v := v']> h)
          (if ok then approvals + 1 else approvals)
      else count_approvals vs' tx h approvals
  end.

(** [len([v for v in self.validators if v.is_active])] *)
Definition active_count (h : loc -> Validator) (vs : list loc) : Z :=
  len (filter (fun v => is_active (h v) = true) vs).

(** [OrbitChainNetwork.validate_transaction_consensus] *)
Definition validate_transaction_consensus (tx : Transaction) (w : World)
  : outcome World bool :=
  match validators (net w) with
  | [] => Returns true w
  | _ :: _ =>
      let (h, approvals) := count_approvals (validators (net w)) tx (heap w) 0 in
      let w := with_heap w h in
      let actives := active_count h (validators (net w)) in
      if actives =? 0 then Raises ZeroDivisionError w
      else Returns (PrimFloat.leb (consensus_threshold (net w))
                      (true_div approvals actives)) w
  end.

(** [OrbitChainNetwork.create_new_orbit]; [now] is the clock read by
    [Orbit(...)]. *)
Definition create_new_orbit (now : datetime) (n : Network) : Network :=
  let n := set_current_orbit_index n (current_orbit_index n + 1) in
  let new_orbit := Orbit_init (current_orbit_index n) default_max_transactions now in
  let n := set_orbits n (orbits n ++ [new_orbit]) in
  set_stats n (set_total_orbits (network_stats n) (total_orbits (network_stats n) + 1)).

(** [OrbitChainNetwork.seal_current_orbit] *)
Definition seal_current_orbit (n : Network) : outcome Network unit :=
  match py_index (orbits n) (current_orbit_index n) with
  | None => Raises IndexError n
  | Some k =>
      match orbits n !! k with
      | None => Raises IndexError n
      | Some current_orbit =>
          let previous :=
            if current_orbit_index n >? 0
            then orbital_hash <$> getitem (orbits n) (current_orbit_index n - 1)
            else Some "" in
          match previous with
          | None => Raises IndexError n
          | Some previous_hash =>
              Returns tt
                (set_orbits n
                   (<[k := seal_orbit current_orbit previous_hash]> (orbits n)))
          end
      end
  end.

(** A method that works on the network alone, run in a world. *)
Definition on_net {A : Type} (f : Network -> outcome Network A) (w : World)
  : outcome World A :=
  match f (net w) with
  | Returns a n => Returns a (with_net w n)
  | Raises e n => Raises e (with_net w n)
  end.

(** The body of [for tx in self.pending_transactions[:]] in
    [process_pending_transactions].  [k] is the place in [self.orbits] of the
    object the local [current_orbit] refers to: what the loop does to
    [current_orbit] it does to [orbits[k]] (the lookup of [k] finds it:
    [orbits] only grows).  The value returned is the list [processed]. *)
Fixpoint process_loop (k : nat) (txs : list Transaction) (processed : list Transaction)
  (w : World) : outcome World (list Transaction) :=
  match txs with
  | [] => Returns processed w
  | tx :: txs' =>
      match validate_transaction_consensus tx w with
      | Raises e w => Raises e w
      | Returns false w => process_loop k txs' processed w
      | Returns true w =>
          match orbits (net w) !! k with
          | None => Raises IndexError w
          | Some current_orbit =>
              let (current_orbit, added) := add_transaction current_orbit tx in
              if added then
                let n := set_orbits (net w) (<[k := current_orbit]> (orbits (net w))) in
                let processed := processed ++ [tx] in
                let n :=
                  set_stats n
                    (set_total_transactions (network_stats n)
                       (total_transactions (network_stats n) + 1)) in
                if is_full current_orbit then
                  (* seal, then [break] *)
                  bind (on_net seal_current_orbit (with_net w n))
                    (fun _ w => Returns processed w)
                else process_loop k txs' processed (with_net w n)
              else process_loop k txs' processed w
          end
      end
  end.

(** [for tx in processed: self.pending_transactions.remove(tx)] *)
Fixpoint remove_processed (processed : list Transaction) (w : World)
  : outcome World unit :=
  match processed with
  | [] => Returns tt w
  | tx :: processed' =>
      match list_remove same_transaction tx (pending_transactions (net w)) with
      | None => Raises ValueError w
      | Some pending => remove_processed processed' (with_net w (set_pending (net w) pending))
      end
  end.

(** [OrbitChainNetwork.process_pending_transactions]; [now] is the clock
    [create_new_orbit] reads when it is called. *)
Definition process_pending_transactions (now : datetime) (w : World)
  : outcome World unit :=
  match pending_transactions (net w) with
  | [] => Returns tt w
  | _ :: _ =>
      match getitem (orbits (net w)) (current_orbit_index (net w)) with
      | None => Raises IndexError w
      | Some current_orbit =>
          let w :=
            if is_full current_orbit || is_sealed current_orbit
            then with_net w (create_new_orbit now (net w))
            else w in
          match py_index (orbits (net w)) (current_orbit_index (net w)) with
          | None => Raises IndexError w
          | Some k =>
              bind (process_loop k (pending_transactions (net w)) [] w)
                remove_processed
          end
      end
  end.

(** What [show_orbit_detail] prints: that the orbit does not exist, or the
    number it was asked for followed by the fields of the orbit it read. *)
Inductive detail : Type :=
| NotFound (orbit_number : Z)
| Detail (orbit_number : Z) (orbit : Orbit).

(** [OrbitChainNetwork.show_orbit_detail] *)
Definition show_orbit_detail (orbit_number : Z) (n : Network)
  : outcome Network detail :=
  if orbit_number >=? len (orbits n) then Returns (NotFound orbit_number) n
  else
    match getitem (orbits n) orbit_number with
    | None => Raises IndexError n
    | Some orbit => Returns (Detail orbit_number orbit) n
    end.

(** ** The states a caller can reach *)

(** A fresh ledger beside whatever validator objects the caller holds. *)
Definition initial (w : World) : Prop :=
  exists name started g, net w = Network_init name started g.

(** One public operation, or the caller assigning attributes of validator
    objects (they are the caller's own objects; [is_active] is only ever
    changed that way).  The state a call leaves when it raises counts: the
    caller can catch the exception and go on. *)
Inductive step : World -> World -> Prop :=
| step_add_validator (v : loc) (w : World) :
    step w (add_validator v w)
| step_submit (tx : Transaction) (w : World) :
    step w (submit_transaction tx w)
| step_process (now : datetime) (w : World) :
    step w (state_of (process_pending_transactions now w))
| step_seal (w : World) :
    step w (state_of (on_net seal_current_orbit w))
| step_validators (h : loc -> Validator) (w : World) :
    step w (with_heap w h).

Inductive reachable : World -> Prop :=
| reachable_initial (w : World) : initial w -> reachable w
| reachable_step (w w' : World) : reachable w -> step w w' -> reachable w'.

End OrbitChain.

(** ** Calls of a caller *)

(** The call [Orbit(orbit_number, max_transactions)]: [__init__] tests
    nothing and raises nothing. *)
Definition Orbit_new {host : Host} (orbit_number max_transactions : Z)
  (now : datetime) : outcome unit Orbit :=
  Returns (Orbit_init orbit_number max_transactions now) tt.

(** [submit_transaction(tx)] then [process_pending_transactions()], for each
    transaction of the list in turn; a step is the clock's reading and the
    transaction. *)
Fixpoint submit_and_process {host : Host} (steps : list (datetime * Transaction))
  (w : World) : outcome World unit :=
  match steps with
  | [] => Returns tt w
  | (now, tx) :: steps' =>
      bind (process_pending_transactions now (submit_transaction tx w))
        (fun _ w => submit_and_process steps' w)
  end.

(** ** Invariants of the ledger and one round of the scenario *)

(** What holds of the orbits and the current index between two statements of
    a public operation: the current orbit is the last one, every orbit before
    it is sealed, the first orbit has no previous hash, a sealed orbit
    carries the orbital hash of the orbit before it, and the merkle root of
    an orbit is the one of its transactions ([""] while it has none). *)
Definition ledger_base {host : Host} (os : list Orbit) (cur : Z) : Prop :=
  cur = len os - 1 /\
  0 <= cur /\
  (forall (i : nat) o, Z.of_nat i < cur -> os !! i = Some o -> is_sealed o = true) /\
  (forall o, os !! 0%nat = Some o -> previous_hash o = "") /\
  (forall (i : nat) o o', os !! i = Some o -> os !! S i = Some o' ->
     is_sealed o' = true -> previous_hash o' = orbital_hash o) /\
  (forall (i : nat) o, os !! i = Some o ->
     merkle_root o = match transactions o with
                     | [] => ""
                     | _ :: _ => merkle_of (map signature (transactions o))
                     end).

(** What holds between two public operations: moreover the current orbit,
    when it is full, is sealed. *)
Definition ledger_inv {host : Host} (os : list Orbit) (cur : Z) : Prop :=
  ledger_base os cur /\
  forall o, os !! Z.to_nat cur = Some o -> is_full o = true -> is_sealed o = true.

Definition world_inv {host : Host} (w : World) : Prop :=
  ledger_inv (orbits (net w)) (current_orbit_index (net w)).

(** Every registered validator is active, and the share [k / k] of
    approvals, [k] the number of validators, reaches the threshold. *)
Definition unanimous {host : Host} (w : World) : Prop :=
  validators (net w) <> [] /\
  Forall (fun v => is_active (heap w v) = true) (validators (net w)) /\
  PrimFloat.leb (consensus_threshold (net w))
    (true_div (len (validators (net w))) (len (validators (net w)))) = true.

(** The network after [tx] is submitted to an empty queue and processed,
    when the gate approves it. *)
Definition one_round {host : Host} (n : Network) (step : datetime * Transaction)
  : Network :=
  let (now, tx) := step in
  let n := set_pending n (pending_transactions n ++ [tx]) in
  match getitem (orbits n) (current_orbit_index n) with
  | None => n
  | Some current_orbit =>
      let n :=
        if is_full current_orbit || is_sealed current_orbit
        then create_new_orbit now n else n in
      let k := Z.to_nat (current_orbit_index n) in
      match orbits n !! k with
      | None => n
      | Some current_orbit =>
          let current_orbit := fst (add_transaction current_orbit tx) in
          let n := set_orbits n (<[k := current_orbit]> (orbits n)) in
          let n :=
            set_stats n
              (set_total_transactions (network_stats n)
                 (total_transactions (network_stats n) + 1)) in
          let n := if is_full current_orbit
                   then state_of (seal_current_orbit n) else n in
          set_pending n []
      end
  end.

(** ** A host to run the model on *)

(** Dates are numbers and are rendered by a constant; the digest is the first
    64 characters of its argument padded with zeros (it is not SHA-256: no
    statement below depends on the value of a digest, only on running the
    code). *)
Definition zeros64 : string :=
  "0000000000000000000000000000000000000000000000000000000000000000".

Definition demo_host : Host :=
  {| datetime := Z;
     datetime_str := fun _ => "2025-01-01 12:00:00.000000";
     datetime_isoformat := fun _ => "2025-01-01T12:00:00.000000";
     sha256_hexdigest := fun s => substring 0 64 (s ++ zeros64)%string;
     json_dumps_sorted := fun _ => "{}" |}.

Definition demo_date (z : Z) : @datetime demo_host := z.

Definition demo_genesis : @GenesisInput demo_host :=
  {| genesis_orbit_now := demo_date 1;
     genesis_tx_obj := 0%nat;
     genesis_tx_nonce := "1735732800.01234";
     genesis_tx_now := demo_date 2 |}.

Definition demo_network : @Network demo_host :=
  Network_init "OrbitChain-MainNet" (demo_date 0) demo_genesis.

(** The fresh ledger and validator objects as [Validator("node", 100.0)]
    makes them. *)
Definition demo_world : @World demo_host :=
  {| heap := fun _ => Validator_init "node" 100%float; net := demo_network |}.

Definition demo_tx (k : nat) : @Transaction demo_host :=
  Transaction_init k "1735732801.04321" (demo_date (Z.of_nat k))
    "Alice" "Bob" "10 OrbitCoins" "payment".

(** The fresh ledger after [submit_transaction(tx)] and
    [process_pending_transactions()]. *)
Definition demo_world_1 : @World demo_host :=
  state_of (process_pending_transactions (demo_date 9)
              (submit_transaction (demo_tx 1) demo_world)).

(** That ledger after [seal_current_orbit()]. *)
Definition demo_world_2 : @World demo_host :=
  state_of (on_net seal_current_orbit demo_world_1).

(** The fresh ledger with one registered validator, which its owner then
    switched off. *)
Definition demo_world_idle : @World demo_host :=
  with_heap (add_validator 0%nat demo_world)
    (fun _ => set_is_active (Validator_init "node" 100%float) false).

(** A transaction whose sender is the empty string. *)
Definition demo_tx_no_sender : @Transaction demo_host :=
  Transaction_init 21 "1735732802.00021" (demo_date 21) "" "Bob" "10 OrbitCoins" "payment".

(** The ten transactions of [create_demo_network]. *)
Definition demo_transactions : list (@Transaction demo_host) :=
  [ Transaction_init 1 "1735732801.11001" (demo_date 11) "Alice" "Bob" "10 OrbitCoins" "payment";
    Transaction_init 2 "1735732801.12002" (demo_date 12) "Bob" "Carol" "Koupit kávu" "purchase";
    Transaction_init 3 "1735732801.13003" (demo_date 13) "Carol" "Dave" "Dokument #123" "document";
    Transaction_init 4 "1735732801.14004" (demo_date 14) "Dave" "Alice" "Hlasování #456" "vote";
    Transaction_init 5 "1735732801.15005" (demo_date 15) "Alice" "Carol" "Certifikát školy" "certificate";
    Transaction_init 6 "1735732801.16006" (demo_date 16) "Bob" "Dave" "IoT data senzor" "iot";
    Transaction_init 7 "1735732801.17007" (demo_date 17) "Carol" "Alice" "Smart kontrakt" "contract";
    Transaction_init 8 "1735732801.18008" (demo_date 18) "Dave" "Bob" "Backup fotek" "storage";
    Transaction_init 9 "1735732801.19009" (demo_date 19) "Alice" "Dave" "5 OrbitCoins" "payment";
    Transaction_init 10 "1735732801.11010" (demo_date 20) "Bob" "Carol" "Ověření identity" "identity" ].

(** Each with the clock's reading when it is processed. *)
Definition demo_steps : list (@datetime demo_host * @Transaction demo_host) :=
  map (fun tx => (demo_date (100 + Z.of_nat (tx_obj tx)), tx)) demo_transactions.

(** ** Sectors and the status of the network *)

(** What [get_sectors] can raise: the division by zero of [i % 0], and the
    [KeyError] of a sector that the dictionary does not hold, with its key. *)
Inductive sectors_exn : Type :=
| SectorsZeroDivisionError
| SectorsKeyError (key : Z).

(** [{i: [] for i in range(num_validators)}] *)
Definition empty_sectors {host : Host} (num_validators : Z)
  : gmap.gmap Z (list Transaction) :=
  fin_maps.list_to_map ((fun i => (i, [])) <$> seqZ 0 num_validators).

(** The loop [for i, tx in enumerate(self.transactions)] of [get_sectors],
    from index [i] on; [%] rounds down, as [Z.modulo], and raises for a zero
    divisor. *)
Fixpoint fill_sectors {host : Host} (num_validators : Z) (i : Z)
  (txs : list Transaction) (sectors : gmap.gmap Z (list Transaction))
  : sectors_exn + gmap.gmap Z (list Transaction) :=
  match txs with
  | [] => inr sectors
  | tx :: txs' =>
      if num_validators =? 0 then inl SectorsZeroDivisionError
      else
        let sector := i mod num_validators in
        match sectors !! sector with
        | None => inl (SectorsKeyError sector)
        | Some l =>
            fill_sectors num_validators (i + 1) txs'
              (<[sector := l ++ [tx]]> sectors)
        end
  end.

(** [Orbit.get_sectors] *)
Definition get_sectors {host : Host} (o : Orbit) (num_validators : Z)
  : sectors_exn + gmap.gmap Z (list Transaction) :=
  fill_sectors num_validators 0 (transactions o) (empty_sectors num_validators).

(** The transactions that the loop of [get_sectors], started at index [i],
    appends to sector [s]. *)
Fixpoint sector_picks {host : Host} (n s i : Z) (txs : list Transaction)
  : list Transaction :=
  match txs with
  | [] => []
  | tx :: txs' =>
      if i mod n =? s then tx :: sector_picks n s (i + 1) txs'
      else sector_picks n s (i + 1) txs'
  end.

(** What [get_network_status] takes from the host besides the clock: the
    seconds of a difference of two dates, [(a - b).total_seconds()], and the
    text of a float in an f-string. *)
Class StatusHost {host : Host} : Type := {
  total_seconds : datetime -> datetime -> float;
  float_str : float -> string
}.

(** The dictionary [get_network_status] returns; its keys are fixed. *)
Module Status.
Record t : Type := {
  network_name : string;
  total_orbits : Z;
  total_transactions : Z;
  pending_transactions : Z;
  active_validators : Z;
  total_validators : Z;
  uptime_seconds : float;
  current_orbit : Z;
  consensus_threshold : string
}.
End Status.

(** [OrbitChainNetwork.get_network_status]; [now] is the clock's reading. *)
Definition get_network_status {host : Host} {status_host : StatusHost}
  (now : datetime) (w : World) : Status.t :=
  let n := net w in
  let active_validators := active_count (heap w) (validators n) in
  let uptime := total_seconds now (uptime (network_stats n)) in
  {| Status.network_name := net_name n;
     Status.total_orbits := len (orbits n);
     Status.total_transactions := total_transactions (network_stats n);
     Status.pending_transactions := len (pending_transactions n);
     Status.active_validators := active_validators;
     Status.total_validators := len (validators n);
     Status.uptime_seconds := uptime;
     Status.current_orbit := current_orbit_index n;
     Status.consensus_threshold :=
       (float_str (PrimFloat.mul (consensus_threshold n) 100%float) ++ "%")%string |}.

(** The number of transactions in a sequence of orbits. *)
Definition tx_count {host : Host} (os : list Orbit) : Z :=
  foldr (fun o acc => len (transactions o) + acc) 0 os.

(** What the engine keeps of the orbit at index [i]: its number is its
    index, its capacity is 1 for the genesis orbit and the default for the
    others and bounds its transactions, and its hashes are those of its last
    sealing, or empty while it is open. *)
Definition orbit_wf {host : Host} (i : nat) (o : Orbit) : Prop :=
  orbit_number o = Z.of_nat i /\
  max_transactions o = (match i with O => 1 | S _ => default_max_transactions end) /\
  len (transactions o) <= max_transactions o /\
  validators_confirmed o = [] /\
  if is_sealed o then o = seal_orbit o (previous_hash o)
  else orbital_hash o = "" /\ previous_hash o = "".

(** What the engine keeps of the network: the counters count the orbits and
    their transactions, the threshold is the one of [__init__], and every
    orbit is as [orbit_wf] says. *)
Definition ledger_wf {host : Host} (n : Network) : Prop :=
  total_orbits (network_stats n) = len (orbits n) /\
  total_transactions (network_stats n) = tx_count (orbits n) /\
  network_hash_rate (network_stats n) = 0 /\
  consensus_threshold n = default_consensus_threshold /\
  forall (i : nat) o, orbits n !! i = Some o -> orbit_wf i o.

(** The ledger only grows: the current index does not go back, every orbit
    keeps its place, number, capacity and timestamp, an orbit that is sealed
    stays as it is, and the transactions of an open orbit are only appended
    to. *)
Definition grows {host : Host} (n n' : Network) : Prop :=
  current_orbit_index n <= current_orbit_index n' /\
  (length (orbits n) <= length (orbits n'))%nat /\
  forall (i : nat) o, orbits n !! i = Some o ->
    exists o', orbits n' !! i = Some o' /\
               (is_sealed o = true -> o' = o) /\
               transactions o `prefix_of` transactions o' /\
               orbit_number o' = orbit_number o /\
               max_transactions o' = max_transactions o /\
               timestamp o' = timestamp o.

Definition demo_seconds (d : @datetime demo_host) : Z := d.

(** Dates are numbers of seconds, and a float is written by a constant. *)
Definition demo_status_host : @StatusHost demo_host :=
  {| total_seconds := fun a b => float_of_Z (demo_seconds a - demo_seconds b);
     float_str := fun _ => "67.0" |}.

(** What the gate answers when it answers: with a registry that is not
    empty, the comparison of the threshold with the share of approvals, which
    are all [actives] active validators for a transaction that passes the
    tests of [Validator.validate_transaction], and none for another. *)
Definition gate_verdict {host : Host} (n : Network) (actives : Z)
  (tx : Transaction) : bool :=
  match validators n with
  | [] => true
  | _ :: _ =>
      PrimFloat.leb (consensus_threshold n)
        (true_div (if well_formed tx then actives else 0) actives)
  end.

(** The engine's trace on the validator objects: it only counts. *)
Definition counted {host : Host} (h h' : loc -> Validator) : Prop :=
  forall v : loc,
    name (h' v) = name (h v) /\
    stake (h' v) = stake (h v) /\
    reputation (h' v) = reputation (h v) /\
    is_active (h' v) = is_active (h v) /\
    sector_position (h' v) = sector_position (h v) /\
    validated_count (h v) <= validated_count (h' v) /\
    (is_active (h v) = false -> validated_count (h' v) = validated_count (h v)).

(** [add_transaction] for each transaction of a list in turn. *)
Definition add_all {host : Host} (o : Orbit) (txs : list Transaction) : Orbit :=
  foldl (fun o tx => fst (add_transaction o tx)) o txs.

(** The previous hash [seal_current_orbit] hands to [seal_orbit]. *)
Definition previous_of {host : Host} (os : list Orbit) (cur : Z) : option string :=
  if cur >? 0 then orbital_hash <$> getitem os (cur - 1) else Some "".

(** What one pass over the queue leaves in it, with [room] places free in
    the orbit and [g] the verdict of the gate: the transactions the gate
    rejects up to the one that takes the last place, and all those after
    it. *)
Fixpoint leftover {host : Host} (room : nat) (g : Transaction -> bool)
  (txs : list Transaction) : list Transaction :=
  match room, txs with
  | O, _ => txs
  | _, [] => []
  | S room', tx :: txs' =>
      if g tx then leftover room' g txs' else tx :: leftover room g txs'
  end.

(** Two entries of the list with the same identity are the same
    transaction, as for the objects of a Python list. *)
Definition identified {host : Host} (txs : list Transaction) : Prop :=
  forall a b, a ∈ txs -> b ∈ txs -> tx_obj a = tx_obj b -> a = b.

(** The network after the test at the top of [process_pending_transactions]:
    with a new orbit when the current one is full or sealed. *)
Definition opened {host : Host} (now : datetime) (n : Network) : Network :=
  match getitem (orbits n) (current_orbit_index n) with
  | Some current_orbit =>
      if is_full current_orbit || is_sealed current_orbit
      then create_new_orbit now n else n
  | None => n
  end.

(** The transactions of the ledger, orbit after orbit. *)
Definition ledger_log {host : Host} (n : Network) : list Transaction :=
  concat (map transactions (orbits n)).

(** The orbits after the first hold the transactions [txs] eight by eight
    and in order: orbit [i + 1] exists when [txs] has more than [8 * i]
    transactions, holds the next eight of them, or those that are left, and
    is sealed exactly when it holds eight. *)
Definition filled {host : Host} (n : Network) (txs : list Transaction) : Prop :=
  (forall i : nat, (8 * i < length txs)%nat ->
     exists o,
       orbits n !! S i = Some o /\
       transactions o = take 8 (drop (8 * i) txs) /\
       is_sealed o = bool_decide (length (transactions o) = 8%nat)) /\
  (forall i : nat, (length txs <= 8 * i)%nat -> orbits n !! S i = None).

(** ** Orbit: capacity, admission and the merkle root *)

(** The [while] loop of [update_merkle_root] ends, with one hash at most. *)
Lemma merkle_loop_short {host : Host} (hashes : list string) :
  (length (merkle_loop hashes) <= 1)%nat.
Proof.
  funelim (merkle_loop hashes); simp merkle_loop; simpl; lia.
Qed.

Lemma merkle_of_nil {host : Host} : merkle_of [] = "0000000000000000".
Proof. reflexivity. Qed.

Lemma merkle_of_single {host : Host} (s : string) : merkle_of [s] = s.
Proof. unfold merkle_of. simp merkle_loop. reflexivity. Qed.

(** Two signatures are hashed together; of three, the last one is hashed
    with itself, and the two hashes together. *)
Lemma merkle_of_three {host : Host} (a b c : string) :
  merkle_of [a; b] = sha256_prefix 16 (a ++ b)%string /\
  merkle_of [a; b; c]
  = sha256_prefix 16
      (sha256_prefix 16 (a ++ b) ++ sha256_prefix 16 (c ++ c))%string.
Proof.
  unfold merkle_of. split; simp merkle_loop; simpl; simp merkle_loop; reflexivity.
Qed.

Lemma add_transaction_sealed {host : Host} (o : Orbit) (tx : Transaction) :
  is_sealed o = true -> add_transaction o tx = (o, false).
Proof. unfold add_transaction. intros ->. reflexivity. Qed.

Lemma add_transaction_full {host : Host} (o : Orbit) (tx : Transaction) :
  is_full o = true -> add_transaction o tx = (o, false).
Proof.
  unfold add_transaction, is_full. intros ->. destruct (is_sealed o); reflexivity.
Qed.

Lemma add_transaction_open {host : Host} (o : Orbit) (tx : Transaction) :
  is_sealed o = false -> is_full o = false ->
  add_transaction o tx =
    (update_merkle_root (set_transactions o (transactions o ++ [tx])), true).
Proof. unfold add_transaction, is_full. intros -> ->. reflexivity. Qed.

(** An orbit made with a capacity that is not negative never holds more
    transactions than its capacity: [add_transaction] and [seal_orbit] keep
    the bound. *)
Lemma orbit_bounded {host : Host} (o : Orbit) (tx : Transaction) (p : string)
  (number capacity : Z) (now : datetime) :
  (0 <= capacity ->
   len (transactions (Orbit_init number capacity now))
     <= max_transactions (Orbit_init number capacity now)) /\
  (len (transactions o) <= max_transactions o ->
   len (transactions (fst (add_transaction o tx)))
     <= max_transactions (fst (add_transaction o tx))) /\
  (len (transactions o) <= max_transactions o ->
   len (transactions (seal_orbit o p)) <= max_transactions (seal_orbit o p)).
Proof.
  split_and!.
  - intros H. exact H.
  - intros H. unfold add_transaction.
    destruct (is_sealed o); [exact H|].
    destruct (Z.geb_spec (len (transactions o)) (max_transactions o)); [exact H|].
    simpl. unfold len in *. rewrite length_app. simpl. lia.
  - intros H. exact H.
Qed.

(** C7, as the specification states it, fails: an open orbit of capacity -1
    holds 0 transactions, which is not its capacity, and [add_transaction]
    returns [False] and appends nothing. *)
Lemma add_transaction_over_capacity :
  is_sealed (Orbit_init 1 (-1) (demo_date 5)) = false /\
  len (transactions (Orbit_init 1 (-1) (demo_date 5)))
    <> max_transactions (Orbit_init 1 (-1) (demo_date 5)) /\
  add_transaction (Orbit_init 1 (-1) (demo_date 5)) (demo_tx 1)
    = (Orbit_init 1 (-1) (demo_date 5), false).
Proof. split_and!; [reflexivity | discriminate | reflexivity]. Qed.

(** C7, amended.  [add_transaction] returns [False] and leaves the orbit as
    it is when the orbit is sealed or holds at least [max_transactions]
    transactions; otherwise it returns [True], the transaction is appended,
    the merkle root is the merkle function of the new list of signatures,
    and no other field changes. *)
Theorem add_transaction_spec {host : Host} (o : Orbit) (tx : Transaction) :
  (is_sealed o = true \/ len (transactions o) >= max_transactions o ->
   add_transaction o tx = (o, false)) /\
  (is_sealed o = false /\ len (transactions o) < max_transactions o ->
   add_transaction o tx =
     ({| orbit_number := orbit_number o;
         transactions := transactions o ++ [tx];
         max_transactions := max_transactions o;
         timestamp := timestamp o;
         is_sealed := false;
         validators_confirmed := validators_confirmed o;
         orbital_hash := orbital_hash o;
         previous_hash := previous_hash o;
         merkle_root := merkle_of (map signature (transactions o ++ [tx])) |},
      true)).
Proof.
  split.
  - intros [Hsealed | Hcount].
    + now apply add_transaction_sealed.
    + apply add_transaction_full. unfold is_full. apply Z.geb_le. lia.
  - intros [Hopen Hcount].
    rewrite add_transaction_open; trivial.
    + unfold update_merkle_root, set_merkle_root, set_transactions. simpl.
      rewrite Hopen. reflexivity.
    + unfold is_full. rewrite Z.geb_leb. apply Z.leb_gt. lia.
Qed.

(** On an orbit that holds no more transactions than its capacity, the two
    cases are: sealed or exactly [max_transactions] transactions, and open
    with another number of them. *)
Theorem add_transaction_within_capacity {host : Host} (o : Orbit) (tx : Transaction) :
  len (transactions o) <= max_transactions o ->
  (is_sealed o = true \/ len (transactions o) = max_transactions o ->
   add_transaction o tx = (o, false)) /\
  (is_sealed o = false /\ len (transactions o) <> max_transactions o ->
   fst (add_transaction o tx)
     = update_merkle_root (set_transactions o (transactions o ++ [tx])) /\
   snd (add_transaction o tx) = true).
Proof.
  intros Hcap. split.
  - intros [Hsealed | Hcount].
    + now apply add_transaction_sealed.
    + apply add_transaction_full. unfold is_full. apply Z.geb_le. lia.
  - intros [Hopen Hcount].
    rewrite add_transaction_open; [now split | trivial |].
    unfold is_full. rewrite Z.geb_leb. apply Z.leb_gt. lia.
Qed.

Lemma add_transaction_within_capacity_witness :
  (len (transactions (Orbit_init 1 8 (demo_date 5))) <= 8) /\
  fst (add_transaction (Orbit_init 1 8 (demo_date 5)) (demo_tx 1))
  = set_merkle_root
      (set_transactions (Orbit_init 1 8 (demo_date 5)) [demo_tx 1])
      (signature (demo_tx 1)).
Proof.
  split; [vm_compute; discriminate|].
  destruct (add_transaction_within_capacity (Orbit_init 1 8 (demo_date 5)) (demo_tx 1))
    as [_ H]; [vm_compute; discriminate|].
  destruct H as [H _]; [split; [reflexivity | vm_compute; discriminate]|].
  rewrite H. reflexivity.
Defined.

Lemma add_transaction_merkle_root {host : Host} (o o' : Orbit) (tx : Transaction) :
  add_transaction o tx = (o', true) ->
  transactions o' = transactions o ++ [tx] /\
  merkle_root o' = merkle_of (map signature (transactions o')).
Proof.
  unfold add_transaction.
  destruct (is_sealed o); [discriminate|].
  destruct (len (transactions o) >=? max_transactions o); [discriminate|].
  intros [= <-]. split; reflexivity.
Qed.

(** C3.  An orbit as [Orbit.__init__] leaves it has no transaction and the
    empty string for merkle root, while the merkle function of no signature,
    the value [update_merkle_root] stores for an orbit without transactions,
    is sixteen zeros. *)
Theorem fresh_orbit_merkle_root {host : Host} (number capacity : Z) (now : datetime) :
  transactions (Orbit_init number capacity now) = [] /\
  merkle_root (Orbit_init number capacity now) = "" /\
  merkle_of (map signature (transactions (Orbit_init number capacity now)))
    = "0000000000000000" /\
  merkle_root (update_merkle_root (Orbit_init number capacity now))
    = "0000000000000000".
Proof. repeat split. Qed.

(** C5, as the specification states it, fails: [Orbit(1, 0)] returns an
    orbit. *)
Lemma orbit_zero_capacity_constructed :
  Orbit_new 1 0 (demo_date 5) = Returns (Orbit_init 1 0 (demo_date 5)) tt /\
  max_transactions (Orbit_init 1 0 (demo_date 5)) = 0.
Proof. split; reflexivity. Qed.

(** C5, amended.  Constructing an orbit with a capacity that is not positive
    raises nothing: it returns an open orbit without transactions that
    [is_full] reports full and to which [add_transaction] adds nothing. *)
Theorem orbit_nonpositive_capacity {host : Host} (number capacity : Z) (now : datetime) :
  capacity <= 0 ->
  exists o : Orbit,
    Orbit_new number capacity now = Returns o tt /\
    max_transactions o = capacity /\
    is_sealed o = false /\
    transactions o = [] /\
    is_full o = true /\
    forall tx, add_transaction o tx = (o, false).
Proof.
  intros Hcap. exists (Orbit_init number capacity now).
  assert (Hfull : is_full (Orbit_init number capacity now) = true).
  { unfold is_full, len. simpl. apply Z.geb_le. lia. }
  repeat split; trivial.
  intros tx. now apply add_transaction_full.
Qed.

Lemma orbit_nonpositive_capacity_witness :
  -3 <= 0 /\
  exists o : Orbit,
    Orbit_new 4 (-3) (demo_date 5) = Returns o tt /\
    max_transactions o = -3 /\
    is_sealed o = false /\
    transactions o = [] /\
    is_full o = true /\
    forall tx, add_transaction o tx = (o, false).
Proof.
  split; [lia|].
  apply (orbit_nonpositive_capacity 4 (-3) (demo_date 5)). lia.
Defined.

(** ** Orbit: sealing *)

Lemma seal_orbit_fields {host : Host} (o : Orbit) (p : string) :
  orbit_number (seal_orbit o p) = orbit_number o /\
  transactions (seal_orbit o p) = transactions o /\
  max_transactions (seal_orbit o p) = max_transactions o /\
  timestamp (seal_orbit o p) = timestamp o /\
  validators_confirmed (seal_orbit o p) = validators_confirmed o /\
  merkle_root (seal_orbit o p) = merkle_root o /\
  is_sealed (seal_orbit o p) = true /\
  previous_hash (seal_orbit o p) = p.
Proof. repeat split. Qed.

Lemma seal_orbit_idempotent {host : Host} (o : Orbit) (p : string) :
  seal_orbit (seal_orbit o p) p = seal_orbit o p.
Proof. reflexivity. Qed.

(** C2, as the specification states it, fails: the genesis orbit of a fresh
    ledger is sealed with previous hash [""], and sealing it again with
    ["ffff"] stores ["ffff"]. *)
Lemma reseal_overwrites_previous_hash :
  exists o : Orbit,
    orbits demo_network = [o] /\
    is_sealed o = true /\
    previous_hash o = "" /\
    previous_hash (seal_orbit o "ffff") = "ffff".
Proof. eexists. repeat split. Qed.

(** C2, amended.  Sealing a sealed orbit again leaves it sealed and leaves
    its number, transactions, capacity, timestamp and merkle root as they
    were; [previous_hash] becomes the argument and [orbital_hash] the digest
    of the content with that argument.  When the argument is the previous
    hash the orbit was last sealed with, the orbit is left exactly as it
    was. *)
Theorem seal_orbit_again {host : Host} (o : Orbit) (p : string) :
  is_sealed o = true ->
  is_sealed (seal_orbit o p) = true /\
  orbit_number (seal_orbit o p) = orbit_number o /\
  transactions (seal_orbit o p) = transactions o /\
  max_transactions (seal_orbit o p) = max_transactions o /\
  timestamp (seal_orbit o p) = timestamp o /\
  merkle_root (seal_orbit o p) = merkle_root o /\
  previous_hash (seal_orbit o p) = p /\
  orbital_hash (seal_orbit o p)
    = sha256_prefix 16 (json_dumps_sorted (seal_content (set_sealed o p))) /\
  forall o0 : Orbit, o = seal_orbit o0 p -> seal_orbit o p = o.
Proof.
  intros _. repeat split.
  intros o0 ->. apply seal_orbit_idempotent.
Qed.

Lemma seal_orbit_again_witness :
  is_sealed (seal_orbit (Orbit_init 3 8 (demo_date 5)) "abcd") = true /\
  seal_orbit (seal_orbit (Orbit_init 3 8 (demo_date 5)) "abcd") "abcd"
    = seal_orbit (Orbit_init 3 8 (demo_date 5)) "abcd".
Proof.
  split; [reflexivity|].
  pose proof (seal_orbit_again (seal_orbit (Orbit_init 3 8 (demo_date 5)) "abcd")
                "abcd" eq_refl) as (_ & _ & _ & _ & _ & _ & _ & _ & H).
  apply (H (Orbit_init 3 8 (demo_date 5)) eq_refl).
Defined.

(** ** The validator pool *)

(** The original statement of C9 fails on two counts.  A validator object
    handed to [add_validator] a second time is a validator registered
    earlier whose position is recomputed: registered first on a fresh
    ledger it gets 0, registered again it gets 180 and is in the registry
    twice.  And the quotient is the one of integers: the seventh validator
    gets [6 * (360 // 7) = 306], which is not the float [6 * (360 / 7)]. *)
Lemma add_validator_registered_again :
  validators (net (add_validator 0%nat demo_world)) = [0%nat] /\
  sector_position (heap (add_validator 0%nat demo_world) 0%nat) = 0 /\
  validators (net (add_validator 0%nat (add_validator 0%nat demo_world)))
    = [0%nat; 0%nat] /\
  sector_position
    (heap (add_validator 0%nat (add_validator 0%nat demo_world)) 0%nat) = 180 /\
  sector_position
    (heap (add_validator 6%nat (add_validator 5%nat (add_validator 4%nat
       (add_validator 3%nat (add_validator 2%nat (add_validator 1%nat
          (add_validator 0%nat demo_world)))))))
       6%nat) = 306 /\
  PrimFloat.eqb (float_of_Z 306)
    (PrimFloat.mul (float_of_Z 6) (true_div 360 7)) = false.
Proof. vm_compute. repeat split. Qed.

(** C9, amended.  [add_validator] appends the validator object to the
    registry, also when it is registered already, and assigns it the sector
    position [n * (360 // (n + 1))], where [n] is the number of entries of
    the registry before the call and [//] is the division of integers
    rounded down: the quotient is the integer [q] with
    [q * (n + 1) <= 360 < (q + 1) * (n + 1)].  No other attribute of the
    validator changes and no other validator object is touched, so the
    position of every validator registered earlier stays as it is, except
    that of the object handed in, when it was registered already: after the
    call the position of an object is the new one for the object handed in
    and the old one for every other. *)
Theorem add_validator_spec {host : Host} (v : loc) (w : World) :
  validators (net (add_validator v w)) = validators (net w) ++ [v] /\
  sector_position (heap (add_validator v w) v)
    = len (validators (net w)) * (360 / (len (validators (net w)) + 1)) /\
  set_sector_position (heap (add_validator v w) v) (sector_position (heap w v))
    = heap w v /\
  (forall u : loc, u <> v -> heap (add_validator v w) u = heap w u) /\
  (forall u : loc, u ∈ validators (net w) -> u <> v ->
     sector_position (heap (add_validator v w) u) = sector_position (heap w u)) /\
  (forall u : loc,
     sector_position (heap (add_validator v w) u)
     = if decide (u = v)
       then len (validators (net w)) * (360 / (len (validators (net w)) + 1))
       else sector_position (heap w u)) /\
  (exists q : Z,
     sector_position (heap (add_validator v w) v) = len (validators (net w)) * q /\
     q * (len (validators (net w)) + 1) <= 360
       < (q + 1) * (len (validators (net w)) + 1)).
Proof.
  assert (Hmax : Z.max 1 (len (validators (net w)) + 1)
                 = len (validators (net w)) + 1) by (unfold len; lia).
  assert (Hpos : 0 < len (validators (net w)) + 1) by (unfold len; lia).
  unfold add_validator. simpl. rewrite Hmax.
  split_and!.
  - reflexivity.
  - now rewrite fn_lookup_insert.
  - rewrite fn_lookup_insert. destruct (heap w v). reflexivity.
  - intros u Hu. now rewrite fn_lookup_insert_ne.
  - intros u _ Hu. now rewrite fn_lookup_insert_ne.
  - intros u. destruct (decide (u = v)) as [->|Hu].
    + now rewrite fn_lookup_insert.
    + now rewrite fn_lookup_insert_ne.
  - exists (360 / (len (validators (net w)) + 1)).
    split; [now rewrite fn_lookup_insert|].
    pose proof (Z.mul_div_le 360 _ Hpos).
    pose proof (Z.mul_succ_div_gt 360 _ Hpos).
    lia.
Qed.

(** The position assigned is an angle in [[0, 360)]. *)
Lemma sector_position_bound {host : Host} (v : loc) (w : World) :
  0 <= sector_position (heap (add_validator v w) v) < 360.
Proof.
  unfold add_validator. simpl. rewrite fn_lookup_insert. simpl.
  unfold len. set (n := Z.of_nat (length (validators (net w)))).
  replace (Z.max 1 (n + 1)) with (n + 1) by (unfold n; lia).
  assert (0 <= n) by (unfold n; lia).
  assert (0 <= 360 / (n + 1)) by (apply Z.div_pos; lia).
  split; [nia|].
  pose proof (Z.mul_div_le 360 (n + 1)). nia.
Qed.

(** ** Reading an orbit *)

Lemma py_index_nonneg {A : Type} (l : list A) (i : Z) :
  0 <= i < len l -> py_index l i = Some (Z.to_nat i).
Proof.
  intros [H0 H1]. unfold py_index.
  destruct (Z.leb_spec 0 i); [|lia].
  destruct (Z.ltb_spec i (len l)); [reflexivity|lia].
Qed.

Lemma py_index_lt {A : Type} (l : list A) (i : Z) (k : nat) :
  py_index l i = Some k -> (k < length l)%nat.
Proof.
  unfold py_index, len.
  destruct (Z.leb_spec 0 i).
  - destruct (Z.ltb_spec i (Z.of_nat (length l))); intros [= <-]; lia.
  - destruct (Z.leb_spec 0 (Z.of_nat (length l) + i)); intros [= <-]; lia.
Qed.

Lemma getitem_nonneg {A : Type} (l : list A) (i : Z) :
  0 <= i < len l -> getitem l i = l !! Z.to_nat i.
Proof. intros H. unfold getitem. now rewrite py_index_nonneg. Qed.

Lemma getitem_negative {A : Type} (l : list A) (i : Z) :
  - len l <= i < 0 -> getitem l i = l !! Z.to_nat (len l + i).
Proof.
  intros [H0 H1]. unfold getitem, py_index.
  destruct (Z.leb_spec 0 i); [lia|].
  destruct (Z.leb_spec 0 (len l + i)); [reflexivity|lia].
Qed.

Lemma getitem_below {A : Type} (l : list A) (i : Z) :
  i < - len l -> getitem l i = None.
Proof.
  intros H. unfold getitem, py_index.
  destruct (Z.leb_spec 0 i); [unfold len in *; lia|].
  destruct (Z.leb_spec 0 (len l + i)); [lia|reflexivity].
Qed.

(** From the number of orbits on, [show_orbit_detail] reports the orbit
    missing; from 0 up to it, it prints the orbit at that index. *)
Lemma show_orbit_detail_in_range {host : Host} (i : Z) (n : Network) :
  (len (orbits n) <= i -> show_orbit_detail i n = Returns (NotFound i) n) /\
  (0 <= i < len (orbits n) ->
   exists o, orbits n !! Z.to_nat i = Some o /\
             show_orbit_detail i n = Returns (Detail i o) n).
Proof.
  unfold show_orbit_detail. split.
  - intros Hi. destruct (Z.geb_spec i (len (orbits n))); [reflexivity|lia].
  - intros Hi. destruct (Z.geb_spec i (len (orbits n))); [lia|].
    rewrite getitem_nonneg by trivial.
    destruct (lookup_lt_is_Some_2 (orbits n) (Z.to_nat i)) as [o Ho];
      [unfold len in *; lia|].
    exists o. now rewrite Ho.
Qed.

(** C6.  For an index below zero [show_orbit_detail] does not report that
    the orbit is missing: down to minus the number of orbits it prints the
    orbit counted from the end of the sequence, and below that it raises
    [IndexError]. *)
Theorem show_orbit_detail_negative {host : Host} (i : Z) (n : Network) :
  i < 0 ->
  (- len (orbits n) <= i ->
   exists o, orbits n !! Z.to_nat (len (orbits n) + i) = Some o /\
             show_orbit_detail i n = Returns (Detail i o) n) /\
  (i < - len (orbits n) -> show_orbit_detail i n = Raises IndexError n).
Proof.
  intros Hneg. unfold show_orbit_detail.
  destruct (Z.geb_spec i (len (orbits n))); [unfold len in *; lia|].
  split; intros Hi.
  - rewrite getitem_negative by lia.
    destruct (lookup_lt_is_Some_2 (orbits n) (Z.to_nat (len (orbits n) + i)))
      as [o Ho]; [unfold len in *; lia|].
    exists o. now rewrite Ho.
  - now rewrite getitem_below.
Qed.

Lemma show_orbit_detail_negative_witness :
  -1 < 0 /\
  (exists o, orbits demo_network = [o] /\
     show_orbit_detail (-1) demo_network = Returns (Detail (-1) o) demo_network) /\
  show_orbit_detail (-2) demo_network = Raises IndexError demo_network.
Proof.
  split; [lia|]. split.
  - destruct (show_orbit_detail_negative (-1) demo_network) as [H _]; [lia|].
    destruct H as (o & Ho & Hshow); [vm_compute; discriminate|].
    exists o. split; [|exact Hshow].
    vm_compute in Ho. injection Ho as <-. reflexivity.
  - destruct (show_orbit_detail_negative (-2) demo_network) as [_ H];
      [lia|]. apply H. vm_compute. reflexivity.
Defined.

(** ** The invariant of the orbit sequence *)

Lemma ledger_base_current {host : Host} (os : list Orbit) (cur : Z) :
  ledger_base os cur ->
  py_index os cur = Some (Z.to_nat cur) /\
  length os = S (Z.to_nat cur) /\
  exists o, os !! Z.to_nat cur = Some o.
Proof.
  intros (Hcur & Hpos & _).
  assert (Hlen : length os = S (Z.to_nat cur)) by (unfold len in Hcur; lia).
  split; [apply py_index_nonneg; unfold len; lia|].
  split; [exact Hlen|].
  apply lookup_lt_is_Some_2. lia.
Qed.

Lemma add_transaction_false {host : Host} (o o' : Orbit) (tx : Transaction) :
  add_transaction o tx = (o', false) -> o' = o.
Proof.
  unfold add_transaction.
  destruct (is_sealed o); [now intros [= <-]|].
  destruct (len (transactions o) >=? max_transactions o);
    [now intros [= <-] | discriminate].
Qed.

Lemma add_transaction_true {host : Host} (o o' : Orbit) (tx : Transaction) :
  add_transaction o tx = (o', true) ->
  is_sealed o = false /\ is_full o = false /\
  is_sealed o' = false /\
  previous_hash o' = previous_hash o /\
  orbital_hash o' = orbital_hash o /\
  transactions o' = transactions o ++ [tx] /\
  merkle_root o' = merkle_of (map signature (transactions o')).
Proof.
  unfold add_transaction, is_full.
  destruct (is_sealed o) eqn:Hs; [discriminate|].
  destruct (len (transactions o) >=? max_transactions o); [discriminate|].
  intros [= <-]. simpl. rewrite Hs. repeat split.
Qed.

(** Adding to the current orbit keeps the base invariant. *)
Lemma ledger_base_add {host : Host} (os : list Orbit) (cur : Z) (o o' : Orbit)
  (tx : Transaction) (b : bool) :
  ledger_base os cur ->
  os !! Z.to_nat cur = Some o ->
  add_transaction o tx = (o', b) ->
  ledger_base (<[Z.to_nat cur := o']> os) cur.
Proof.
  intros Hbase Ho Hadd. destruct b.
  2:{ apply add_transaction_false in Hadd as ->. now rewrite list_insert_id. }
  apply add_transaction_true in Hadd
    as (Hopen & _ & Hopen' & Hprev & Hhash & Htxs & Hroot).
  destruct Hbase as (Hcur & Hpos & Hsealed & Hfirst & Hchain & Hmerkle).
  pose proof (lookup_lt_Some _ _ _ Ho) as Hlt.
  unfold ledger_base, len. rewrite length_insert. fold (len os).
  split; [exact Hcur|]. split; [exact Hpos|]. repeat split.
  - intros i x Hi Hx. rewrite list_lookup_insert_ne in Hx by lia. eauto.
  - intros x Hx. destruct (decide (Z.to_nat cur = 0%nat)) as [E|E].
    + rewrite E in *. rewrite list_lookup_insert_eq in Hx by lia.
      injection Hx as <-. rewrite Hprev. eauto.
    + rewrite list_lookup_insert_ne in Hx by trivial. eauto.
  - intros i x x' Hx Hx' Hsx'.
    destruct (decide (Z.to_nat cur = S i)) as [E|E].
    + rewrite E in Hx'. rewrite list_lookup_insert_eq in Hx' by lia.
      injection Hx' as <-. congruence.
    + rewrite list_lookup_insert_ne in Hx' by trivial.
      destruct (decide (Z.to_nat cur = i)) as [E'|E'].
      * apply lookup_lt_Some in Hx'. unfold len in Hcur. lia.
      * rewrite list_lookup_insert_ne in Hx by trivial. eauto.
  - intros i x Hx. destruct (decide (Z.to_nat cur = i)) as [E|E].
    + rewrite E in Hx. rewrite list_lookup_insert_eq in Hx by lia.
      injection Hx as <-. rewrite Hroot, Htxs.
      destruct (transactions o); reflexivity.
    + rewrite list_lookup_insert_ne in Hx by trivial. eauto.
Qed.

(** Sealing the current orbit with the orbital hash of the orbit before it
    ([""] for the first orbit) establishes the invariant. *)
Lemma ledger_inv_seal {host : Host} (os : list Orbit) (cur : Z) (o : Orbit)
  (previous : string) :
  ledger_base os cur ->
  os !! Z.to_nat cur = Some o ->
  (if cur >? 0 then orbital_hash <$> getitem os (cur - 1) else Some "")
    = Some previous ->
  ledger_inv (<[Z.to_nat cur := seal_orbit o previous]> os) cur.
Proof.
  intros (Hcur & Hpos & Hsealed & Hfirst & Hchain & Hmerkle) Ho Hprevious.
  pose proof (lookup_lt_Some _ _ _ Ho) as Hlt.
  unfold ledger_inv, ledger_base, len. rewrite length_insert. fold (len os).
  split.
  - split; [exact Hcur|]. split; [exact Hpos|]. repeat split.
    + intros i x Hi Hx. rewrite list_lookup_insert_ne in Hx by lia. eauto.
    + intros x Hx. destruct (decide (Z.to_nat cur = 0%nat)) as [E|E].
      * rewrite E in *. rewrite list_lookup_insert_eq in Hx by lia.
        injection Hx as <-.
        destruct (Z.gtb_spec cur 0); [lia|]. now injection Hprevious as <-.
      * rewrite list_lookup_insert_ne in Hx by trivial. eauto.
    + intros i x x' Hx Hx' Hsx'.
      destruct (decide (Z.to_nat cur = S i)) as [E|E].
      * rewrite E in Hx'. rewrite list_lookup_insert_eq in Hx' by lia.
        injection Hx' as <-.
        rewrite list_lookup_insert_ne in Hx by lia.
        destruct (Z.gtb_spec cur 0); [|lia].
        rewrite getitem_nonneg in Hprevious by (unfold len; lia).
        replace (Z.to_nat (cur - 1)) with i in Hprevious by lia.
        rewrite Hx in Hprevious. now injection Hprevious as <-.
      * rewrite list_lookup_insert_ne in Hx' by trivial.
        destruct (decide (Z.to_nat cur = i)) as [E'|E'].
        -- apply lookup_lt_Some in Hx'. unfold len in Hcur. lia.
        -- rewrite list_lookup_insert_ne in Hx by trivial. eauto.
    + intros i x Hx. destruct (decide (Z.to_nat cur = i)) as [E|E].
      * rewrite E in Hx. rewrite list_lookup_insert_eq in Hx by lia.
        injection Hx as <-. apply (Hmerkle _ _ Ho).
      * rewrite list_lookup_insert_ne in Hx by trivial. eauto.
  - intros x Hx _. rewrite list_lookup_insert_eq in Hx by lia.
    now injection Hx as <-.
Qed.

(** [seal_current_orbit] returns and establishes the invariant. *)
Lemma seal_current_orbit_inv {host : Host} (n : Network) :
  ledger_base (orbits n) (current_orbit_index n) ->
  exists n', seal_current_orbit n = Returns tt n' /\
             pending_transactions n' = pending_transactions n /\
             validators n' = validators n /\
             consensus_threshold n' = consensus_threshold n /\
             ledger_inv (orbits n') (current_orbit_index n').
Proof.
  intros Hbase.
  destruct (ledger_base_current _ _ Hbase) as (Hidx & Hlen & o & Ho).
  unfold seal_current_orbit. rewrite Hidx, Ho.
  destruct (if current_orbit_index n >? 0
            then orbital_hash <$> getitem (orbits n) (current_orbit_index n - 1)
            else Some "") as [previous|] eqn:Hprevious.
  - eexists. split; [reflexivity|]. split_and!; try reflexivity.
    simpl. now apply ledger_inv_seal.
  - exfalso. destruct Hbase as (Hcur & Hpos & _).
    destruct (Z.gtb_spec (current_orbit_index n) 0); [|discriminate].
    rewrite getitem_nonneg in Hprevious by (unfold len; lia).
    destruct (lookup_lt_is_Some_2 (orbits n)
                (Z.to_nat (current_orbit_index n - 1))) as [p Hp]; [lia|].
    rewrite Hp in Hprevious. discriminate.
Qed.

Lemma consensus_net {host : Host} (tx : Transaction) (w : World) :
  net (state_of (validate_transaction_consensus tx w)) = net w.
Proof.
  unfold validate_transaction_consensus.
  destruct (validators (net w)); [reflexivity|].
  destruct (count_approvals _ _ _ _) as [h approvals]. simpl.
  destruct (active_count h _ =? 0); reflexivity.
Qed.

Lemma create_new_orbit_inv {host : Host} (now : datetime) (n : Network) (o : Orbit) :
  ledger_inv (orbits n) (current_orbit_index n) ->
  orbits n !! Z.to_nat (current_orbit_index n) = Some o ->
  is_full o || is_sealed o = true ->
  ledger_inv (orbits (create_new_orbit now n))
             (current_orbit_index (create_new_orbit now n)).
Proof.
  intros [Hbase Hfull] Ho Hclosed.
  assert (Hs : is_sealed o = true).
  { destruct (is_full o) eqn:E; [eauto | exact Hclosed]. }
  destruct (ledger_base_current _ _ Hbase) as (_ & Hlen & _).
  destruct Hbase as (Hcur & Hpos & Hsealed & Hfirst & Hchain & Hmerkle).
  unfold create_new_orbit. simpl.
  set (fresh := Orbit_init (current_orbit_index n + 1) default_max_transactions now).
  assert (Hlast : forall x, (orbits n ++ [fresh]) !! S (Z.to_nat (current_orbit_index n))
                            = Some x -> x = fresh).
  { intros x. rewrite <- Hlen, lookup_app_r, Nat.sub_diag by lia. now intros [= <-]. }
  split; [split_and!|].
  - unfold len in *. rewrite length_app. simpl. lia.
  - lia.
  - intros i x Hi Hx.
    destruct (decide (i = Z.to_nat (current_orbit_index n))) as [->|E].
    + rewrite lookup_app_l in Hx by lia. congruence.
    + rewrite lookup_app_l in Hx by lia. apply (Hsealed i); [lia|trivial].
  - intros x Hx. rewrite lookup_app_l in Hx by lia. eauto.
  - intros i x x' Hx Hx' Hsx'.
    destruct (decide (i = Z.to_nat (current_orbit_index n))) as [->|E].
    + apply Hlast in Hx' as ->. discriminate.
    + pose proof (lookup_lt_Some _ _ _ Hx') as Hlt.
      rewrite length_app in Hlt. simpl in Hlt.
      rewrite lookup_app_l in Hx, Hx' by lia. eauto.
  - intros i x Hx.
    destruct (decide (i = S (Z.to_nat (current_orbit_index n)))) as [->|E].
    + apply Hlast in Hx as ->. reflexivity.
    + pose proof (lookup_lt_Some _ _ _ Hx) as Hlt.
      rewrite length_app in Hlt. simpl in Hlt.
      rewrite lookup_app_l in Hx by lia. eauto.
  - intros x Hx.
    replace (Z.to_nat (current_orbit_index n + 1))
      with (S (Z.to_nat (current_orbit_index n))) in Hx by lia.
    apply Hlast in Hx as ->. discriminate.
Qed.

(** The loop of [process_pending_transactions] keeps the invariant, however
    it ends. *)
Lemma process_loop_inv {host : Host} (txs processed : list Transaction) (w : World) :
  world_inv w ->
  world_inv (state_of (process_loop (Z.to_nat (current_orbit_index (net w)))
                         txs processed w)).
Proof.
  revert processed w. induction txs as [|tx txs IH]; intros processed w Hinv.
  - exact Hinv.
  - simpl.
    pose proof (consensus_net tx w) as Hnet.
    destruct (validate_transaction_consensus tx w) as [[|] w1|e w1];
      simpl in Hnet.
    + (* approved *)
      assert (Hinv1 : world_inv w1) by (unfold world_inv; now rewrite Hnet).
      rewrite <- Hnet. destruct Hinv1 as [Hbase Hfull].
      destruct (ledger_base_current _ _ Hbase) as (_ & _ & o & Ho).
      rewrite Ho.
      destruct (add_transaction o tx) as [o' added] eqn:Hadd.
      pose proof (ledger_base_add _ _ _ _ _ _ Hbase Ho Hadd) as Hbase'.
      destruct added.
      * destruct (is_full o') eqn:Hfull'.
        -- unfold on_net. simpl.
           match goal with |- context [seal_current_orbit ?n2] =>
             destruct (seal_current_orbit_inv n2 Hbase') as (n3 & -> & _ & _ & _ & H3)
           end.
           exact H3.
        -- match goal with |- context [process_loop _ txs _ ?w2] =>
             apply (IH _ w2)
           end.
           split; [exact Hbase'|]. simpl. intros x Hx.
           rewrite list_lookup_insert_eq in Hx
             by (apply (lookup_lt_Some _ _ _ Ho)).
           injection Hx as <-. congruence.
      * apply IH. now split.
    + (* rejected *)
      rewrite <- Hnet. apply IH. unfold world_inv. now rewrite Hnet.
    + unfold world_inv. simpl. now rewrite Hnet.
Qed.

Lemma remove_processed_net {host : Host} (processed : list Transaction) (w : World) :
  orbits (net (state_of (remove_processed processed w))) = orbits (net w) /\
  current_orbit_index (net (state_of (remove_processed processed w)))
    = current_orbit_index (net w).
Proof.
  revert w. induction processed as [|tx processed IH]; intros w; simpl.
  - split; reflexivity.
  - destruct (list_remove same_transaction tx (pending_transactions (net w)));
      [|split; reflexivity].
    destruct (IH (with_net w (set_pending (net w) l))) as [-> ->].
    split; reflexivity.
Qed.

(** [process_pending_transactions] keeps the invariant, whether it returns
    or raises. *)
Lemma process_pending_inv {host : Host} (now : datetime) (w : World) :
  world_inv w -> world_inv (state_of (process_pending_transactions now w)).
Proof.
  intros Hinv. unfold process_pending_transactions.
  destruct (pending_transactions (net w)) eqn:Hpending; [exact Hinv|].
  clear Hpending.
  pose proof Hinv as [Hbase Hfull].
  destruct (ledger_base_current _ _ Hbase) as (Hidx & _ & o & Ho).
  unfold getitem. rewrite Hidx. simpl. rewrite Ho.
  set (w1 := if is_full o || is_sealed o
             then with_net w (create_new_orbit now (net w)) else w).
  assert (Hinv1 : world_inv w1).
  { unfold w1. destruct (is_full o || is_sealed o) eqn:Hclosed; [|exact Hinv].
    unfold world_inv. simpl. now apply (create_new_orbit_inv now _ o). }
  destruct (ledger_base_current _ _ (proj1 Hinv1)) as (-> & _).
  pose proof (process_loop_inv (pending_transactions (net w1)) [] w1 Hinv1) as Hloop.
  destruct (process_loop _ _ _ w1) as [processed w2|e w2]; simpl in *.
  - unfold world_inv. destruct (remove_processed_net processed w2) as [-> ->].
    exact Hloop.
  - exact Hloop.
Qed.

Lemma initial_inv {host : Host} (w : World) : initial w -> world_inv w.
Proof.
  intros (name & started & g & Hnet). unfold world_inv. rewrite Hnet.
  unfold Network_init, create_genesis_orbit. simpl.
  split; [split_and!|].
  - reflexivity.
  - lia.
  - intros i o Hi. lia.
  - intros o [= <-]. reflexivity.
  - intros [|i] o o' Ho Ho'; discriminate.
  - intros [|i] o; [|discriminate]. intros [= <-]. reflexivity.
  - intros o [= <-] _. reflexivity.
Qed.

Lemma step_inv {host : Host} (w w' : World) : step w w' -> world_inv w -> world_inv w'.
Proof.
  intros Hstep Hinv. destruct Hstep.
  - exact Hinv.
  - exact Hinv.
  - now apply process_pending_inv.
  - unfold on_net.
    destruct (seal_current_orbit_inv (net w) (proj1 Hinv)) as (n' & -> & _ & _ & _ & H).
    exact H.
  - exact Hinv.
Qed.

Lemma reachable_inv {host : Host} (w : World) : reachable w -> world_inv w.
Proof.
  induction 1 as [w Hinit | w w' _ IH Hstep].
  - now apply initial_inv.
  - now apply (step_inv w w').
Qed.

Lemma demo_world_1_reachable : reachable demo_world_1.
Proof.
  unfold demo_world_1.
  eapply reachable_step; [|apply step_process].
  eapply reachable_step; [|apply step_submit].
  apply reachable_initial. now exists "OrbitChain-MainNet", (demo_date 0), demo_genesis.
Qed.

Lemma demo_world_2_reachable : reachable demo_world_2.
Proof.
  unfold demo_world_2.
  eapply reachable_step; [exact demo_world_1_reachable | apply step_seal].
Qed.

(** C4.  In every state the public operations reach, the first orbit has the
    empty string for previous hash, and a sealed orbit at an index from 1 on
    has for previous hash the orbital hash of the orbit before it. *)
Theorem chain_links {host : Host} (w : World) :
  reachable w ->
  (exists g, getitem (orbits (net w)) 0 = Some g /\ previous_hash g = "") /\
  (forall (i : Z) (o : Orbit),
     1 <= i -> getitem (orbits (net w)) i = Some o -> is_sealed o = true ->
     exists p, getitem (orbits (net w)) (i - 1) = Some p /\
               previous_hash o = orbital_hash p).
Proof.
  intros Hreach. apply reachable_inv in Hreach as [Hbase _].
  destruct (ledger_base_current _ _ Hbase) as (_ & Hlen & _).
  destruct Hbase as (Hcur & Hpos & _ & Hfirst & Hchain & _).
  split.
  - rewrite getitem_nonneg by (unfold len; lia).
    destruct (lookup_lt_is_Some_2 (orbits (net w)) 0) as [g Hg]; [lia|].
    exists g. split; [exact Hg | now apply Hfirst].
  - intros i o Hi Ho Hs.
    assert (Hlt : i < len (orbits (net w))).
    { unfold getitem, py_index in Ho. destruct (Z.leb_spec 0 i); [|lia].
      destruct (Z.ltb_spec i (len (orbits (net w)))); [trivial|discriminate]. }
    rewrite getitem_nonneg in Ho by lia.
    rewrite getitem_nonneg by lia.
    destruct (lookup_lt_is_Some_2 (orbits (net w)) (Z.to_nat (i - 1))) as [p Hp];
      [unfold len in Hlt; lia|].
    exists p. split; [exact Hp|].
    apply (Hchain (Z.to_nat (i - 1)) p o); trivial.
    now replace (S (Z.to_nat (i - 1))) with (Z.to_nat i) by lia.
Qed.

Lemma chain_links_witness :
  reachable demo_world_2 /\
  exists g o, orbits (net demo_world_2) = [g; o] /\
              is_sealed o = true /\
              previous_hash g = "" /\
              previous_hash o = orbital_hash g.
Proof.
  split; [exact demo_world_2_reachable|].
  destruct (chain_links demo_world_2 demo_world_2_reachable)
    as ((g & Hg & Hfirst) & Hnext).
  vm_compute in Hg. injection Hg as <-.
  eexists _, _. split; [vm_compute; reflexivity|].
  split; [reflexivity|]. split; [reflexivity|].
  match goal with |- previous_hash ?o = _ =>
    destruct (Hnext 1 o) as (p & Hp & Hlink);
      [lia | vm_compute; reflexivity | reflexivity |]
  end.
  vm_compute in Hp. injection Hp as <-. exact Hlink.
Defined.

(** C10.  In every state the public operations reach, the current orbit is
    the last one, every orbit before it is sealed, so an orbit that is open
    is the current one, and every orbit that is full is sealed. *)
Theorem open_orbit_is_current {host : Host} (w : World) :
  reachable w ->
  current_orbit_index (net w) = len (orbits (net w)) - 1 /\
  (forall (i : Z) (o : Orbit),
     0 <= i < current_orbit_index (net w) ->
     getitem (orbits (net w)) i = Some o -> is_sealed o = true) /\
  (forall (i : Z) (o : Orbit),
     0 <= i -> getitem (orbits (net w)) i = Some o -> is_sealed o = false ->
     i = current_orbit_index (net w)) /\
  (forall (i : Z) (o : Orbit),
     0 <= i -> getitem (orbits (net w)) i = Some o -> is_full o = true ->
     is_sealed o = true).
Proof.
  intros Hreach. apply reachable_inv in Hreach as [Hbase Hfull].
  destruct Hbase as (Hcur & Hpos & Hsealed & _).
  assert (Hget : forall (i : Z) (o : Orbit),
             0 <= i -> getitem (orbits (net w)) i = Some o ->
             i <= current_orbit_index (net w) /\
             orbits (net w) !! Z.to_nat i = Some o).
  { intros i o Hi Ho. unfold getitem, py_index in Ho.
    destruct (Z.leb_spec 0 i); [|lia].
    destruct (Z.ltb_spec i (len (orbits (net w)))); [|discriminate].
    split; [lia | exact Ho]. }
  assert (Hbelow : forall (i : Z) (o : Orbit),
             0 <= i < current_orbit_index (net w) ->
             getitem (orbits (net w)) i = Some o -> is_sealed o = true).
  { intros i o Hi Ho. destruct (Hget i o) as [_ Hlook]; [lia|trivial|].
    apply (Hsealed (Z.to_nat i)); [lia|trivial]. }
  split_and!; trivial.
  - intros i o Hi Ho Hopen. destruct (Hget i o Hi Ho) as [Hle _].
    destruct (Z.eq_dec i (current_orbit_index (net w))) as [|Hne]; [trivial|].
    rewrite (Hbelow i o) in Hopen; [discriminate|lia|trivial].
  - intros i o Hi Ho Hfo. destruct (Hget i o Hi Ho) as [Hle Hlook].
    destruct (Z.eq_dec i (current_orbit_index (net w))) as [->|Hne].
    + now apply Hfull.
    + apply (Hbelow i o); [lia|trivial].
Qed.

Lemma open_orbit_is_current_witness :
  reachable demo_world_1 /\
  current_orbit_index (net demo_world_1) = 1 /\
  exists g o, orbits (net demo_world_1) = [g; o] /\
              is_sealed g = true /\ is_sealed o = false.
Proof.
  split; [exact demo_world_1_reachable|].
  destruct (open_orbit_is_current demo_world_1 demo_world_1_reachable)
    as (Hcur & Hbelow & _).
  split; [rewrite Hcur; vm_compute; reflexivity|].
  eexists _, _. split; [vm_compute; reflexivity|].
  split; [|reflexivity].
  apply (Hbelow 0); [split; [lia|rewrite Hcur; vm_compute; reflexivity]|].
  vm_compute. reflexivity.
Defined.

(** In every state the public operations reach, the merkle root of an orbit
    with transactions is the merkle function of their signatures, in order;
    an orbit without transactions has the empty string for merkle root. *)
Theorem merkle_root_consistent {host : Host} (w : World) (i : nat) (o : Orbit) :
  reachable w ->
  orbits (net w) !! i = Some o ->
  (transactions o <> [] ->
   merkle_root o = merkle_of (map signature (transactions o))) /\
  (transactions o = [] -> merkle_root o = "").
Proof.
  intros Hreach Ho. apply reachable_inv in Hreach as [Hbase _].
  destruct Hbase as (_ & _ & _ & _ & _ & Hmerkle).
  rewrite (Hmerkle i o Ho).
  destruct (transactions o); split; intros H; done.
Qed.

Lemma merkle_root_consistent_witness :
  reachable demo_world_1 /\
  exists o, orbits (net demo_world_1) !! 1%nat = Some o /\
            transactions o = [demo_tx 1] /\
            merkle_root o = signature (demo_tx 1).
Proof.
  split; [exact demo_world_1_reachable|].
  eexists. split; [vm_compute; reflexivity|]. split; [reflexivity|].
  match goal with |- merkle_root ?o = _ =>
    destruct (merkle_root_consistent demo_world_1 1%nat o demo_world_1_reachable)
      as [H _]; [vm_compute; reflexivity|]
  end.
  rewrite H; [|discriminate]. apply merkle_of_single.
Defined.

(** ** The consensus gate *)

(** With no validator registered the gate approves every transaction. *)
Theorem consensus_empty_registry {host : Host} (tx : Transaction) (w : World) :
  validators (net w) = [] ->
  validate_transaction_consensus tx w = Returns true w.
Proof. unfold validate_transaction_consensus. now intros ->. Qed.

Lemma consensus_empty_registry_witness :
  validators (net demo_world) = [] /\
  validate_transaction_consensus (demo_tx 1) demo_world = Returns true demo_world.
Proof.
  split; [reflexivity|].
  apply (consensus_empty_registry (demo_tx 1) demo_world). reflexivity.
Defined.

Lemma with_heap_same {host : Host} (w : World) : with_heap w (heap w) = w.
Proof. now destruct w. Qed.

Lemma count_approvals_inactive {host : Host} (vs : list loc) (tx : Transaction)
  (h : loc -> Validator) (approvals : Z) :
  Forall (fun v => is_active (h v) = false) vs ->
  count_approvals vs tx h approvals = (h, approvals).
Proof.
  induction 1 as [|v vs Hv _ IH]; simpl; [reflexivity|].
  now rewrite Hv.
Qed.

Lemma active_count_inactive {host : Host} (vs : list loc) (h : loc -> Validator) :
  Forall (fun v => is_active (h v) = false) vs -> active_count h vs = 0.
Proof.
  unfold active_count. induction 1 as [|v vs Hv _ IH]; [reflexivity|].
  rewrite filter_cons_False by congruence. exact IH.
Qed.

(** The gate divides by the number of active validators. *)
Lemma consensus_idle {host : Host} (tx : Transaction) (w : World) :
  validators (net w) <> [] ->
  Forall (fun v => is_active (heap w v) = false) (validators (net w)) ->
  validate_transaction_consensus tx w = Raises ZeroDivisionError w.
Proof.
  intros Hregistry Hinactive. unfold validate_transaction_consensus.
  destruct (validators (net w)) as [|v vs] eqn:Hvs; [done|].
  rewrite count_approvals_inactive by trivial.
  unfold with_heap at 1. simpl net. rewrite Hvs.
  rewrite active_count_inactive by trivial. simpl.
  now rewrite with_heap_same.
Qed.

(** The exception of the gate leaves [process_pending_transactions]. *)
Lemma process_pending_idle {host : Host} (now : datetime) (w : World) :
  reachable w ->
  pending_transactions (net w) <> [] ->
  validators (net w) <> [] ->
  Forall (fun v => is_active (heap w v) = false) (validators (net w)) ->
  exists w', process_pending_transactions now w = Raises ZeroDivisionError w' /\
             heap w' = heap w /\
             pending_transactions (net w') = pending_transactions (net w).
Proof.
  intros Hreach Hpending Hregistry Hinactive.
  apply reachable_inv in Hreach as Hinv.
  unfold process_pending_transactions.
  destruct (pending_transactions (net w)) as [|tx txs] eqn:Hp; [done|].
  destruct (ledger_base_current _ _ (proj1 Hinv)) as (Hidx & _ & o & Ho).
  unfold getitem. rewrite Hidx. simpl. rewrite Ho.
  set (w1 := if is_full o || is_sealed o
             then with_net w (create_new_orbit now (net w)) else w).
  assert (H1 : heap w1 = heap w /\ validators (net w1) = validators (net w) /\
               pending_transactions (net w1) = tx :: txs /\ world_inv w1).
  { unfold w1. destruct (is_full o || is_sealed o) eqn:Hclosed.
    - split_and!; try reflexivity; [exact Hp|].
      unfold world_inv. simpl. now apply (create_new_orbit_inv now _ o).
    - now split_and!. }
  destruct H1 as (Hheap & Hvs & Hp1 & Hinv1).
  destruct (ledger_base_current _ _ (proj1 Hinv1)) as (-> & _).
  rewrite Hp1. simpl.
  rewrite consensus_idle by (rewrite ?Hheap, Hvs; trivial).
  simpl. exists w1. now split_and!.
Qed.

(** C1.  With a registry that is not empty and in which no validator is
    active, [validate_transaction_consensus] does not return [False]: it
    divides by the number of active validators, which is zero, and raises
    [ZeroDivisionError], leaving every object as it was.  On a ledger the
    public operations reach, [process_pending_transactions] with a
    transaction pending does not complete either: the exception leaves it,
    and the queue stays as it was. *)
Theorem consensus_no_active_validator {host : Host} (tx : Transaction) (w : World) :
  validators (net w) <> [] ->
  Forall (fun v => is_active (heap w v) = false) (validators (net w)) ->
  validate_transaction_consensus tx w = Raises ZeroDivisionError w /\
  forall now : datetime,
    reachable w ->
    pending_transactions (net w) <> [] ->
    exists w', process_pending_transactions now w = Raises ZeroDivisionError w' /\
               heap w' = heap w /\
               pending_transactions (net w') = pending_transactions (net w).
Proof.
  intros Hregistry Hinactive. split.
  - now apply consensus_idle.
  - intros now Hreach Hpending. now apply process_pending_idle.
Qed.

Lemma demo_world_idle_reachable :
  reachable (submit_transaction (demo_tx 1) demo_world_idle).
Proof.
  eapply reachable_step; [|apply step_submit].
  unfold demo_world_idle.
  eapply reachable_step; [|apply step_validators].
  eapply reachable_step; [|apply step_add_validator].
  apply reachable_initial.
  now exists "OrbitChain-MainNet", (demo_date 0), demo_genesis.
Qed.

Lemma consensus_no_active_validator_witness :
  validators (net demo_world_idle) = [0%nat] /\
  is_active (heap demo_world_idle 0%nat) = false /\
  validate_transaction_consensus (demo_tx 1) demo_world_idle
    = Raises ZeroDivisionError demo_world_idle /\
  exists w',
    process_pending_transactions (demo_date 9)
      (submit_transaction (demo_tx 1) demo_world_idle)
      = Raises ZeroDivisionError w' /\
    pending_transactions (net w') = [demo_tx 1].
Proof.
  split; [reflexivity|]. split; [reflexivity|]. split.
  - apply (consensus_no_active_validator (demo_tx 1) demo_world_idle).
    + discriminate.
    + repeat constructor.
  - destruct (consensus_no_active_validator (demo_tx 1)
                (submit_transaction (demo_tx 1) demo_world_idle))
      as [_ H]; [discriminate | repeat constructor |].
    destruct (H (demo_date 9) demo_world_idle_reachable) as (w' & Hraise & _ & Hp);
      [discriminate|].
    exists w'. split; [exact Hraise | exact Hp].
Defined.

(** ** Submitting and processing, one transaction at a time *)

Lemma validate_transaction_well_formed {host : Host} (v : Validator) (tx : Transaction) :
  validate_transaction v tx
  = if well_formed tx then (set_validated_count v (validated_count v + 1), true)
    else (v, false).
Proof.
  unfold validate_transaction, well_formed.
  destruct (negb (truthy (signature tx)) || _); [reflexivity|].
  destruct (negb (truthy (sender tx)) || _); reflexivity.
Qed.

Lemma count_approvals_unanimous {host : Host} (vs : list loc) (tx : Transaction)
  (h : loc -> Validator) (approvals : Z) :
  well_formed tx = true ->
  Forall (fun v => is_active (h v) = true) vs ->
  exists h', count_approvals vs tx h approvals = (h', approvals + len vs) /\
             forall v, is_active (h' v) = is_active (h v).
Proof.
  intros Htx. revert h approvals.
  induction vs as [|v vs IH]; intros h approvals Hall.
  - exists h. split; [simpl; f_equal; unfold len; simpl; lia | reflexivity].
  - inversion Hall as [|? ? Hv Hvs]; subst. simpl. rewrite Hv.
    rewrite validate_transaction_well_formed, Htx.
    set (h1 := <[v := set_validated_count (h v) (validated_count (h v) + 1)]> h).
    assert (Hsame : forall u, is_active (h1 u) = is_active (h u)).
    { intros u. unfold h1. destruct (decide (u = v)) as [->|Hne].
      - now rewrite fn_lookup_insert.
      - now rewrite fn_lookup_insert_ne. }
    destruct (IH h1 (approvals + 1)) as (h' & Hcount & Hactive).
    { eapply Forall_impl; [|exact Hvs]. intros u Hu. simpl. now rewrite Hsame. }
    exists h'. split.
    + rewrite Hcount. f_equal. unfold len. simpl length. lia.
    + intros u. now rewrite Hactive, Hsame.
Qed.

Lemma active_count_all {host : Host} (vs : list loc) (h : loc -> Validator) :
  Forall (fun v => is_active (h v) = true) vs -> active_count h vs = len vs.
Proof.
  unfold active_count, len. induction 1 as [|v vs Hv _ IH]; [reflexivity|].
  rewrite filter_cons_True by trivial. simpl length. lia.
Qed.

(** With every validator active, a well-formed transaction passes the gate;
    the validators stay active. *)
Lemma consensus_unanimous {host : Host} (tx : Transaction) (w : World) :
  unanimous w -> well_formed tx = true ->
  exists h', validate_transaction_consensus tx w = Returns true (with_heap w h') /\
             unanimous (with_heap w h').
Proof.
  intros (Hregistry & Hall & Hrate) Htx. unfold validate_transaction_consensus.
  destruct (validators (net w)) as [|v vs] eqn:Hvs; [done|].
  destruct (count_approvals_unanimous (v :: vs) tx (heap w) 0 Htx Hall)
    as (h' & -> & Hactive).
  assert (Hall' : Forall (fun u => is_active (h' u) = true) (v :: vs)).
  { eapply Forall_impl; [|exact Hall]. intros u Hu. simpl. now rewrite Hactive. }
  exists h'. simpl net. rewrite Hvs.
  rewrite active_count_all by trivial.
  destruct (Z.eqb_spec (len (v :: vs)) 0) as [E|_]; [unfold len in E; simpl in E; lia|].
  rewrite Z.add_0_l, Hrate. split; [reflexivity|].
  unfold unanimous. simpl net. rewrite Hvs. now split_and!.
Qed.

Lemma same_transaction_refl {host : Host} (tx : Transaction) :
  same_transaction tx tx = true.
Proof. apply Nat.eqb_refl. Qed.

(** One round of the scenario: the transaction is admitted and the queue is
    empty again. *)
Lemma submit_process_round {host : Host} (now : datetime) (tx : Transaction) (w : World) :
  world_inv w ->
  pending_transactions (net w) = [] ->
  unanimous w ->
  well_formed tx = true ->
  exists h',
    process_pending_transactions now (submit_transaction tx w)
      = Returns tt {| heap := h'; net := one_round (net w) (now, tx) |} /\
    world_inv {| heap := h'; net := one_round (net w) (now, tx) |} /\
    pending_transactions (one_round (net w) (now, tx)) = [] /\
    unanimous {| heap := h'; net := one_round (net w) (now, tx) |}.
Proof.
  intros Hinv Hpending Hunanimous Htx.
  unfold process_pending_transactions, submit_transaction, one_round.
  rewrite Hpending. simpl app. simpl net.
  set (n0 := set_pending (net w) [tx]).
  change (pending_transactions n0) with [tx].
  change (orbits n0) with (orbits (net w)).
  change (current_orbit_index n0) with (current_orbit_index (net w)).
  pose proof Hinv as [Hbase Hfull].
  destruct (ledger_base_current _ _ Hbase) as (Hidx & _ & o & Ho).
  unfold getitem. rewrite Hidx. simpl mbind. rewrite Ho.
  set (n1 := if is_full o || is_sealed o then create_new_orbit now n0 else n0).
  assert (Hn1 : (if is_full o || is_sealed o
                 then with_net (with_net w n0) (create_new_orbit now n0)
                 else with_net w n0) = with_net w n1).
  { unfold n1. now destruct (is_full o || is_sealed o). }
  rewrite Hn1. clear Hn1. simpl net.
  assert (H1 : ledger_inv (orbits n1) (current_orbit_index n1) /\
               pending_transactions n1 = [tx] /\
               validators n1 = validators (net w) /\
               consensus_threshold n1 = consensus_threshold (net w) /\
               forall x, orbits n1 !! Z.to_nat (current_orbit_index n1) = Some x ->
                         is_sealed x = false /\ is_full x = false).
  { unfold n1. destruct (is_full o || is_sealed o) eqn:Hclosed.
    - split_and!; try reflexivity.
      + now apply (create_new_orbit_inv now n0 o).
      + intros x Hx. simpl in Hx.
        destruct (ledger_base_current _ _ Hbase) as (_ & Hlen & _).
        replace (Z.to_nat (current_orbit_index (net w) + 1))
          with (length (orbits (net w))) in Hx
          by (destruct Hbase as (_ & ? & _); lia).
        rewrite lookup_app_r, Nat.sub_diag in Hx by lia.
        injection Hx as <-. split; reflexivity.
    - split_and!; try reflexivity; [exact Hinv|].
      intros x Hx. change (orbits (net w) !! Z.to_nat (current_orbit_index (net w))
                           = Some x) in Hx.
      rewrite Ho in Hx. injection Hx as <-.
      apply orb_false_elim in Hclosed as [? ?]. now split. }
  destruct H1 as (Hinv1 & Hp1 & Hvs1 & Hth1 & Hopen1).
  destruct (ledger_base_current _ _ (proj1 Hinv1)) as (-> & _ & o1 & Ho1).
  destruct (Hopen1 o1 Ho1) as [Hsealed1 Hfull1].
  rewrite Ho1, Hp1. simpl process_loop.
  assert (Hun1 : unanimous (with_net w n1)).
  { destruct Hunanimous as (? & ? & ?). unfold unanimous. simpl.
    rewrite Hvs1, Hth1. now split_and!. }
  destruct (consensus_unanimous tx (with_net w n1) Hun1 Htx) as (h' & -> & Hun').
  exists h'. simpl net. rewrite Ho1.
  rewrite (add_transaction_open o1 tx Hsealed1 Hfull1). simpl fst.
  set (o2 := update_merkle_root (set_transactions o1 (transactions o1 ++ [tx]))).
  set (n2 := set_stats _ _).
  assert (Hbase2 : ledger_base (orbits n2) (current_orbit_index n2)).
  { apply (ledger_base_add _ _ o1 o2 tx true (proj1 Hinv1) Ho1).
    now apply add_transaction_open. }
  assert (Hp2 : pending_transactions n2 = [tx]) by exact Hp1.
  destruct (is_full o2) eqn:Hfull2.
  - unfold on_net. simpl net.
    destruct (seal_current_orbit_inv n2 Hbase2) as (n3 & -> & Hp3 & Hvs3 & Hth3 & Hinv3).
    unfold bind, remove_processed. simpl net. rewrite Hp3, Hp2.
    cbn [list_remove]. rewrite same_transaction_refl. simpl.
    split; [reflexivity|]. split; [exact Hinv3|]. split; [reflexivity|].
    destruct Hun' as (? & ? & ?). unfold unanimous. simpl in *.
    rewrite Hvs3, Hth3. now split_and!.
  - unfold process_loop, bind, remove_processed. simpl net. rewrite Hp2.
    cbn [list_remove]. rewrite same_transaction_refl. simpl.
    split; [reflexivity|]. split.
    { split; [exact Hbase2|]. intros x Hx. simpl in Hx.
      rewrite list_lookup_insert_eq in Hx by (apply (lookup_lt_Some _ _ _ Ho1)).
      injection Hx as <-. congruence. }
    split; [reflexivity|].
    destruct Hun' as (? & ? & ?). unfold unanimous. simpl in *. now split_and!.
Qed.

Lemma submit_and_process_rounds {host : Host} (steps : list (datetime * Transaction))
  (w : World) :
  world_inv w ->
  pending_transactions (net w) = [] ->
  unanimous w ->
  Forall (fun s => well_formed (snd s) = true) steps ->
  exists h',
    submit_and_process steps w
      = Returns tt {| heap := h'; net := fold_left one_round steps (net w) |}.
Proof.
  revert w. induction steps as [|[now tx] steps IH]; intros w Hinv Hp Hun Hall.
  - exists (heap w). simpl. now destruct w.
  - inversion Hall as [|? ? Htx Hrest]; subst. simpl in Htx.
    destruct (submit_process_round now tx w Hinv Hp Hun Htx)
      as (h1 & Hrun & Hinv1 & Hp1 & Hun1).
    destruct (IH _ Hinv1 Hp1 Hun1 Hrest) as (h' & Hrest').
    exists h'. simpl submit_and_process. rewrite Hrun. exact Hrest'.
Qed.

Lemma add_validator_active {host : Host} (v : loc) (w : World) (u : loc) :
  is_active (heap (add_validator v w) u) = is_active (heap w u).
Proof.
  unfold add_validator. simpl. destruct (decide (u = v)) as [->|Hne].
  - now rewrite fn_lookup_insert.
  - now rewrite fn_lookup_insert_ne.
Qed.

(** C8.  On a fresh ledger (capacity 8, threshold 0.67) with four registered
    validators, all active, submitting ten well-formed transactions and
    processing after each one returns every time and leaves three orbits:
    the genesis orbit, orbit 1 sealed with the first eight transactions,
    orbit 2 open with the last two, and nothing pending. *)
Theorem ten_transactions_two_orbits {host : Host} (w : World) (v1 v2 v3 v4 : loc)
  (steps : list (datetime * Transaction)) :
  initial w ->
  Forall (fun v => is_active (heap w v) = true) [v1; v2; v3; v4] ->
  length steps = 10%nat ->
  Forall (fun s => well_formed (snd s) = true) steps ->
  exists (w' : World) (genesis orbit1 orbit2 : Orbit),
    submit_and_process steps
      (add_validator v4 (add_validator v3 (add_validator v2 (add_validator v1 w))))
      = Returns tt w' /\
    orbits (net w') = [genesis; orbit1; orbit2] /\
    orbit_number orbit1 = 1 /\
    is_sealed orbit1 = true /\
    transactions orbit1 = map snd (take 8 steps) /\
    orbit_number orbit2 = 2 /\
    is_sealed orbit2 = false /\
    transactions orbit2 = map snd (drop 8 steps) /\
    pending_transactions (net w') = [] /\
    current_orbit_index (net w') = 2.
Proof.
  intros Hinit Hactive Hlen Hall.
  set (w4 := add_validator v4 _).
  assert (Hinv : world_inv w4).
  { apply reachable_inv. unfold w4.
    do 4 (eapply reachable_step; [|apply step_add_validator]).
    now apply reachable_initial. }
  destruct Hinit as (name & started & g & Hnet).
  assert (Hp : pending_transactions (net w4) = []).
  { unfold w4. simpl. now rewrite Hnet. }
  assert (Hun : unanimous w4).
  { assert (Hvs : validators (net w4) = [v1; v2; v3; v4])
      by (unfold w4; simpl; now rewrite Hnet).
    assert (Hth : consensus_threshold (net w4) = default_consensus_threshold)
      by (unfold w4; simpl; now rewrite Hnet).
    unfold unanimous. rewrite Hvs, Hth. split_and!.
    - discriminate.
    - eapply Forall_impl; [|exact Hactive]. intros u Hu. cbv beta.
      unfold w4. now rewrite !add_validator_active.
    - vm_compute. reflexivity. }
  destruct (submit_and_process_rounds steps w4 Hinv Hp Hun Hall) as (h' & Hrun).
  assert (Hn4 : net w4
                = set_validators
                    (set_validators
                       (set_validators
                          (set_validators (Network_init name started g) [v1])
                          [v1; v2]) [v1; v2; v3]) [v1; v2; v3; v4]).
  { unfold w4, add_validator. cbn [net]. now rewrite Hnet. }
  rewrite Hn4 in Hrun. clear Hinv Hp Hun Hn4 Hall Hactive Hnet.
  do 11 (destruct steps as [|[? ?] steps]; try discriminate).
  set (n := fold_left one_round _ _) in Hrun.
  assert (Hshape :
            length (orbits n) = 3%nat /\
            orbit_number <$> orbits n !! 1%nat = Some 1 /\
            is_sealed <$> orbits n !! 1%nat = Some true /\
            transactions <$> orbits n !! 1%nat = Some [t; t0; t1; t2; t3; t4; t5; t6] /\
            orbit_number <$> orbits n !! 2%nat = Some 2 /\
            is_sealed <$> orbits n !! 2%nat = Some false /\
            transactions <$> orbits n !! 2%nat = Some [t7; t8] /\
            pending_transactions n = [] /\
            current_orbit_index n = 2).
  { unfold n.
    lazy -[merkle_of sha256_prefix json_dumps_sorted datetime_isoformat].
    repeat split. }
  clearbody n.
  destruct Hshape as (Hcount & Hn1 & Hs1 & Ht1 & Hn2 & Hs2 & Ht2 & Hpending & Hcur).
  destruct (orbits n) as [|genesis [|orbit1 [|orbit2 [|]]]] eqn:Horbits;
    try discriminate.
  simpl in Hn1, Hs1, Ht1, Hn2, Hs2, Ht2.
  exists {| heap := h'; net := n |}, genesis, orbit1, orbit2.
  split; [exact Hrun|]. simpl.
  split; [exact Horbits|].
  split_and!; congruence.
Qed.

Lemma ten_transactions_two_orbits_witness :
  exists (w' : World) (genesis orbit1 orbit2 : Orbit),
    submit_and_process demo_steps
      (add_validator 3%nat (add_validator 2%nat
         (add_validator 1%nat (add_validator 0%nat demo_world))))
      = Returns tt w' /\
    orbits (net w') = [genesis; orbit1; orbit2] /\
    orbit_number orbit1 = 1 /\
    is_sealed orbit1 = true /\
    transactions orbit1 = map snd (take 8 demo_steps) /\
    orbit_number orbit2 = 2 /\
    is_sealed orbit2 = false /\
    transactions orbit2 = map snd (drop 8 demo_steps) /\
    pending_transactions (net w') = [] /\
    current_orbit_index (net w') = 2.
Proof.
  apply (ten_transactions_two_orbits demo_world 0%nat 1%nat 2%nat 3%nat demo_steps).
  - now exists "OrbitChain-MainNet", (demo_date 0), demo_genesis.
  - repeat constructor.
  - reflexivity.
  - repeat constructor.
Defined.


(** ** A transaction the validators reject *)

(** On a fresh ledger with one validator, which is active, a transaction
    without sender is submitted and the queue processed: the call returns,
    the transaction is still pending, nothing was admitted, and the orbit
    opened for it is left without transactions, its merkle root the empty
    string. *)
Example empty_sender_stays_pending :
  exists (w' : World) (genesis orbit1 : Orbit),
    process_pending_transactions (demo_date 30)
      (submit_transaction demo_tx_no_sender (add_validator 0%nat demo_world))
      = Returns tt w' /\
    pending_transactions (net w') = [demo_tx_no_sender] /\
    total_transactions (network_stats (net w')) = 1 /\
    orbits (net w') = [genesis; orbit1] /\
    is_sealed orbit1 = false /\
    transactions orbit1 = [] /\
    merkle_root orbit1 = "".
Proof.
  eexists _, _, _. split; [vm_compute; reflexivity|].
  split_and!; reflexivity.
Qed.

(** ** Sectors *)

Section sectors.
Import stdpp.gmap.
Local Open Scope Z_scope.
Context {host : Host}.

Lemma fill_sectors_positive (n i : Z) (txs : list Transaction)
  (m : gmap Z (list Transaction)) :
  0 < n ->
  (forall s, 0 <= s < n -> is_Some (m !! s)) ->
  exists m', fill_sectors n i txs m = inr m' /\
             forall s, m' !! s = (fun l => l ++ sector_picks n s i txs) <$> m !! s.
Proof.
  intros Hn. revert i m. induction txs as [|tx txs IH]; intros i m Hdom.
  - exists m. split; [reflexivity|]. intros s. simpl.
    destruct (m !! s); simpl; [now rewrite app_nil_r | reflexivity].
  - simpl. destruct (Z.eqb_spec n 0) as [|_]; [lia|].
    destruct (Hdom (i mod n)) as [l Hl]; [now apply Z.mod_pos_bound|].
    rewrite Hl.
    destruct (IH (i + 1) (<[i mod n := l ++ [tx]]> m)) as (m' & -> & Hm').
    { intros s Hs. destruct (decide (s = i mod n)) as [->|Hne].
      - rewrite lookup_insert_eq. eauto.
      - rewrite lookup_insert_ne by congruence. now apply Hdom. }
    exists m'. split; [reflexivity|]. intros s. rewrite Hm'.
    destruct (Z.eqb_spec (i mod n) s) as [<-|Hne].
    + rewrite lookup_insert_eq, Hl. simpl. now rewrite <- app_assoc.
    + now rewrite lookup_insert_ne by congruence.
Qed.

Lemma empty_sectors_lookup (n s : Z) :
  empty_sectors n !! s = if decide (0 <= s < n) then Some [] else None.
Proof.
  unfold empty_sectors. destruct (decide (0 <= s < n)) as [Hs|Hs].
  - apply elem_of_list_to_map_1.
    + rewrite <- list_fmap_compose. simpl. rewrite list_fmap_id. apply NoDup_seqZ.
    + apply list_elem_of_fmap. exists s. split; [reflexivity|].
      apply elem_of_seqZ. lia.
  - apply not_elem_of_list_to_map_1. rewrite <- list_fmap_compose. simpl.
    rewrite list_fmap_id, elem_of_seqZ. lia.
Qed.

Lemma sector_picks_lookup (n s i : Z) (txs : list Transaction) (q : nat) :
  0 < n -> 0 <= s < n ->
  sector_picks n s i txs !! q
  = txs !! Z.to_nat ((s - i) mod n + Z.of_nat q * n).
Proof.
  intros Hn Hs. revert i q. induction txs as [|tx txs IH]; intros i q.
  - simpl. now rewrite !lookup_nil.
  - simpl.
    pose proof (Z.mod_pos_bound (s - i) n Hn) as Hd.
    pose proof (Z.mod_pos_bound (s - (i + 1)) n Hn) as Hd1.
    pose proof (Z.mod_pos_bound i n Hn) as Hi.
    assert (Hstep : if decide ((s - i) mod n = 0)
                    then (s - (i + 1)) mod n = n - 1
                    else (s - (i + 1)) mod n = (s - i) mod n - 1).
    { destruct (decide ((s - i) mod n = 0)) as [E|E].
      - symmetry. apply (Z.mod_unique _ _ ((s - i) / n - 1)); [lia|].
        pose proof (Z.div_mod (s - i) n). lia.
      - symmetry. apply (Z.mod_unique _ _ ((s - i) / n)); [lia|].
        pose proof (Z.div_mod (s - i) n). lia. }
    assert (Hiff : i mod n = s <-> (s - i) mod n = 0).
    { split; intros E.
      - symmetry. apply (Z.mod_unique _ _ (- (i / n))); [lia|].
        pose proof (Z.div_mod i n). lia.
      - symmetry. apply (Z.mod_unique _ _ (- ((s - i) / n))); [lia|].
        pose proof (Z.div_mod (s - i) n). lia. }
    destruct (Z.eqb_spec (i mod n) s) as [E|E].
    + apply Hiff in E. destruct (decide ((s - i) mod n = 0)); [|done].
      rewrite E. destruct q as [|q]; [reflexivity|].
      simpl lookup at 1. rewrite IH, Hstep.
      replace (Z.to_nat (0 + Z.of_nat (S q) * n))
        with (S (Z.to_nat (n - 1 + Z.of_nat q * n))) by lia.
      reflexivity.
    + destruct (decide ((s - i) mod n = 0)) as [E0|E0]; [now apply Hiff in E0|].
      rewrite IH, Hstep.
      replace (Z.to_nat ((s - i) mod n + Z.of_nat q * n))
        with (S (Z.to_nat ((s - i) mod n - 1 + Z.of_nat q * n))) by lia.
      reflexivity.
Qed.

(** For a positive number of validators [get_sectors] returns a dictionary
    whose keys are [0 .. num_validators - 1]; position [q] of sector [s]
    holds the transaction at index [q * num_validators + s] of the orbit, so
    the transaction at index [i] is found at position [i / num_validators]
    of sector [i % num_validators], and nowhere else. *)
Theorem get_sectors_round_robin (o : Orbit) (n : Z) :
  0 < n ->
  exists m : gmap Z (list Transaction),
    get_sectors o n = inr m /\
    (forall s, is_Some (m !! s) <-> 0 <= s < n) /\
    (forall s l (q : nat), m !! s = Some l ->
       l !! q = transactions o !! Z.to_nat (Z.of_nat q * n + s)) /\
    (forall (i : nat) tx, transactions o !! i = Some tx ->
       exists l, m !! (Z.of_nat i mod n) = Some l /\
                 l !! Z.to_nat (Z.of_nat i / n) = Some tx).
Proof.
  intros Hn. unfold get_sectors.
  destruct (fill_sectors_positive n 0 (transactions o) (empty_sectors n) Hn)
    as (m & Hm & Hlook).
  { intros s Hs. rewrite empty_sectors_lookup.
    destruct (decide (0 <= s < n)); [eauto | lia]. }
  assert (Hsector : forall s, m !! s
            = if decide (0 <= s < n)
              then Some (sector_picks n s 0 (transactions o)) else None).
  { intros s. rewrite Hlook, empty_sectors_lookup.
    now destruct (decide (0 <= s < n)). }
  assert (Hpos : forall s l (q : nat), m !! s = Some l ->
            l !! q = transactions o !! Z.to_nat (Z.of_nat q * n + s)).
  { intros s l q. rewrite Hsector.
    destruct (decide (0 <= s < n)) as [Hs|]; [|discriminate].
    intros [= <-]. rewrite sector_picks_lookup by trivial.
    rewrite Z.sub_0_r, Z.mod_small by trivial. f_equal. lia. }
  exists m. split_and!; trivial.
  - intros s. rewrite Hsector.
    destruct (decide (0 <= s < n)); split; intros H; try done; try lia.
  - intros i tx Hi.
    pose proof (Z.mod_pos_bound (Z.of_nat i) n Hn) as Hs.
    pose proof (Z.div_mod (Z.of_nat i) n) as Hdiv.
    assert (0 <= Z.of_nat i / n) by (apply Z.div_pos; lia).
    eexists. split.
    + rewrite Hsector. now destruct (decide (0 <= Z.of_nat i mod n < n)); [|lia].
    + rewrite sector_picks_lookup by trivial.
      rewrite Z.sub_0_r, Z.mod_mod by lia. rewrite <- Hi. f_equal. nia.
Qed.

(** For a number of validators that is not positive the dictionary has no
    key: an orbit without transactions gets the empty dictionary, and with
    transactions the first turn of the loop raises, [ZeroDivisionError] for
    zero and [KeyError: 0] below zero. *)
Theorem get_sectors_nonpositive (o : Orbit) (n : Z) :
  n <= 0 ->
  (transactions o = [] -> get_sectors o n = inr ∅) /\
  (transactions o <> [] ->
   get_sectors o n
   = inl (if n =? 0 then SectorsZeroDivisionError else SectorsKeyError 0)).
Proof.
  intros Hn.
  assert (Hempty : empty_sectors n = ∅).
  { unfold empty_sectors, seqZ. replace (Z.to_nat n) with 0%nat by lia.
    reflexivity. }
  unfold get_sectors. rewrite Hempty. split.
  - intros ->. reflexivity.
  - destruct (transactions o) as [|tx txs]; [done|]. intros _. simpl.
    destruct (Z.eqb_spec n 0) as [|Hne]; [reflexivity|].
    rewrite Z.mod_0_l by trivial. now rewrite lookup_empty.
Qed.

End sectors.

Lemma get_sectors_round_robin_witness :
  0 < 3 /\
  exists m : gmap.gmap Z (list Transaction),
    get_sectors (set_transactions (Orbit_init 1 8 (demo_date 5)) demo_transactions) 3
      = inr m /\
    (exists l, m !! 1 = Some l /\ length l = 3%nat /\
                l !! 1%nat = demo_transactions !! 4%nat) /\
    m !! 3 = None.
Proof.
  split; [lia|].
  destruct (get_sectors_round_robin
              (set_transactions (Orbit_init 1 8 (demo_date 5)) demo_transactions) 3)
    as (m & Hm & Hkeys & _); [lia|].
  exists m. split; [exact Hm|].
  vm_compute in Hm. injection Hm as <-.
  split; [eexists; split; [reflexivity|split; reflexivity] | reflexivity].
Defined.

Lemma get_sectors_nonpositive_witness :
  get_sectors (set_transactions (Orbit_init 1 8 (demo_date 5)) [demo_tx 1]) 0
    = inl SectorsZeroDivisionError /\
  get_sectors (set_transactions (Orbit_init 1 8 (demo_date 5)) [demo_tx 1]) (-2)
    = inl (SectorsKeyError 0) /\
  get_sectors (Orbit_init 1 8 (demo_date 5)) (-2) = inr ∅.
Proof.
  split_and!.
  - apply (get_sectors_nonpositive
             (set_transactions (Orbit_init 1 8 (demo_date 5)) [demo_tx 1]) 0);
      [lia | discriminate].
  - apply (get_sectors_nonpositive
             (set_transactions (Orbit_init 1 8 (demo_date 5)) [demo_tx 1]) (-2));
      [lia | discriminate].
  - apply (get_sectors_nonpositive (Orbit_init 1 8 (demo_date 5)) (-2));
      [lia | reflexivity].
Defined.

(** ** Properties that every operation keeps *)

(** A property of the network is kept by every public operation as soon as
    the five ways in which the operations change a network keep it: the
    queue or the registry replaced, an orbit appended after a sealed one, a
    transaction added to the current orbit, and the current orbit sealed. *)
Section stable.
Context {host : Host}.
Variable P : Network -> Prop.

Hypothesis P_pending : forall n txs, P n -> P (set_pending n txs).
Hypothesis P_validators : forall n vs, P n -> P (set_validators n vs).
Hypothesis P_new : forall now n o,
  ledger_inv (orbits n) (current_orbit_index n) ->
  orbits n !! Z.to_nat (current_orbit_index n) = Some o ->
  is_sealed o = true ->
  P n -> P (create_new_orbit now n).
Hypothesis P_add : forall n o o' tx,
  ledger_inv (orbits n) (current_orbit_index n) ->
  orbits n !! Z.to_nat (current_orbit_index n) = Some o ->
  add_transaction o tx = (o', true) ->
  P n ->
  P (set_stats
       (set_orbits n (<[Z.to_nat (current_orbit_index n) := o']> (orbits n)))
       (set_total_transactions (network_stats n)
          (total_transactions (network_stats n) + 1))).
Hypothesis P_seal : forall n o previous,
  ledger_base (orbits n) (current_orbit_index n) ->
  orbits n !! Z.to_nat (current_orbit_index n) = Some o ->
  (if current_orbit_index n >? 0
   then orbital_hash <$> getitem (orbits n) (current_orbit_index n - 1)
   else Some "") = Some previous ->
  P n ->
  P (set_orbits n (<[Z.to_nat (current_orbit_index n) := seal_orbit o previous]>
                     (orbits n))).

Lemma stable_seal (n : Network) :
  ledger_base (orbits n) (current_orbit_index n) ->
  P n ->
  exists n', seal_current_orbit n = Returns tt n' /\
             ledger_inv (orbits n') (current_orbit_index n') /\ P n'.
Proof.
  intros Hbase HP.
  destruct (ledger_base_current _ _ Hbase) as (Hidx & _ & o & Ho).
  destruct (seal_current_orbit_inv n Hbase) as (n' & Hseal & _ & _ & _ & Hinv).
  exists n'. split; [exact Hseal|]. split; [exact Hinv|].
  unfold seal_current_orbit in Hseal. rewrite Hidx, Ho in Hseal.
  destruct (if current_orbit_index n >? 0 then _ else _) as [previous|] eqn:Hprev;
    [|discriminate].
  injection Hseal as <-. now apply P_seal.
Qed.

Lemma stable_process_loop (txs processed : list Transaction) (w : World) :
  world_inv w -> P (net w) ->
  P (net (state_of (process_loop (Z.to_nat (current_orbit_index (net w)))
                      txs processed w))).
Proof.
  revert processed w. induction txs as [|tx txs IH]; intros processed w Hinv HP.
  - exact HP.
  - simpl.
    pose proof (consensus_net tx w) as Hnet.
    destruct (validate_transaction_consensus tx w) as [[|] w1|e w1];
      simpl in Hnet.
    + assert (Hinv1 : world_inv w1) by (unfold world_inv; now rewrite Hnet).
      assert (HP1 : P (net w1)) by now rewrite Hnet.
      rewrite <- Hnet. pose proof Hinv1 as [Hbase Hfull].
      destruct (ledger_base_current _ _ Hbase) as (_ & _ & o & Ho).
      rewrite Ho.
      destruct (add_transaction o tx) as [o' added] eqn:Hadd.
      destruct added; [|now apply IH].
      pose proof (ledger_base_add _ _ _ _ _ _ Hbase Ho Hadd) as Hbase'.
      pose proof (P_add _ _ _ _ Hinv1 Ho Hadd HP1) as HP'.
      destruct (is_full o') eqn:Hfull'.
      * unfold on_net. simpl net.
        match goal with |- context [seal_current_orbit ?n2] =>
          destruct (stable_seal n2 Hbase' HP') as (n3 & -> & _ & H3)
        end.
        exact H3.
      * match goal with |- context [process_loop _ txs _ ?w2] =>
          apply (IH _ w2)
        end; [|exact HP'].
        split; [exact Hbase'|]. simpl. intros x Hx.
        rewrite list_lookup_insert_eq in Hx by (apply (lookup_lt_Some _ _ _ Ho)).
        injection Hx as <-. congruence.
    + rewrite <- Hnet. apply IH; [unfold world_inv|]; now rewrite Hnet.
    + simpl. now rewrite Hnet.
Qed.

Lemma stable_remove_processed (processed : list Transaction) (w : World) :
  P (net w) -> P (net (state_of (remove_processed processed w))).
Proof.
  revert w. induction processed as [|tx processed IH]; intros w HP; simpl.
  - exact HP.
  - destruct (list_remove same_transaction tx (pending_transactions (net w)));
      [|exact HP].
    apply IH. simpl. now apply P_pending.
Qed.

Lemma stable_process_pending (now : datetime) (w : World) :
  world_inv w -> P (net w) ->
  P (net (state_of (process_pending_transactions now w))).
Proof.
  intros Hinv HP. unfold process_pending_transactions.
  destruct (pending_transactions (net w)) eqn:Hpending; [exact HP|].
  clear Hpending.
  pose proof Hinv as [Hbase Hfull].
  destruct (ledger_base_current _ _ Hbase) as (Hidx & _ & o & Ho).
  unfold getitem. rewrite Hidx. simpl. rewrite Ho.
  set (w1 := if is_full o || is_sealed o
             then with_net w (create_new_orbit now (net w)) else w).
  assert (H1 : world_inv w1 /\ P (net w1)).
  { unfold w1. destruct (is_full o || is_sealed o) eqn:Hclosed; [|now split].
    assert (Hs : is_sealed o = true).
    { destruct (is_full o) eqn:E; [eauto | exact Hclosed]. }
    split.
    - unfold world_inv. simpl. apply (create_new_orbit_inv now _ o); trivial.
    - simpl. now apply (P_new now _ o). }
  destruct H1 as [Hinv1 HP1].
  destruct (ledger_base_current _ _ (proj1 Hinv1)) as (-> & _).
  pose proof (process_loop_inv (pending_transactions (net w1)) [] w1 Hinv1) as Hloop.
  pose proof (stable_process_loop (pending_transactions (net w1)) [] w1 Hinv1 HP1)
    as HPloop.
  destruct (process_loop _ _ _ w1) as [processed w2|e w2]; simpl in *.
  - now apply stable_remove_processed.
  - exact HPloop.
Qed.

Lemma stable_step (w w' : World) :
  world_inv w -> P (net w) -> step w w' -> P (net w').
Proof.
  intros Hinv HP Hstep. destruct Hstep.
  - simpl. now apply P_validators.
  - simpl. now apply P_pending.
  - now apply stable_process_pending.
  - unfold on_net.
    destruct (stable_seal (net w) (proj1 Hinv) HP) as (n' & -> & _ & H).
    exact H.
  - exact HP.
Qed.

Lemma stable_reachable (w : World) :
  (forall name started g, P (Network_init name started g)) ->
  reachable w -> P (net w).
Proof.
  intros Hinit. induction 1 as [w (name & started & g & ->) | w w' Hreach IH Hstep].
  - apply Hinit.
  - apply (stable_step w w'); trivial. now apply reachable_inv.
Qed.

End stable.

(** ** Numbers, capacities and counters *)

Lemma tx_count_app {host : Host} (os os' : list Orbit) :
  tx_count (os ++ os') = tx_count os + tx_count os'.
Proof. induction os as [|o os IH]; simpl; [reflexivity|]. rewrite IH. lia. Qed.

Lemma tx_count_insert {host : Host} (os : list Orbit) (k : nat) (o o' : Orbit) :
  os !! k = Some o ->
  tx_count (<[k := o']> os)
  = tx_count os - len (transactions o) + len (transactions o').
Proof.
  revert k. induction os as [|x os IH]; intros [|k] Hk; try discriminate.
  - injection Hk as ->. simpl. lia.
  - simpl in *. rewrite (IH k Hk). lia.
Qed.

Lemma ledger_wf_new {host : Host} (now : datetime) (n : Network) :
  ledger_base (orbits n) (current_orbit_index n) ->
  ledger_wf n -> ledger_wf (create_new_orbit now n).
Proof.
  intros Hbase (Horbits & Htxs & Hrate & Hthreshold & Hwf).
  destruct (ledger_base_current _ _ Hbase) as (_ & Hlen & _).
  destruct Hbase as (Hcur & Hpos & _).
  unfold ledger_wf, create_new_orbit. simpl. split_and!; trivial.
  - unfold len in *. rewrite length_app. simpl. lia.
  - rewrite tx_count_app. simpl. unfold len. simpl. unfold len in Htxs. lia.
  - intros i o Ho. destruct (decide (i = length (orbits n))) as [->|Hne].
    + rewrite lookup_app_r, Nat.sub_diag in Ho by lia. injection Ho as <-.
      unfold orbit_wf. simpl. rewrite Hlen. split_and!; try reflexivity; try lia.
      unfold len, default_max_transactions. simpl. lia.
    + pose proof (lookup_lt_Some _ _ _ Ho) as Hlt.
      rewrite length_app in Hlt. simpl in Hlt.
      rewrite lookup_app_l in Ho by lia. eauto.
Qed.

Lemma ledger_wf_add {host : Host} (n : Network) (k : nat) (o o' : Orbit)
  (tx : Transaction) :
  orbits n !! k = Some o ->
  add_transaction o tx = (o', true) ->
  ledger_wf n ->
  ledger_wf
    (set_stats (set_orbits n (<[k := o']> (orbits n)))
       (set_total_transactions (network_stats n)
          (total_transactions (network_stats n) + 1))).
Proof.
  intros Ho Hadd (Horbits & Htxs & Hrate & Hthreshold & Hwf).
  pose proof (lookup_lt_Some _ _ _ Ho) as Hlt.
  destruct (Hwf k o Ho) as (Hnumber & Hmax & Hbound & Hconfirmed & Hhashes).
  unfold add_transaction in Hadd.
  destruct (is_sealed o) eqn:Hsealed; [discriminate|].
  destruct (Z.geb_spec (len (transactions o)) (max_transactions o)) as [|Hroom];
    [discriminate|].
  injection Hadd as <-.
  unfold ledger_wf. simpl. split_and!; trivial.
  - unfold len. now rewrite length_insert.
  - rewrite (tx_count_insert _ _ o) by trivial. simpl.
    unfold len. rewrite length_app. simpl. unfold len in Htxs. lia.
  - intros i x Hx. destruct (decide (k = i)) as [<-|Hne].
    + rewrite list_lookup_insert_eq in Hx by trivial. injection Hx as <-.
      unfold orbit_wf. simpl. rewrite Hsealed.
      split_and!; trivial; try apply Hhashes.
      unfold len in *. rewrite length_app. simpl. lia.
    + rewrite list_lookup_insert_ne in Hx by trivial. eauto.
Qed.

Lemma ledger_wf_seal {host : Host} (n : Network) (k : nat) (o : Orbit)
  (previous : string) :
  orbits n !! k = Some o ->
  ledger_wf n ->
  ledger_wf (set_orbits n (<[k := seal_orbit o previous]> (orbits n))).
Proof.
  intros Ho (Horbits & Htxs & Hrate & Hthreshold & Hwf).
  pose proof (lookup_lt_Some _ _ _ Ho) as Hlt.
  destruct (Hwf k o Ho) as (Hnumber & Hmax & Hbound & Hconfirmed & _).
  unfold ledger_wf. simpl. split_and!; trivial.
  - unfold len. now rewrite length_insert.
  - rewrite (tx_count_insert _ _ o) by trivial. simpl. lia.
  - intros i x Hx. destruct (decide (k = i)) as [<-|Hne].
    + rewrite list_lookup_insert_eq in Hx by trivial. injection Hx as <-.
      unfold orbit_wf. simpl. split_and!; trivial.
    + rewrite list_lookup_insert_ne in Hx by trivial. eauto.
Qed.

Lemma ledger_wf_initial {host : Host} (name : string) (started : datetime)
  (g : GenesisInput) :
  ledger_wf (Network_init name started g).
Proof.
  unfold ledger_wf. simpl. split_and!; try reflexivity.
  intros [|i] o; [|discriminate]. intros [= <-].
  unfold orbit_wf. simpl.
  split_and!; try reflexivity; try (unfold len; simpl; lia).
Qed.

Lemma reachable_wf {host : Host} (w : World) : reachable w -> ledger_wf (net w).
Proof.
  apply (stable_reachable ledger_wf).
  - intros n txs H. exact H.
  - intros n vs H. exact H.
  - intros now n o [Hbase _] _ _. now apply ledger_wf_new.
  - intros n o o' tx _ Ho Hadd. now apply (ledger_wf_add n _ o o' tx).
  - intros n o previous _ Ho _. now apply (ledger_wf_seal n _ o).
  - apply ledger_wf_initial.
Qed.

(** Every orbit of a ledger the public operations reach has its index for
    number, the capacity 1 at index 0 and 8 elsewhere, and no more
    transactions than its capacity. *)
Theorem orbit_shape {host : Host} (w : World) (i : nat) (o : Orbit) :
  reachable w ->
  orbits (net w) !! i = Some o ->
  orbit_number o = Z.of_nat i /\
  max_transactions o = (if decide (i = 0%nat) then 1 else 8) /\
  len (transactions o) <= max_transactions o.
Proof.
  intros Hreach Ho. apply reachable_wf in Hreach as (_ & _ & _ & _ & Hwf).
  destruct (Hwf i o Ho) as (Hnumber & Hmax & Hbound & _).
  split_and!; trivial. rewrite Hmax. now destruct i.
Qed.

Lemma orbit_shape_witness :
  reachable demo_world_1 /\
  exists o, orbits (net demo_world_1) !! 1%nat = Some o /\
            orbit_number o = 1 /\ max_transactions o = 8 /\
            len (transactions o) <= 8.
Proof.
  split; [exact demo_world_1_reachable|].
  eexists. split; [vm_compute; reflexivity|].
  match goal with |- orbit_number ?o = _ /\ _ =>
    destruct (orbit_shape demo_world_1 1%nat o demo_world_1_reachable)
      as (H1 & H2 & H3); [vm_compute; reflexivity|]
  end.
  split; [exact H1|]. split; [exact H2|]. rewrite H2 in H3. exact H3.
Defined.

Lemma active_count_bound {host : Host} (h : loc -> Validator) (vs : list loc) :
  0 <= active_count h vs <= len vs.
Proof.
  unfold active_count, len. split; [lia|].
  apply inj_le, length_filter.
Qed.

(** On a ledger the public operations reach, the status reports one orbit
    more than the current index, which is also what the counter of orbits
    holds, as many transactions as the orbits hold together, at most as many
    active validators as validators, and the threshold as 67 percent. *)
Theorem status_consistent {host : Host} {status_host : StatusHost}
  (now : datetime) (w : World) :
  reachable w ->
  Status.total_orbits (get_network_status now w)
    = Status.current_orbit (get_network_status now w) + 1 /\
  Status.total_orbits (get_network_status now w)
    = total_orbits (network_stats (net w)) /\
  Status.total_transactions (get_network_status now w)
    = tx_count (orbits (net w)) /\
  0 <= Status.active_validators (get_network_status now w)
    <= Status.total_validators (get_network_status now w) /\
  Status.consensus_threshold (get_network_status now w)
    = (float_str 67%float ++ "%")%string.
Proof.
  intros Hreach.
  pose proof (reachable_inv w Hreach) as [(Hcur & _) _].
  apply reachable_wf in Hreach as (Horbits & Htxs & _ & Hthreshold & _).
  unfold get_network_status. simpl. rewrite Hthreshold.
  split_and!; trivial; try lia; try apply active_count_bound.
Qed.

Lemma status_consistent_witness :
  reachable demo_world_1 /\
  Status.total_orbits
    (get_network_status (status_host := demo_status_host) (demo_date 60) demo_world_1)
    = 2 /\
  Status.total_transactions
    (get_network_status (status_host := demo_status_host) (demo_date 60) demo_world_1)
    = 2 /\
  Status.consensus_threshold
    (get_network_status (status_host := demo_status_host) (demo_date 60) demo_world_1)
    = "67.0%".
Proof.
  split; [exact demo_world_1_reachable|].
  destruct (status_consistent (status_host := demo_status_host) (demo_date 60)
              demo_world_1 demo_world_1_reachable) as (H1 & _ & H3 & _ & H5).
  split; [rewrite H1; vm_compute; reflexivity|].
  split; [rewrite H3; vm_compute; reflexivity|].
  rewrite H5. reflexivity.
Defined.

(** ** The ledger only grows *)

Lemma grows_refl {host : Host} (n : Network) : grows n n.
Proof.
  split; [lia|]. split; [lia|]. intros i o Ho. exists o. now split_and!.
Qed.

Lemma grows_trans {host : Host} (n1 n2 n3 : Network) :
  grows n1 n2 -> grows n2 n3 -> grows n1 n3.
Proof.
  intros (Hc1 & Hl1 & H1) (Hc2 & Hl2 & H2).
  split; [lia|]. split; [lia|]. intros i o Ho.
  destruct (H1 i o Ho) as (o' & Ho' & Hs' & Hp' & Hn' & Hm' & Ht').
  destruct (H2 i o' Ho') as (o'' & Ho'' & Hs'' & Hp'' & Hn'' & Hm'' & Ht'').
  exists o''. split_and!; trivial; try congruence.
  - intros Hs. specialize (Hs' Hs). subst o'. now apply Hs''.
  - now transitivity (transactions o').
Qed.

Lemma grows_insert {host : Host} (n n' : Network) (k : nat) (o o' : Orbit) :
  orbits n !! k = Some o ->
  orbits n' = <[k := o']> (orbits n) ->
  current_orbit_index n' = current_orbit_index n ->
  (is_sealed o = true -> o' = o) ->
  transactions o `prefix_of` transactions o' ->
  orbit_number o' = orbit_number o ->
  max_transactions o' = max_transactions o ->
  timestamp o' = timestamp o ->
  grows n n'.
Proof.
  intros Ho Horbits Hcur Hs Hp Hn Hm Ht.
  pose proof (lookup_lt_Some _ _ _ Ho) as Hlt.
  split; [lia|]. rewrite Horbits, length_insert. split; [lia|].
  intros i x Hx. destruct (decide (k = i)) as [<-|Hne].
  - rewrite list_lookup_insert_eq by trivial.
    rewrite Ho in Hx. injection Hx as <-. exists o'. now split_and!.
  - rewrite list_lookup_insert_ne by trivial. exists x. now split_and!.
Qed.

Lemma grows_new {host : Host} (now : datetime) (n : Network) :
  grows n (create_new_orbit now n).
Proof.
  unfold create_new_orbit. split; [simpl; lia|]. simpl.
  rewrite length_app. split; [lia|].
  intros i o Ho. exists o.
  rewrite lookup_app_l by (apply (lookup_lt_Some _ _ _ Ho)). now split_and!.
Qed.

Lemma grows_add {host : Host} (n : Network) (k : nat) (o o' : Orbit)
  (tx : Transaction) :
  orbits n !! k = Some o ->
  add_transaction o tx = (o', true) ->
  grows n
    (set_stats (set_orbits n (<[k := o']> (orbits n)))
       (set_total_transactions (network_stats n)
          (total_transactions (network_stats n) + 1))).
Proof.
  intros Ho Hadd. unfold add_transaction in Hadd.
  destruct (is_sealed o) eqn:Hsealed; [discriminate|].
  destruct (len (transactions o) >=? max_transactions o); [discriminate|].
  injection Hadd as <-.
  eapply (grows_insert n _ k o); [exact Ho | simpl; reflexivity | ..];
    try reflexivity; [congruence|].
  simpl. now apply prefix_app_r.
Qed.

(** Sealing the current orbit of a reachable ledger a second time changes
    nothing: the previous hash handed in is the one it was sealed with. *)
Lemma grows_seal {host : Host} (n : Network) (o : Orbit) (previous : string) :
  ledger_base (orbits n) (current_orbit_index n) ->
  ledger_wf n ->
  orbits n !! Z.to_nat (current_orbit_index n) = Some o ->
  (if current_orbit_index n >? 0
   then orbital_hash <$> getitem (orbits n) (current_orbit_index n - 1)
   else Some "") = Some previous ->
  (is_sealed o = true -> seal_orbit o previous = o) /\
  grows n (set_orbits n (<[Z.to_nat (current_orbit_index n) := seal_orbit o previous]>
                           (orbits n))).
Proof.
  intros (Hcur & Hpos & _ & Hfirst & Hchain & _) (_ & _ & _ & _ & Hwf) Ho Hprev.
  assert (Hsame : is_sealed o = true -> seal_orbit o previous = o).
  { intros Hs. destruct (Hwf _ _ Ho) as (_ & _ & _ & _ & Hhash).
    rewrite Hs in Hhash. rewrite Hhash at 2. f_equal.
    destruct (Z.gtb_spec (current_orbit_index n) 0) as [Hgt|Hle].
    - rewrite getitem_nonneg in Hprev by (unfold len in *; lia).
      destruct (orbits n !! Z.to_nat (current_orbit_index n - 1)) as [p|] eqn:Hp;
        [|discriminate].
      injection Hprev as <-. symmetry.
      apply (Hchain (Z.to_nat (current_orbit_index n - 1)) p o); trivial.
      now replace (S (Z.to_nat (current_orbit_index n - 1)))
        with (Z.to_nat (current_orbit_index n)) by lia.
    - injection Hprev as <-. symmetry. apply Hfirst.
      now replace 0%nat with (Z.to_nat (current_orbit_index n)) by lia. }
  split; [exact Hsame|].
  eapply (grows_insert n _ _ o); [exact Ho | simpl; reflexivity | ..];
    try reflexivity. exact Hsame.
Qed.

Lemma step_grows_wf {host : Host} (w w' : World) :
  reachable w -> step w w' -> grows (net w) (net w').
Proof.
  intros Hreach Hstep.
  enough (H : ledger_wf (net w') /\ grows (net w) (net w')) by apply H.
  apply (stable_step (fun n => ledger_wf n /\ grows (net w) n)) with (w := w).
  - intros n txs H. exact H.
  - intros n vs H. exact H.
  - intros now n o [Hbase _] _ _ [Hwf Hg]. split.
    + now apply ledger_wf_new.
    + apply (grows_trans _ n); [exact Hg | apply grows_new].
  - intros n o o' tx _ Ho Hadd [Hwf Hg]. split.
    + now apply (ledger_wf_add n _ o o' tx).
    + apply (grows_trans _ n); [exact Hg | now apply (grows_add n _ o o' tx)].
  - intros n o previous Hbase Ho Hprev [Hwf Hg]. split.
    + now apply (ledger_wf_seal n _ o).
    + apply (grows_trans _ n); [exact Hg|].
      now apply (grows_seal n o previous).
  - now apply reachable_inv.
  - split; [now apply reachable_wf | apply grows_refl].
  - exact Hstep.
Qed.

(** From a ledger the public operations reach, any further run of public
    operations only grows the ledger: no orbit is removed, moved or
    renumbered, a sealed orbit is never changed again, and an open orbit only
    gets transactions appended. *)
Theorem ledger_grows {host : Host} (w w' : World) :
  reachable w -> relations.rtc step w w' -> grows (net w) (net w').
Proof.
  intros Hreach Hsteps. induction Hsteps as [w|w w1 w' Hstep _ IH].
  - apply grows_refl.
  - apply (grows_trans _ (net w1)).
    + now apply step_grows_wf.
    + apply IH. now apply (reachable_step w w1).
Qed.

Lemma ledger_grows_witness :
  reachable demo_world_1 /\
  relations.rtc step demo_world_1 demo_world_2 /\
  exists g, orbits (net demo_world_1) !! 0%nat = Some g /\
            is_sealed g = true /\
            orbits (net demo_world_2) !! 0%nat = Some g.
Proof.
  split; [exact demo_world_1_reachable|].
  assert (Hrun : relations.rtc step demo_world_1 demo_world_2).
  { apply relations.rtc_once. unfold demo_world_2. apply step_seal. }
  split; [exact Hrun|].
  destruct (ledger_grows demo_world_1 demo_world_2 demo_world_1_reachable Hrun)
    as (_ & _ & H).
  eexists. split; [vm_compute; reflexivity|]. split; [reflexivity|].
  match goal with |- _ = Some ?g =>
    destruct (H 0%nat g) as (g' & Hg' & Hsame & _); [vm_compute; reflexivity|]
  end.
  rewrite Hg'. f_equal. apply Hsame. reflexivity.
Defined.

Lemma set_orbits_same {host : Host} (n : Network) : set_orbits n (orbits n) = n.
Proof. now destruct n. Qed.

Lemma seal_current_orbit_noop {host : Host} (n : Network) (o : Orbit) :
  ledger_base (orbits n) (current_orbit_index n) ->
  ledger_wf n ->
  orbits n !! Z.to_nat (current_orbit_index n) = Some o ->
  is_sealed o = true ->
  seal_current_orbit n = Returns tt n.
Proof.
  intros Hbase Hwf Ho Hs.
  destruct (ledger_base_current _ _ Hbase) as (Hidx & _).
  destruct (seal_current_orbit_inv n Hbase) as (n' & Hseal & _).
  rewrite Hseal. unfold seal_current_orbit in Hseal. rewrite Hidx, Ho in Hseal.
  destruct (if current_orbit_index n >? 0 then _ else _) as [previous|] eqn:Hprev;
    [|discriminate].
  injection Hseal as <-.
  destruct (grows_seal n o previous Hbase Hwf Ho Hprev) as [Hsame _].
  rewrite (Hsame Hs), list_insert_id by trivial. now rewrite set_orbits_same.
Qed.

(** On a ledger the public operations reach, [seal_current_orbit] always
    returns and leaves the current orbit sealed; when the current orbit is
    sealed already it changes nothing, so sealing twice is sealing once. *)
Theorem seal_current_orbit_once {host : Host} (w : World) :
  reachable w ->
  exists n' o',
    seal_current_orbit (net w) = Returns tt n' /\
    orbits n' !! Z.to_nat (current_orbit_index (net w)) = Some o' /\
    is_sealed o' = true /\
    current_orbit_index n' = current_orbit_index (net w) /\
    seal_current_orbit n' = Returns tt n' /\
    (forall o, orbits (net w) !! Z.to_nat (current_orbit_index (net w)) = Some o ->
               is_sealed o = true -> n' = net w).
Proof.
  intros Hreach.
  pose proof (reachable_inv w Hreach) as [Hbase _].
  pose proof (reachable_wf w Hreach) as Hwf.
  destruct (stable_seal ledger_wf) with (n := net w) as (n' & Hseal & Hinv' & Hwf');
    trivial.
  { intros n o previous _ Ho _. now apply (ledger_wf_seal n _ o). }
  destruct (ledger_base_current _ _ Hbase) as (Hidx & _ & o & Ho).
  assert (Hn' : current_orbit_index n' = current_orbit_index (net w) /\
                exists o', orbits n' !! Z.to_nat (current_orbit_index (net w)) = Some o'
                           /\ is_sealed o' = true).
  { pose proof Hseal as Hs. unfold seal_current_orbit in Hs. rewrite Hidx, Ho in Hs.
    destruct (if current_orbit_index (net w) >? 0 then _ else _) as [previous|];
      [|discriminate].
    injection Hs as <-. simpl. split; [reflexivity|].
    eexists. rewrite list_lookup_insert_eq by (apply (lookup_lt_Some _ _ _ Ho)).
    split; reflexivity. }
  destruct Hn' as (Hcur' & o' & Ho' & Hs').
  exists n', o'. split_and!; trivial.
  - apply (seal_current_orbit_noop n' o'); trivial; [apply Hinv'|].
    now rewrite Hcur'.
  - intros x Hx Hsx.
    rewrite (seal_current_orbit_noop (net w) x Hbase Hwf Hx Hsx) in Hseal.
    now injection Hseal.
Qed.

Lemma seal_current_orbit_once_witness :
  reachable demo_world_1 /\
  exists n', seal_current_orbit (net demo_world_1) = Returns tt n' /\
             seal_current_orbit n' = Returns tt n'.
Proof.
  split; [exact demo_world_1_reachable|].
  destruct (seal_current_orbit_once demo_world_1 demo_world_1_reachable)
    as (n' & o' & H1 & _ & _ & _ & H2 & _).
  exists n'. split; [exact H1 | exact H2].
Defined.

(** ** The gate: all approvals or none *)

Lemma counted_refl {host : Host} (h : loc -> Validator) : counted h h.
Proof. intros v. split_and!; auto; lia. Qed.

Lemma counted_trans {host : Host} (h1 h2 h3 : loc -> Validator) :
  counted h1 h2 -> counted h2 h3 -> counted h1 h3.
Proof.
  intros H12 H23 v.
  destruct (H12 v) as (? & ? & ? & Ha & ? & ? & Hi).
  destruct (H23 v) as (? & ? & ? & ? & ? & ? & Hi').
  split_and!; try congruence; try lia.
  intros Hoff. rewrite Hi', Hi; trivial. now rewrite Ha.
Qed.

Lemma active_count_counted {host : Host} (h h' : loc -> Validator) (vs : list loc) :
  counted h h' -> active_count h' vs = active_count h vs.
Proof.
  intros Hc. unfold active_count. f_equal. f_equal.
  apply list_filter_iff. intros v. destruct (Hc v) as (_ & _ & _ & -> & _). tauto.
Qed.

Lemma count_approvals_counts {host : Host} (vs : list loc) (tx : Transaction)
  (h : loc -> Validator) (approvals : Z) :
  exists h',
    count_approvals vs tx h approvals
      = (h', approvals + if well_formed tx then active_count h vs else 0) /\
    counted h h' /\
    (well_formed tx = false -> forall v, h' v = h v).
Proof.
  revert h approvals. induction vs as [|v vs IH]; intros h approvals.
  - exists h. split; [simpl; f_equal; destruct (well_formed tx); unfold active_count, len; simpl; lia|].
    split; [apply counted_refl | reflexivity].
  - simpl. unfold active_count. rewrite filter_cons.
    destruct (is_active (h v)) eqn:Hv.
    + rewrite validate_transaction_well_formed.
      destruct (well_formed tx) eqn:Htx.
      * set (h1 := <[v := set_validated_count (h v) (validated_count (h v) + 1)]> h).
        assert (H1 : counted h h1).
        { intros u. unfold h1. destruct (decide (u = v)) as [->|Hne].
          - rewrite fn_lookup_insert. simpl. split_and!; trivial; try lia.
            congruence.
          - rewrite fn_lookup_insert_ne by congruence. split_and!; auto; lia. }
        destruct (IH h1 (approvals + 1)) as (h' & -> & Hc & _).
        exists h'. split.
        { f_equal. rewrite (active_count_counted h h1) by trivial.
          rewrite decide_True by reflexivity.
          unfold active_count, len. simpl length. lia. }
        split; [now apply (counted_trans h h1) | discriminate].
      * set (h1 := <[v := h v]> h).
        assert (H1 : forall u, h1 u = h u).
        { intros u. unfold h1. destruct (decide (u = v)) as [->|Hne].
          - now rewrite fn_lookup_insert.
          - now rewrite fn_lookup_insert_ne. }
        destruct (IH h1 approvals) as (h' & -> & Hc & Hsame).
        exists h'. split; [f_equal; lia|]. split.
        { intros u. specialize (Hc u). now rewrite H1 in Hc. }
        intros _ u. now rewrite Hsame, H1.
    + destruct (IH h approvals) as (h' & -> & Hc & Hsame).
      exists h'. split; [|now split].
      now rewrite decide_False by discriminate.
Qed.

(** When the gate answers, that is with an empty registry or with an active
    validator, every active validator gives the same answer, so the
    approvals are all of them or none and the verdict is [gate_verdict]; the
    validators keep their name, stake, reputation, activity and position, and
    only the counters of active ones grow. *)
Lemma consensus_answers {host : Host} (tx : Transaction) (w : World) :
  validators (net w) = [] \/ 0 < active_count (heap w) (validators (net w)) ->
  exists h',
    validate_transaction_consensus tx w
      = Returns (gate_verdict (net w) (active_count (heap w) (validators (net w))) tx)
          (with_heap w h') /\
    counted (heap w) h' /\
    (well_formed tx = false -> forall v, h' v = heap w v).
Proof.
  intros Hgate. unfold validate_transaction_consensus, gate_verdict.
  destruct (validators (net w)) as [|v vs] eqn:Hvs.
  - exists (heap w). rewrite with_heap_same.
    split; [reflexivity|]. split; [apply counted_refl | reflexivity].
  - destruct Hgate as [|Hactive]; [discriminate|].
    destruct (count_approvals_counts (v :: vs) tx (heap w) 0)
      as (h' & -> & Hc & Hsame).
    exists h'. simpl net. rewrite Hvs.
    rewrite (active_count_counted (heap w) h') by trivial.
    destruct (Z.eqb_spec (active_count (heap w) (v :: vs)) 0) as [E|_]; [lia|].
    rewrite Z.add_0_l. split; [reflexivity|]. now split.
Qed.

Lemma count_approvals_exact {host : Host} (vs : list loc) (tx : Transaction) :
  well_formed tx = true ->
  forall (h : loc -> Validator) (approvals : Z) (v : loc),
    validated_count (fst (count_approvals vs tx h approvals) v)
    = validated_count (h v)
      + if is_active (h v)
        then Z.of_nat (length (filter (fun u => u = v) vs)) else 0.
Proof.
  intros Htx. induction vs as [|u vs IH]; intros h approvals v.
  - simpl. destruct (is_active (h v)); lia.
  - simpl count_approvals. rewrite filter_cons.
    destruct (is_active (h u)) eqn:Hu.
    + rewrite validate_transaction_well_formed, Htx. rewrite IH.
      destruct (decide (u = v)) as [->|Hne].
      * rewrite fn_lookup_insert. simpl. rewrite Hu. simpl length. lia.
      * rewrite fn_lookup_insert_ne by congruence. reflexivity.
    + rewrite IH. destruct (decide (u = v)) as [->|Hne]; [|reflexivity].
      now rewrite Hu.
Qed.

(** With a registry that is not empty and an active validator the gate
    returns, and its verdict is the comparison of the threshold with the
    share [k / k] for a transaction that passes the tests of
    [validate_transaction] and [0 / k] for any other, [k] the number of
    active validators, whatever their stakes and reputations.  The
    validators keep their name, stake, reputation, activity and position,
    and only counters of active ones grow.  A transaction that fails the
    tests changes no validator; one that passes them is counted by every
    active validator, once for each of its entries in the registry, whether
    the threshold then admits it or not. *)
Theorem gate_all_or_nothing {host : Host} (tx : Transaction) (w : World) :
  validators (net w) <> [] ->
  0 < active_count (heap w) (validators (net w)) ->
  exists h',
    validate_transaction_consensus tx w
      = Returns
          (PrimFloat.leb (consensus_threshold (net w))
             (true_div
                (if well_formed tx
                 then active_count (heap w) (validators (net w)) else 0)
                (active_count (heap w) (validators (net w)))))
          (with_heap w h') /\
    counted (heap w) h' /\
    (well_formed tx = false -> forall v, h' v = heap w v) /\
    (well_formed tx = true -> forall v,
       validated_count (h' v)
       = validated_count (heap w v)
         + if is_active (heap w v)
           then Z.of_nat (length (filter (fun u => u = v) (validators (net w))))
           else 0).
Proof.
  intros Hregistry Hactive.
  destruct (consensus_answers tx w) as (h' & Hrun & Hc & Hsame); [now right|].
  exists h'. split; [|split; [exact Hc | split; [exact Hsame|]]].
  - rewrite Hrun. unfold gate_verdict.
    now destruct (validators (net w)).
  - intros Htx v.
    pose proof (count_approvals_exact (validators (net w)) tx Htx (heap w) 0 v) as Hv.
    unfold validate_transaction_consensus in Hrun.
    destruct (validators (net w)) as [|u vs] eqn:Hvs; [contradiction|].
    destruct (count_approvals (u :: vs) tx (heap w) 0) as [h1 approvals] eqn:Hcount.
    simpl in Hv.
    destruct (active_count h1 _ =? 0); [discriminate|].
    injection Hrun as _ Hh. now rewrite <- Hh.
Qed.

Lemma gate_all_or_nothing_witness :
  (exists h',
     validate_transaction_consensus demo_tx_no_sender (add_validator 0%nat demo_world)
       = Returns false (with_heap (add_validator 0%nat demo_world) h') /\
     forall v, h' v = heap (add_validator 0%nat demo_world) v) /\
  (exists h',
     validate_transaction_consensus (demo_tx 1) (add_validator 0%nat demo_world)
       = Returns true (with_heap (add_validator 0%nat demo_world) h') /\
     validated_count (h' 0%nat) = 1).
Proof.
  split.
  - destruct (gate_all_or_nothing demo_tx_no_sender (add_validator 0%nat demo_world))
      as (h' & Hrun & _ & Hsame & _).
    + discriminate.
    + vm_compute. reflexivity.
    + exists h'. split; [exact Hrun | now apply Hsame].
  - destruct (gate_all_or_nothing (demo_tx 1) (add_validator 0%nat demo_world))
      as (h' & Hrun & _ & _ & Hcounted).
    + discriminate.
    + vm_compute. reflexivity.
    + exists h'. split; [exact Hrun|]. now rewrite Hcounted.
Defined.

(** ** One pass over the queue *)

Lemma previous_of_insert {host : Host} (os : list Orbit) (cur : Z) (o : Orbit) :
  0 <= cur ->
  previous_of (<[Z.to_nat cur := o]> os) cur = previous_of os cur.
Proof.
  intros Hpos. unfold previous_of.
  destruct (Z.gtb_spec cur 0) as [Hgt|]; [|reflexivity].
  unfold getitem, py_index, len. rewrite length_insert.
  destruct (Z.leb_spec 0 (cur - 1)); [|lia].
  destruct (Z.ltb_spec (cur - 1) (Z.of_nat (length os))); [simpl|reflexivity].
  now rewrite list_lookup_insert_ne by lia.
Qed.

Lemma seal_current_orbit_eq {host : Host} (n : Network) (o : Orbit) (previous : string) :
  ledger_base (orbits n) (current_orbit_index n) ->
  orbits n !! Z.to_nat (current_orbit_index n) = Some o ->
  previous_of (orbits n) (current_orbit_index n) = Some previous ->
  seal_current_orbit n
  = Returns tt
      (set_orbits n
         (<[Z.to_nat (current_orbit_index n) := seal_orbit o previous]> (orbits n))).
Proof.
  intros Hbase Ho Hprev.
  destruct (ledger_base_current _ _ Hbase) as (Hidx & _).
  unfold seal_current_orbit. rewrite Hidx, Ho.
  unfold previous_of in Hprev. now rewrite Hprev.
Qed.

Lemma previous_of_defined {host : Host} (os : list Orbit) (cur : Z) :
  ledger_base os cur -> is_Some (previous_of os cur).
Proof.
  intros (Hcur & Hpos & _). unfold previous_of.
  destruct (Z.gtb_spec cur 0) as [Hgt|]; [|eauto].
  rewrite getitem_nonneg by (unfold len in *; lia).
  destruct (lookup_lt_is_Some_2 os (Z.to_nat (cur - 1))) as [p ->];
    [unfold len in *; lia | simpl; eauto].
Qed.

Lemma gate_verdict_same {host : Host} (n n0 : Network) (k : Z) (tx : Transaction) :
  validators n = validators n0 ->
  consensus_threshold n = consensus_threshold n0 ->
  gate_verdict n k tx = gate_verdict n0 k tx.
Proof. unfold gate_verdict. now intros -> ->. Qed.

Lemma room_after_add {host : Host} (o o' : Orbit) (tx : Transaction) :
  add_transaction o tx = (o', true) ->
  max_transactions o' = max_transactions o /\
  len (transactions o') = len (transactions o) + 1 /\
  len (transactions o) < max_transactions o.
Proof.
  unfold add_transaction. destruct (is_sealed o); [discriminate|].
  destruct (Z.geb_spec (len (transactions o)) (max_transactions o)); [discriminate|].
  intros [= <-]. simpl.
  split_and!; [reflexivity | unfold len; rewrite length_app; simpl; lia | lia].
Qed.

(** The loop of [process_pending_transactions], started on an open orbit
    with room: it admits, in the order of the queue, the transactions the
    gate approves until the orbit is full, seals the orbit if it got full,
    and touches nothing else. *)
Lemma process_loop_fifo {host : Host} (n0 : Network) (k0 : Z) (previous : string)
  (txs processed : list Transaction) (w : World) (o : Orbit) :
  world_inv w ->
  validators (net w) = validators n0 ->
  consensus_threshold (net w) = consensus_threshold n0 ->
  active_count (heap w) (validators n0) = k0 ->
  validators n0 = [] \/ 0 < k0 ->
  orbits (net w) !! Z.to_nat (current_orbit_index (net w)) = Some o ->
  is_sealed o = false ->
  is_full o = false ->
  previous_of (orbits (net w)) (current_orbit_index (net w)) = Some previous ->
  exists w',
    let admitted :=
      take (Z.to_nat (max_transactions o - len (transactions o)))
        (filter (fun tx => gate_verdict n0 k0 tx = true) txs) in
    process_loop (Z.to_nat (current_orbit_index (net w))) txs processed w
      = Returns (processed ++ admitted) w' /\
    counted (heap w) (heap w') /\
    orbits (net w')
      = <[Z.to_nat (current_orbit_index (net w)) :=
            if is_full (add_all o admitted)
            then seal_orbit (add_all o admitted) previous
            else add_all o admitted]> (orbits (net w)) /\
    total_transactions (network_stats (net w'))
      = total_transactions (network_stats (net w)) + len admitted /\
    pending_transactions (net w') = pending_transactions (net w) /\
    validators (net w') = validators (net w) /\
    current_orbit_index (net w') = current_orbit_index (net w) /\
    consensus_threshold (net w') = consensus_threshold (net w).
Proof.
  revert processed w o.
  induction txs as [|tx txs IH];
    intros processed w o Hinv Hvs Hthr Hk Hgate Ho Hopen Hroom Hprev.
  - exists w. simpl. rewrite filter_nil, take_nil, app_nil_r. simpl. rewrite Hroom.
    split_and!; try reflexivity.
    + apply counted_refl.
    + now rewrite list_insert_id.
    + unfold len. simpl. lia.
  - destruct (consensus_answers tx w) as (h1 & Hrun & Hc1 & _).
    { rewrite Hvs, Hk. exact Hgate. }
    rewrite Hvs, Hk, (gate_verdict_same (net w) n0) in Hrun by trivial.
    simpl process_loop. rewrite Hrun. clear Hrun.
    assert (Hk1 : active_count h1 (validators n0) = k0)
      by now rewrite (active_count_counted (heap w) h1).
    destruct (gate_verdict n0 k0 tx) eqn:Hverdict.
    + (* approved *)
      rewrite filter_cons_True by trivial.
      simpl net. rewrite Ho.
      pose proof (add_transaction_open o tx Hopen Hroom) as Hadd.
      rewrite Hadd.
      set (o2 := update_merkle_root (set_transactions o (transactions o ++ [tx]))) in *.
      destruct (room_after_add o o2 tx Hadd) as (Hmax2 & Hlen2 & Hlt).
      replace (Z.to_nat (max_transactions o - len (transactions o)))
        with (S (Z.to_nat (max_transactions o2 - len (transactions o2)))) by lia.
      rewrite firstn_cons.
      pose proof Hinv as [Hbase _].
      pose proof (ledger_base_add _ _ _ _ _ _ Hbase Ho Hadd) as Hbase2.
      pose proof (lookup_lt_Some _ _ _ Ho) as Hlt_k.
      destruct (is_full o2) eqn:Hfull2.
      * (* the orbit is full: seal and break *)
        unfold on_net. simpl net.
        rewrite (seal_current_orbit_eq _ o2 previous); trivial.
        2:{ simpl. now rewrite list_lookup_insert_eq. }
        2:{ simpl. rewrite previous_of_insert by apply Hbase. exact Hprev. }
        assert (Hzero : Z.to_nat (max_transactions o2 - len (transactions o2)) = 0%nat).
        { unfold is_full in Hfull2. apply Z.geb_le in Hfull2. lia. }
        rewrite Hzero, take_0. simpl.
        eexists. split; [reflexivity|]. simpl.
        rewrite Hadd. simpl. fold o2. rewrite Hfull2.
        rewrite list_insert_insert_eq.
        split_and!; trivial.
      * (* room is left: go on *)
        set (n2 := set_stats _ _).
        destruct (IH (processed ++ [tx]) (with_net (with_heap w h1) n2) o2)
          as (w' & Hloop & Hc & Horbits & Htotal & Hpending & Hvalidators & Hcur & Hthr');
          trivial.
        { split; [exact Hbase2|]. simpl. intros x Hx.
          rewrite list_lookup_insert_eq in Hx by trivial.
          injection Hx as <-. congruence. }
        { simpl. now rewrite list_lookup_insert_eq. }
        { simpl. rewrite previous_of_insert by apply Hbase. exact Hprev. }
        exists w'. cbv zeta in *. simpl net in *.
        change (current_orbit_index n2) with (current_orbit_index (net w)) in *.
        rewrite Hloop, <- app_assoc. simpl app.
        split; [reflexivity|].
        split; [now apply (counted_trans _ h1)|].
        simpl add_all. rewrite Hadd. simpl fst. fold o2.
        split_and!; trivial.
        -- rewrite Horbits. simpl. now rewrite list_insert_insert_eq.
        -- rewrite Htotal. simpl. unfold len. simpl length. lia.
    + (* rejected *)
      rewrite filter_cons_False by congruence.
      destruct (IH processed (with_heap w h1) o)
        as (w' & Hloop & Hc & Hrest); trivial.
      exists w'. cbv zeta in *. simpl net in *.
      split; [exact Hloop|].
      split; [now apply (counted_trans _ h1) | exact Hrest].
Qed.

Lemma set_pending_same {host : Host} (n : Network) :
  set_pending n (pending_transactions n) = n.
Proof. now destruct n. Qed.

Lemma with_net_same {host : Host} (w : World) : with_net w (net w) = w.
Proof. now destruct w. Qed.

Lemma list_remove_sublist {host : Host} (x : Transaction) (l q : list Transaction) :
  x :: l `sublist_of` q ->
  exists q', list_remove same_transaction x q = Some q' /\
             l `sublist_of` q' /\ q' `sublist_of` q /\
             length q = S (length q').
Proof.
  induction q as [|y q IH]; intros Hsub; [inversion Hsub|].
  simpl. destruct (same_transaction y x) eqn:Hsame.
  - exists q. split; [reflexivity|]. split_and!; [|apply sublist_cons; reflexivity|reflexivity].
    inversion Hsub; subst; [trivial|].
    transitivity (x :: l); [now apply sublist_cons | trivial].
  - assert (Hne : y <> x).
    { intros ->. now rewrite same_transaction_refl in Hsame. }
    inversion Hsub as [| |? ? ? Hsub']; subst; [congruence|].
    destruct (IH Hsub') as (q' & -> & Hl & Hq & Hlen).
    exists (y :: q'). simpl. split; [reflexivity|].
    split_and!; [now apply sublist_cons | now apply sublist_skip | lia].
Qed.

(** Removing, in their order, transactions that stand in the queue in that
    order always finds them. *)
Lemma remove_processed_sublist {host : Host} (processed : list Transaction) (w : World) :
  processed `sublist_of` pending_transactions (net w) ->
  exists pending',
    remove_processed processed w
      = Returns tt (with_net w (set_pending (net w) pending')) /\
    pending' `sublist_of` pending_transactions (net w) /\
    (length pending' + length processed = length (pending_transactions (net w)))%nat.
Proof.
  revert w. induction processed as [|tx processed IH]; intros w Hsub.
  - exists (pending_transactions (net w)).
    rewrite set_pending_same, with_net_same. split_and!; [reflexivity..|simpl; lia].
  - simpl.
    destruct (list_remove_sublist tx processed _ Hsub) as (q' & -> & Hl & Hq & Hlen).
    destruct (IH (with_net w (set_pending (net w) q'))) as (p' & Hrun & Hp' & Hlen');
      [exact Hl|].
    exists p'. simpl in *. split; [exact Hrun|].
    split; [now transitivity q' | lia].
Qed.

Lemma list_remove_first {host : Host} (x : Transaction) (pre l : list Transaction) :
  Forall (fun a => same_transaction a x = false) pre ->
  list_remove same_transaction x (pre ++ x :: l) = Some (pre ++ l).
Proof.
  induction 1 as [|a pre Ha _ IH]; simpl.
  - now rewrite same_transaction_refl.
  - now rewrite Ha, IH.
Qed.

(** With entries identified by their identity, what is left of the queue
    after the transactions admitted by one pass are removed is
    [leftover]. *)
Lemma remove_processed_leftover {host : Host} (g : Transaction -> bool) (room : nat)
  (pre txs : list Transaction) (w : World) :
  pending_transactions (net w) = pre ++ txs ->
  identified (pre ++ txs) ->
  Forall (fun a => g a = false) pre ->
  remove_processed (take room (filter (fun tx => g tx = true) txs)) w
  = Returns tt (with_net w (set_pending (net w) (pre ++ leftover room g txs))).
Proof.
  revert room pre w. induction txs as [|tx txs IH]; intros room pre w Hp Hid Hpre.
  - rewrite filter_nil, take_nil.
    replace (leftover room g []) with (@nil Transaction) by now destruct room.
    simpl. now rewrite <- Hp, set_pending_same, with_net_same.
  - destruct room as [|room].
    + simpl. now rewrite <- Hp, set_pending_same, with_net_same.
    + simpl leftover. destruct (g tx) eqn:Hg.
      * rewrite filter_cons_True by trivial. rewrite firstn_cons.
        simpl remove_processed. rewrite Hp, list_remove_first.
        2:{ rewrite Forall_forall in *. intros a Ha.
            destruct (same_transaction a tx) eqn:Hsame; [|reflexivity].
            apply Nat.eqb_eq in Hsame.
            assert (a = tx) as ->.
            { apply Hid; [apply elem_of_app; left | apply elem_of_app; right; left |];
                trivial. now apply list_elem_of_In. }
            specialize (Hpre tx Ha). simpl in Hpre. congruence. }
        rewrite (IH room pre); trivial.
        intros a b Ha Hb. apply Hid.
        -- apply elem_of_app in Ha as [Ha|Ha]; apply elem_of_app;
             [now left | right; now right].
        -- apply elem_of_app in Hb as [Hb|Hb]; apply elem_of_app;
             [now left | right; now right].
      * rewrite filter_cons_False by congruence.
        rewrite (IH (S room) (pre ++ [tx])).
        -- now rewrite <- app_assoc.
        -- now rewrite <- app_assoc.
        -- now rewrite <- app_assoc.
        -- apply Forall_app. split; [trivial|]. now constructor.
Qed.

Lemma add_all_fits {host : Host} (o : Orbit) (txs : list Transaction) :
  is_sealed o = false ->
  len (transactions o) + len txs <= max_transactions o ->
  transactions (add_all o txs) = transactions o ++ txs /\
  is_sealed (add_all o txs) = false /\
  orbit_number (add_all o txs) = orbit_number o /\
  max_transactions (add_all o txs) = max_transactions o /\
  timestamp (add_all o txs) = timestamp o /\
  merkle_root (add_all o txs)
    = match txs with
      | [] => merkle_root o
      | _ :: _ => merkle_of (map signature (transactions o ++ txs))
      end.
Proof.
  revert o. induction txs as [|tx txs IH]; intros o Hopen Hfits.
  - simpl. rewrite app_nil_r. now split_and!.
  - assert (Hroom : is_full o = false).
    { unfold is_full. rewrite Z.geb_leb. apply Z.leb_gt.
      unfold len in *. simpl length in Hfits. lia. }
    simpl add_all. rewrite (add_transaction_open o tx Hopen Hroom). simpl fst.
    set (o2 := update_merkle_root (set_transactions o (transactions o ++ [tx]))).
    destruct (IH o2) as (Htxs & Hs & Hn & Hm & Ht & Hroot).
    { exact Hopen. }
    { subst o2. simpl. unfold len in *. rewrite length_app.
      simpl length in *. lia. }
    rewrite Htxs, Hs, Hn, Hm, Ht, Hroot. subst o2. simpl.
    rewrite <- app_assoc. simpl. split_and!; try reflexivity.
    now destruct txs.
Qed.

Lemma active_count_zero {host : Host} (h : loc -> Validator) (vs : list loc) :
  active_count h vs = 0 -> Forall (fun v => is_active (h v) = false) vs.
Proof.
  unfold active_count, len. induction vs as [|v vs IH]; [constructor|].
  rewrite filter_cons. destruct (decide (is_active (h v) = true)) as [|Hoff].
  - simpl. lia.
  - intros H. constructor; [now destruct (is_active (h v)) | now apply IH].
Qed.

Lemma opened_inv {host : Host} (now : datetime) (n : Network) :
  ledger_inv (orbits n) (current_orbit_index n) ->
  ledger_inv (orbits (opened now n)) (current_orbit_index (opened now n)) /\
  pending_transactions (opened now n) = pending_transactions n /\
  validators (opened now n) = validators n /\
  consensus_threshold (opened now n) = consensus_threshold n /\
  total_transactions (network_stats (opened now n))
    = total_transactions (network_stats n) /\
  exists target,
    orbits (opened now n) !! Z.to_nat (current_orbit_index (opened now n))
      = Some target /\
    is_sealed target = false /\ is_full target = false.
Proof.
  intros Hinv. pose proof Hinv as [Hbase Hfull].
  destruct (ledger_base_current _ _ Hbase) as (Hidx & Hlen & o & Ho).
  unfold opened, getitem. rewrite Hidx. simpl. rewrite Ho.
  destruct (is_full o || is_sealed o) eqn:Hclosed.
  - assert (Hs : is_sealed o = true).
    { destruct (is_full o) eqn:E; [eauto | exact Hclosed]. }
    split; [now apply (create_new_orbit_inv now n o)|].
    split_and!; try reflexivity.
    eexists. simpl.
    replace (Z.to_nat (current_orbit_index n + 1)) with (length (orbits n))
      by (destruct Hbase as (_ & ? & _); lia).
    rewrite lookup_app_r, Nat.sub_diag by lia. simpl.
    split; [reflexivity|]. split; reflexivity.
  - split; [exact Hinv|]. split_and!; try reflexivity.
    exists o. apply orb_false_elim in Hclosed as [? ?]. now split_and!.
Qed.

(** [process_pending_transactions] on a reachable ledger with a transaction
    pending and a gate that answers. *)
Lemma process_pending_pass {host : Host} (now : datetime) (w : World) :
  reachable w ->
  pending_transactions (net w) <> [] ->
  validators (net w) = [] \/ 0 < active_count (heap w) (validators (net w)) ->
  exists (target : Orbit) (previous : string) (pending' : list Transaction) (h' : loc -> Validator) (n' : Network),
    let n1 := opened now (net w) in
    let k1 := Z.to_nat (current_orbit_index n1) in
    let g := gate_verdict (net w) (active_count (heap w) (validators (net w))) in
    let admitted :=
      take (Z.to_nat (max_transactions target - len (transactions target)))
        (filter (fun tx => g tx = true) (pending_transactions (net w))) in
    process_pending_transactions now w
      = Returns tt {| heap := h'; net := set_pending n' pending' |} /\
    orbits n1 !! k1 = Some target /\
    is_sealed target = false /\
    is_full target = false /\
    previous_of (orbits n1) (current_orbit_index n1) = Some previous /\
    counted (heap w) h' /\
    orbits n'
      = <[k1 := if is_full (add_all target admitted)
                then seal_orbit (add_all target admitted) previous
                else add_all target admitted]> (orbits n1) /\
    total_transactions (network_stats n')
      = total_transactions (network_stats (net w)) + len admitted /\
    validators n' = validators (net w) /\
    current_orbit_index n' = current_orbit_index n1 /\
    consensus_threshold n' = consensus_threshold (net w) /\
    pending' `sublist_of` pending_transactions (net w) /\
    (length pending' + length admitted
     = length (pending_transactions (net w)))%nat /\
    (identified (pending_transactions (net w)) ->
     pending'
     = leftover (Z.to_nat (max_transactions target - len (transactions target)))
         g (pending_transactions (net w))).
Proof.
  intros Hreach Hpending Hgate.
  pose proof (reachable_inv w Hreach) as Hinv.
  destruct (opened_inv now (net w) Hinv)
    as (Hinv1 & Hp1 & Hvs1 & Hthr1 & Htot1 & target & Htarget & Hopen & Hroom).
  destruct (previous_of_defined _ _ (proj1 Hinv1)) as [previous Hprev].
  set (n1 := opened now (net w)) in *.
  set (g := gate_verdict (net w) (active_count (heap w) (validators (net w)))).
  destruct (process_loop_fifo (net w) (active_count (heap w) (validators (net w)))
              previous (pending_transactions (net w)) [] (with_net w n1) target)
    as (w2 & Hloop & Hc & Horbits & Htotal & Hp2 & Hvs2 & Hcur2 & Hthr2); trivial.
  cbv zeta in Hloop, Horbits, Htotal. simpl net in *. simpl heap in *.
  fold g in Hloop, Horbits, Htotal.
  set (admitted := take _ (filter _ _)) in *.
  assert (Hsub : admitted `sublist_of` pending_transactions (net w2)).
  { rewrite Hp2, Hp1. unfold admitted.
    transitivity (filter (fun tx => g tx = true) (pending_transactions (net w)));
      [apply sublist_take | apply sublist_filter]. }
  destruct (remove_processed_sublist admitted w2 Hsub) as (pending' & Hremove & Hsub' & Hlen').
  exists target, previous, pending', (heap w2), (net w2). cbv zeta.
  fold n1 g admitted.
  assert (Hrun : process_pending_transactions now w
                 = Returns tt {| heap := heap w2; net := set_pending (net w2) pending' |}).
  { unfold process_pending_transactions.
    destruct (pending_transactions (net w)) as [|tx0 txs0] eqn:Hp; [done|].
    rewrite <- Hp in *.
    destruct (ledger_base_current _ _ (proj1 Hinv)) as (Hidx & _ & o & Ho).
    assert (Hw1 : (let w0 := if is_full o || is_sealed o
                             then with_net w (create_new_orbit now (net w)) else w in
                   w0) = with_net w n1).
    { unfold n1, opened, getitem. rewrite Hidx. simpl. rewrite Ho.
      destruct (is_full o || is_sealed o); [reflexivity|]. now rewrite with_net_same. }
    cbv zeta in Hw1. unfold getitem at 1. rewrite Hidx. simpl mbind. rewrite Ho.
    rewrite Hw1. simpl net.
    destruct (ledger_base_current _ _ (proj1 Hinv1)) as (-> & _).
    rewrite Hp1, Hloop. simpl bind. exact Hremove. }
  rewrite Hp2, Hp1 in Hsub', Hlen'.
  split_and!; trivial; try congruence.
  - intros Hid.
    pose proof (remove_processed_leftover g
                  (Z.to_nat (max_transactions target - len (transactions target)))
                  [] (pending_transactions (net w)) w2
                  (eq_trans Hp2 Hp1) Hid (Forall_nil _)) as Hleft.
    simpl app in Hleft. fold admitted in Hleft.
    rewrite Hremove in Hleft. injection Hleft as Hleft. exact Hleft.
Qed.

(** One call of [process_pending_transactions] on a reachable ledger, with
    a transaction pending and a gate that answers: it returns; the orbit it
    fills is the current one, or a new one when the current one is closed;
    it appends to it, in the order of the queue, the transactions the gate
    approves, as many as there is room for; the orbit is sealed exactly when
    that fills it; the counter of transactions grows by their number; the
    validators are only counted on; and with entries identified by their
    identity the queue keeps, in order, the rejected transactions and those
    after the one that filled the orbit. *)
Theorem process_pending_fifo {host : Host} (now : datetime) (w : World) :
  reachable w ->
  pending_transactions (net w) <> [] ->
  validators (net w) = [] \/ 0 < active_count (heap w) (validators (net w)) ->
  exists (w' : World) (target o' : Orbit),
    let n1 := opened now (net w) in
    let k1 := Z.to_nat (current_orbit_index n1) in
    let room := Z.to_nat (max_transactions target - len (transactions target)) in
    let g := gate_verdict (net w) (active_count (heap w) (validators (net w))) in
    let admitted :=
      take room (filter (fun tx => g tx = true) (pending_transactions (net w))) in
    process_pending_transactions now w = Returns tt w' /\
    orbits n1 !! k1 = Some target /\
    is_sealed target = false /\
    (0 < room)%nat /\
    current_orbit_index (net w') = current_orbit_index n1 /\
    orbits (net w') = <[k1 := o']> (orbits n1) /\
    transactions o' = transactions target ++ admitted /\
    is_sealed o' = is_full o' /\
    total_transactions (network_stats (net w'))
      = total_transactions (network_stats (net w)) + len admitted /\
    counted (heap w) (heap w') /\
    (length (pending_transactions (net w')) + length admitted
     = length (pending_transactions (net w)))%nat /\
    (identified (pending_transactions (net w)) ->
     pending_transactions (net w') = leftover room g (pending_transactions (net w))).
Proof.
  intros Hreach Hpending Hgate.
  destruct (process_pending_pass now w Hreach Hpending Hgate)
    as (target & previous & pending' & h' & n' & Hrun & Htarget & Hopen & Hroom
        & _ & Hc & Horbits & Htotal & _ & Hcur & _ & _ & Hlen & Hleft).
  cbv zeta in *.
  set (room := Z.to_nat (max_transactions target - len (transactions target))) in *.
  set (g := gate_verdict (net w) (active_count (heap w) (validators (net w)))) in *.
  set (admitted := take room _) in *.
  assert (Hfits : len (transactions target) + len admitted
                  <= max_transactions target).
  { unfold is_full in Hroom. rewrite Z.geb_leb in Hroom. apply Z.leb_gt in Hroom.
    unfold len at 2. unfold admitted. rewrite length_take. unfold room. lia. }
  destruct (add_all_fits target admitted Hopen Hfits) as (Htxs & Hs & _ & Hm & _).
  set (o' := if is_full (add_all target admitted)
             then seal_orbit (add_all target admitted) previous
             else add_all target admitted) in *.
  assert (Ho' : transactions o' = transactions target ++ admitted /\
                is_sealed o' = is_full o').
  { unfold o'. destruct (is_full (add_all target admitted)) eqn:Hfull.
    - split; [exact Htxs|]. symmetry. exact Hfull.
    - split; [exact Htxs | congruence]. }
  destruct Ho' as [Htxs' Hs'].
  exists {| heap := h'; net := set_pending n' pending' |}, target, o'.
  split; [exact Hrun|]. simpl.
  split_and!; trivial.
  unfold is_full in Hroom. rewrite Z.geb_leb in Hroom. apply Z.leb_gt in Hroom.
  unfold room. lia.
Qed.

Lemma process_pending_fifo_witness :
  exists w',
    process_pending_transactions (demo_date 9)
      (submit_transaction (demo_tx 1) demo_world) = Returns tt w' /\
    pending_transactions (net w') = [] /\
    total_transactions (network_stats (net w')) = 2.
Proof.
  destruct (process_pending_fifo (demo_date 9)
              (submit_transaction (demo_tx 1) demo_world))
    as (w' & target & o' & Hrun & Htarget & _ & _ & _ & _ & _ & _ & Htotal & _ & _ & Hleft).
  - eapply reachable_step; [|apply step_submit].
    apply reachable_initial.
    now exists "OrbitChain-MainNet", (demo_date 0), demo_genesis.
  - discriminate.
  - now left.
  - exists w'. split; [exact Hrun|].
    cbv zeta in *. vm_compute in Htarget. injection Htarget as <-.
    split.
    + rewrite Hleft; [reflexivity|].
      intros a b Ha Hb _. apply list_elem_of_singleton in Ha, Hb. congruence.
    + rewrite Htotal. reflexivity.
Defined.

(** On a reachable ledger [process_pending_transactions] raises nothing but
    [ZeroDivisionError], and returns exactly when the queue is empty, or the
    registry is empty, or a validator is active. *)
Theorem process_pending_outcome {host : Host} (now : datetime) (w : World) :
  reachable w ->
  ((exists w', process_pending_transactions now w = Returns tt w') <->
   pending_transactions (net w) = [] \/ validators (net w) = [] \/
   0 < active_count (heap w) (validators (net w))) /\
  (forall e w', process_pending_transactions now w = Raises e w' ->
                e = ZeroDivisionError /\
                pending_transactions (net w') = pending_transactions (net w)).
Proof.
  intros Hreach.
  destruct (decide (pending_transactions (net w) = [])) as [Hempty|Hpending].
  { assert (Hrun : process_pending_transactions now w = Returns tt w).
    { unfold process_pending_transactions. now rewrite Hempty. }
    rewrite Hrun. split; [split; eauto|]. discriminate. }
  destruct (decide (validators (net w) = [])) as [Hnone|Hsome].
  { destruct (process_pending_pass now w Hreach Hpending) as (? & ? & ? & ? & ? & Hrun & _);
      [now left|].
    rewrite Hrun. split; [split; eauto|]. discriminate. }
  destruct (decide (0 < active_count (heap w) (validators (net w)))) as [Hactive|Hidle].
  { destruct (process_pending_pass now w Hreach Hpending) as (? & ? & ? & ? & ? & Hrun & _);
      [now right|].
    rewrite Hrun. split; [split; eauto|]. discriminate. }
  pose proof (active_count_bound (heap w) (validators (net w))) as Hbound.
  destruct (process_pending_idle now w Hreach Hpending Hsome) as (w1 & Hrun & _ & Hp).
  { apply active_count_zero. lia. }
  rewrite Hrun. split.
  - split; [intros [w' ?]; discriminate | intros [?|[?|?]]; done].
  - intros e w' [= <- <-]. now split.
Qed.

Lemma process_pending_outcome_witness :
  reachable (submit_transaction (demo_tx 1) demo_world_idle) /\
  forall w', process_pending_transactions (demo_date 9)
               (submit_transaction (demo_tx 1) demo_world_idle) <> Returns tt w'.
Proof.
  split; [exact demo_world_idle_reachable|].
  destruct (process_pending_outcome (demo_date 9)
              (submit_transaction (demo_tx 1) demo_world_idle)
              demo_world_idle_reachable) as [[Hreturns _] _].
  intros w' Hrun.
  destruct Hreturns as [H|[H|H]]; [now exists w' | discriminate H.. | ].
  vm_compute in H. discriminate H.
Defined.

(** ** The ledger as a log *)

Lemma ledger_log_last {host : Host} (n : Network) (o o' : Orbit) :
  ledger_base (orbits n) (current_orbit_index n) ->
  orbits n !! Z.to_nat (current_orbit_index n) = Some o ->
  forall extra,
    transactions o' = transactions o ++ extra ->
    concat (map transactions
              (<[Z.to_nat (current_orbit_index n) := o']> (orbits n)))
    = ledger_log n ++ extra.
Proof.
  intros Hbase Ho extra Htxs.
  destruct (ledger_base_current _ _ Hbase) as (_ & Hlen & _).
  unfold ledger_log.
  rewrite <- (take_drop_middle (orbits n) _ o Ho) at 2.
  rewrite insert_take_drop by lia.
  rewrite (drop_ge (orbits n) (S _)) by lia.
  rewrite !map_app, !concat_app. simpl. rewrite Htxs, !app_nil_r.
  now rewrite app_assoc.
Qed.

Lemma ledger_log_count {host : Host} (os : list Orbit) :
  len (concat (map transactions os)) = tx_count os.
Proof.
  induction os as [|o os IH]; [reflexivity|].
  simpl. unfold len in *. rewrite length_app. lia.
Qed.

Lemma step_log {host : Host} (w w' : World) :
  reachable w -> step w w' -> ledger_log (net w) `prefix_of` ledger_log (net w').
Proof.
  intros Hreach Hstep.
  apply (stable_step (fun n => ledger_log (net w) `prefix_of` ledger_log n))
    with (w := w); trivial.
  - intros now n o _ _ _ Hp. unfold ledger_log, create_new_orbit in *. simpl.
    rewrite map_app, concat_app. simpl. now rewrite app_nil_r.
  - intros n o o' tx [Hbase _] Ho Hadd Hp.
    apply add_transaction_true in Hadd as (_ & _ & _ & _ & _ & Htxs & _).
    unfold ledger_log at 2. simpl.
    rewrite (ledger_log_last n o o' Hbase Ho [tx] Htxs).
    now apply prefix_app_r.
  - intros n o previous Hbase Ho _ Hp.
    unfold ledger_log at 2. simpl.
    rewrite (ledger_log_last n o (seal_orbit o previous) Hbase Ho []);
      [now rewrite app_nil_r | simpl; now rewrite app_nil_r].
  - now apply reachable_inv.
Qed.

(** The transactions of a reachable ledger, read orbit after orbit, form a
    log that further operations only extend at its end, and whose length is
    the counter of transactions. *)
Theorem ledger_log_grows {host : Host} (w w' : World) :
  reachable w -> relations.rtc step w w' ->
  ledger_log (net w) `prefix_of` ledger_log (net w') /\
  total_transactions (network_stats (net w')) = len (ledger_log (net w')).
Proof.
  intros Hreach Hsteps. induction Hsteps as [w|w w1 w' Hstep _ IH].
  - split; [reflexivity|].
    apply reachable_wf in Hreach as (_ & -> & _).
    symmetry. apply ledger_log_count.
  - destruct IH as [Hp Hcount]; [now apply (reachable_step w w1)|].
    split; [|exact Hcount].
    transitivity (ledger_log (net w1)); [now apply step_log | exact Hp].
Qed.

Lemma ledger_log_grows_witness :
  reachable demo_world /\
  relations.rtc step demo_world demo_world_1 /\
  ledger_log (net demo_world) `prefix_of` ledger_log (net demo_world_1) /\
  total_transactions (network_stats (net demo_world_1))
  = len (ledger_log (net demo_world_1)).
Proof.
  assert (Hreach : reachable demo_world).
  { apply reachable_initial.
    now exists "OrbitChain-MainNet", (demo_date 0), demo_genesis. }
  assert (Hrun : relations.rtc step demo_world demo_world_1).
  { eapply relations.rtc_l; [apply step_submit|].
    apply relations.rtc_once. apply step_process. }
  split; [exact Hreach|]. split; [exact Hrun|].
  exact (ledger_log_grows demo_world demo_world_1 Hreach Hrun).
Defined.

Lemma opened_log {host : Host} (now : datetime) (n : Network) :
  ledger_log (opened now n) = ledger_log n.
Proof.
  unfold opened. destruct (getitem _ _) as [o|]; [|reflexivity].
  destruct (is_full o || is_sealed o); [|reflexivity].
  unfold ledger_log, create_new_orbit. simpl.
  rewrite map_app, concat_app. simpl. now rewrite !app_nil_r.
Qed.

(** A pass of [process_pending_transactions] whose gate answers appends to
    the log of the ledger the first transactions of the queue that the gate
    accepts, in the order of the queue: at least one when the gate accepts
    one, and at most the capacity of an orbit. *)
Theorem process_pending_appends {host : Host} (now : datetime) (w : World) :
  reachable w ->
  pending_transactions (net w) <> [] ->
  validators (net w) = [] \/ 0 < active_count (heap w) (validators (net w)) ->
  exists (w' : World) (admitted : list Transaction),
    let g := gate_verdict (net w) (active_count (heap w) (validators (net w))) in
    let accepted := filter (fun tx => g tx = true) (pending_transactions (net w)) in
    process_pending_transactions now w = Returns tt w' /\
    ledger_log (net w') = ledger_log (net w) ++ admitted /\
    admitted `prefix_of` accepted /\
    (accepted <> [] -> admitted <> []) /\
    len admitted <= default_max_transactions.
Proof.
  intros Hreach Hpending Hgate.
  destruct (process_pending_pass now w Hreach Hpending Hgate)
    as (target & previous & pending' & h' & n' & Hrun & Htarget & Hopen & Hroom
        & _ & _ & Horbits & _ & _ & Hcur & _).
  cbv zeta in *.
  set (room := Z.to_nat (max_transactions target - len (transactions target))) in *.
  set (g := gate_verdict (net w) (active_count (heap w) (validators (net w)))) in *.
  set (accepted := filter _ _) in *.
  set (admitted := take room accepted) in *.
  pose proof (reachable_inv w Hreach) as Hinv.
  destruct (opened_inv now (net w) Hinv) as ([Hbase _] & _).
  assert (Hwf : ledger_wf (opened now (net w))).
  { pose proof (reachable_wf w Hreach) as Hwf. unfold opened.
    destruct (getitem _ _) as [o|]; [|exact Hwf].
    destruct (is_full o || is_sealed o); [|exact Hwf].
    apply ledger_wf_new; [apply Hinv | exact Hwf]. }
  destruct Hwf as (_ & _ & _ & _ & Hwf).
  destruct (Hwf _ _ Htarget) as (_ & Hmax & Hlen & _).
  exists {| heap := h'; net := set_pending n' pending' |}, admitted.
  split; [exact Hrun|]. simpl.
  unfold is_full in Hroom. rewrite Z.geb_leb in Hroom. apply Z.leb_gt in Hroom.
  split_and!.
  - change (ledger_log (set_pending n' pending'))
      with (concat (map transactions (orbits n'))).
    rewrite Horbits, <- (opened_log now (net w)).
    apply (ledger_log_last (opened now (net w)) target); trivial.
    assert (Hfits : len (transactions target) + len admitted
                    <= max_transactions target).
    { unfold len at 2. unfold admitted. rewrite length_take. unfold room. lia. }
    destruct (add_all_fits target admitted Hopen Hfits) as (Htxs & _).
    now destruct (is_full (add_all target admitted)).
  - apply prefix_take.
  - intros Hacc Hnil. unfold admitted in Hnil.
    destruct accepted as [|tx accepted]; [now apply Hacc|].
    destruct room eqn:Hr; [unfold room in Hr; lia | discriminate].
  - unfold len, admitted. rewrite length_take.
    assert (max_transactions target <= default_max_transactions).
    { rewrite Hmax. destruct (Z.to_nat _); unfold default_max_transactions; lia. }
    unfold room, len in *. lia.
Qed.

Lemma process_pending_appends_witness :
  exists (w' : World) (admitted : list Transaction),
    process_pending_transactions (demo_date 2) (submit_transaction (demo_tx 1) demo_world)
      = Returns tt w' /\
    ledger_log (net w')
      = ledger_log (net (submit_transaction (demo_tx 1) demo_world)) ++ admitted /\
    len admitted <= 8.
Proof.
  destruct (process_pending_appends (demo_date 2)
              (submit_transaction (demo_tx 1) demo_world))
    as (w' & admitted & Hrun & Hlog & _ & _ & Hlen).
  - apply (reachable_step demo_world); [|apply step_submit].
    apply reachable_initial.
    now exists "OrbitChain-MainNet", (demo_date 0), demo_genesis.
  - discriminate.
  - now left.
  - now exists w', admitted.
Defined.

(** ** The merkle root, level by level *)

Lemma pair_hashes_app {host : Host} (l r : list string) :
  Nat.even (length l) = true ->
  pair_hashes (l ++ r) = pair_hashes l ++ pair_hashes r.
Proof.
  revert l. fix IH 1. intros [|a [|b l]] He.
  - reflexivity.
  - discriminate He.
  - simpl. f_equal. apply IH. exact He.
Qed.

Lemma merkle_of_level {host : Host} (h1 h2 : string) (rest : list string) :
  merkle_of (h1 :: h2 :: rest) = merkle_of (pair_hashes (h1 :: h2 :: rest)).
Proof.
  unfold merkle_of at 1. simp merkle_loop.
  simpl pair_hashes. unfold merkle_of. reflexivity.
Qed.

Lemma merkle_of_last_twice {host : Host} (l : list string) (x : string) :
  Nat.even (length l) = true -> l <> [] ->
  merkle_of (l ++ [x]) = merkle_of (l ++ [x; x]).
Proof.
  intros He Hl. destruct l as [|a [|b l]]; [contradiction | discriminate He |].
  change ((a :: b :: l) ++ [x]) with (a :: b :: (l ++ [x])).
  change ((a :: b :: l) ++ [x; x]) with (a :: b :: (l ++ [x; x])).
  rewrite !merkle_of_level.
  change (a :: b :: (l ++ [x])) with ((a :: b :: l) ++ [x]).
  change (a :: b :: (l ++ [x; x])) with ((a :: b :: l) ++ [x; x]).
  now rewrite !pair_hashes_app.
Qed.

(** The loop of [update_merkle_root] ends, for a non-empty list of
    signatures, with exactly one hash, the root: the alternative
    ["0" * 16] of the last line is never taken, and the root of two
    signatures or more is the root of the next level, where neighbours are
    hashed together and a last signature without neighbour with itself. *)
Theorem merkle_loop_root {host : Host} (hashes : list string) :
  hashes <> [] ->
  merkle_loop hashes = [merkle_of hashes] /\
  ((2 <= length hashes)%nat ->
   merkle_of hashes = merkle_of (pair_hashes hashes) /\
   length (pair_hashes hashes) = Nat.div2 (S (length hashes))).
Proof.
  intros Hne. split.
  - unfold merkle_of. destruct hashes as [|h0 hs]; [contradiction|].
    clear Hne. remember (h0 :: hs) as hashes eqn:E.
    assert (Hne : hashes <> []) by (subst; discriminate). clear E h0 hs.
    funelim (merkle_loop hashes); simp merkle_loop.
    + contradiction.
    + reflexivity.
    + apply H. discriminate.
  - intros Hlen. destruct hashes as [|h1 [|h2 rest]]; simpl in Hlen; try lia.
    split; [apply merkle_of_level|].
    clear. generalize (h1 :: h2 :: rest). fix IH 1. intros [|a [|b l]].
    + reflexivity.
    + reflexivity.
    + simpl. f_equal. rewrite IH. reflexivity.
Qed.

Lemma merkle_loop_root_witness :
  @merkle_loop demo_host ["a"; "b"; "c"] = [@merkle_of demo_host ["a"; "b"; "c"]] /\
  @merkle_of demo_host ["a"; "b"; "c"]
  = @merkle_of demo_host (@pair_hashes demo_host ["a"; "b"; "c"]) /\
  length (@pair_hashes demo_host ["a"; "b"; "c"]) = 2%nat.
Proof.
  destruct (@merkle_loop_root demo_host ["a"; "b"; "c"]) as [Hloop Hlevel];
    [discriminate|].
  split; [exact Hloop|]. apply Hlevel. simpl. lia.
Defined.

(** An open orbit with room, whose merkle root is the one
    [update_merkle_root] computes and which holds an odd number of
    transactions, three at least, keeps its merkle root when a transaction
    with the signature of its last one is added: the root does not tell the
    two lists of transactions apart. *)
Theorem merkle_root_last_twice {host : Host} (o : Orbit)
  (txs : list Transaction) (last tx : Transaction) :
  is_sealed o = false -> is_full o = false ->
  merkle_root o = merkle_of (map signature (transactions o)) ->
  transactions o = txs ++ [last] ->
  Nat.even (length txs) = true -> txs <> [] ->
  signature tx = signature last ->
  exists o',
    add_transaction o tx = (o', true) /\
    transactions o' = txs ++ [last; tx] /\
    merkle_root o' = merkle_root o.
Proof.
  intros Hopen Hroom Hroot Htxs He Hne Hsig.
  exists (update_merkle_root (set_transactions o (transactions o ++ [tx]))).
  split; [now apply add_transaction_open|].
  destruct (add_transaction_true o _ tx (add_transaction_open o tx Hopen Hroom))
    as (_ & _ & _ & _ & _ & Htxs' & Hroot').
  split.
  - rewrite Htxs', Htxs, <- app_assoc. reflexivity.
  - rewrite Hroot', Htxs', Hroot, Htxs, <- app_assoc, !map_app. simpl.
    rewrite Hsig. symmetry. apply merkle_of_last_twice.
    + now rewrite length_map.
    + destruct txs; [contradiction | discriminate].
Qed.

Lemma merkle_root_last_twice_witness :
  exists o',
    add_transaction
      (add_all (Orbit_init 1 8 (demo_date 1)) [demo_tx 1; demo_tx 2; demo_tx 3])
      (demo_tx 3) = (o', true) /\
    transactions o' = [demo_tx 1; demo_tx 2; demo_tx 3; demo_tx 3] /\
    merkle_root o'
    = merkle_root
        (add_all (Orbit_init 1 8 (demo_date 1)) [demo_tx 1; demo_tx 2; demo_tx 3]).
Proof.
  apply (merkle_root_last_twice
           (add_all (Orbit_init 1 8 (demo_date 1)) [demo_tx 1; demo_tx 2; demo_tx 3])
           [demo_tx 1; demo_tx 2] (demo_tx 3) (demo_tx 3));
    try reflexivity.
  discriminate.
Defined.

(** ** Transactions as the constructor makes them *)

Lemma substring_length (n : nat) (s : string) :
  String.length (substring 0 n s) = Nat.min n (String.length s).
Proof.
  revert s. induction n as [|n IH]; intros [|c s]; simpl; trivial.
  now rewrite IH.
Qed.

Lemma append_length (s t : string) :
  String.length (s ++ t) = (String.length s + String.length t)%nat.
Proof. induction s as [|c s IH]; simpl; [reflexivity | now rewrite IH]. Qed.

(** With a digest of ten characters at least, as the 64 of SHA-256, the
    signature [Transaction.__init__] computes has from ten to sixteen
    characters and the identifier twelve at most, so the signature passes
    the first test of [validate_transaction]: a validator approves a
    transaction made by the constructor, and counts it, exactly when its
    sender and its receiver are not empty. *)
Theorem constructed_transaction_valid {host : Host} (obj : nat)
  (nonce : string) (now : datetime) (sender receiver data tx_type : string)
  (v : Validator) :
  (forall s, (10 <= String.length (sha256_hexdigest s))%nat) ->
  let tx := Transaction_init obj nonce now sender receiver data tx_type in
  (10 <= String.length (signature tx) <= 16)%nat /\
  (String.length (id tx) <= 12)%nat /\
  well_formed tx = truthy sender && truthy receiver /\
  validate_transaction v tx
  = if truthy sender && truthy receiver
    then (set_validated_count v (validated_count v + 1), true)
    else (v, false).
Proof.
  intros Hdigest tx.
  assert (Hsig : (10 <= String.length (signature tx) <= 16)%nat).
  { unfold tx. simpl. unfold sign, sha256_prefix. rewrite substring_length.
    specialize (Hdigest (sender ++ receiver ++ data ++ datetime_str now)%string).
    lia. }
  assert (Hwf : well_formed tx = truthy sender && truthy receiver).
  { unfold well_formed.
    destruct (signature tx) as [|c s] eqn:E; [simpl in Hsig; lia|].
    replace (Z.of_nat (String.length (String c s)) <? 10) with false
      by (symmetry; apply Z.ltb_ge; lia).
    simpl. now destruct (truthy sender), (truthy receiver). }
  split; [exact Hsig|]. split; [|split; [exact Hwf|]].
  - unfold tx. simpl. unfold generate_id, sha256_prefix.
    rewrite substring_length. lia.
  - rewrite validate_transaction_well_formed, Hwf. reflexivity.
Qed.

Lemma constructed_transaction_valid_witness :
  well_formed (demo_tx 1) = true /\ well_formed demo_tx_no_sender = false.
Proof.
  assert (Hdigest : forall s, (10 <= String.length (@sha256_hexdigest demo_host s))%nat).
  { intros s.
    change (@sha256_hexdigest demo_host s) with (substring 0 64 (s ++ zeros64)).
    rewrite substring_length, append_length.
    change (String.length zeros64) with 64%nat. lia. }
  split.
  - exact (proj1 (proj2 (proj2
      (constructed_transaction_valid 1 "1735732801.04321" (demo_date 1)
         "Alice" "Bob" "10 OrbitCoins" "payment"
         (Validator_init "node" 100%float) Hdigest)))).
  - exact (proj1 (proj2 (proj2
      (constructed_transaction_valid 21 "1735732802.00021" (demo_date 21)
         "" "Bob" "10 OrbitCoins" "payment"
         (Validator_init "node" 100%float) Hdigest)))).
Defined.

(** ** Rounds of one transaction *)

Lemma genesis_sealed {host : Host} (w : World) :
  reachable w -> exists o, orbits (net w) !! 0%nat = Some o /\ is_sealed o = true.
Proof.
  apply (stable_reachable
           (fun n => exists o, orbits n !! 0%nat = Some o /\ is_sealed o = true)).
  - intros n txs H. exact H.
  - intros n vs H. exact H.
  - intros now n o _ _ _ (g & Hg & Hs). exists g. split; [|exact Hs].
    unfold create_new_orbit. simpl. now apply lookup_app_l_Some.
  - intros n o o' tx _ Ho Hadd (g & Hg & Hs). simpl.
    apply add_transaction_true in Hadd as (Hopen & _).
    destruct (Z.to_nat (current_orbit_index n)) as [|k] eqn:Hk.
    + congruence.
    + exists g. now rewrite list_lookup_insert_ne by discriminate.
  - intros n o previous _ Ho _ (g & Hg & Hs). simpl.
    destruct (Z.to_nat (current_orbit_index n)) as [|k] eqn:Hk.
    + exists (seal_orbit o previous).
      split; [|reflexivity].
      apply list_lookup_insert_eq. now apply (lookup_lt_Some _ _ o).
    + exists g. now rewrite list_lookup_insert_ne by discriminate.
  - intros name started g. unfold Network_init, create_genesis_orbit. simpl.
    eexists. split; reflexivity.
Qed.

Lemma opened_filled {host : Host} (now : datetime) (n : Network)
  (done : list Transaction) :
  ledger_inv (orbits n) (current_orbit_index n) ->
  ledger_wf n ->
  (exists o, orbits n !! 0%nat = Some o /\ is_sealed o = true) ->
  filled n done ->
  exists (j : nat) (target : Orbit),
    (8 * j <= length done < 8 * j + 8)%nat /\
    length (orbits (opened now n)) = S (S j) /\
    current_orbit_index (opened now n) = Z.of_nat (S j) /\
    orbits (opened now n) !! S j = Some target /\
    transactions target = drop (8 * j) done /\
    max_transactions target = 8 /\
    forall i : nat, (i < j)%nat ->
      exists o,
        orbits (opened now n) !! S i = Some o /\
        transactions o = take 8 (drop (8 * i) done) /\
        is_sealed o = true.
Proof.
  intros [Hbase Hfull] Hwf (g & Hg & Hgs) [Hsome Hnone].
  destruct (ledger_base_current _ _ Hbase) as (_ & Hlen & cur & Hcur).
  destruct Hbase as (Hidx & Hpos & _).
  destruct Hwf as (_ & _ & _ & _ & Hwf).
  remember (Z.to_nat (current_orbit_index n)) as c eqn:Ec.
  assert (Hci : current_orbit_index n = Z.of_nat c) by lia.
  set (m := length done) in *.
  assert (Hget : getitem (orbits n) (current_orbit_index n) = Some cur).
  { rewrite getitem_nonneg by (unfold len; lia). now rewrite <- Ec. }
  assert (Hc : (c = 0 /\ m = 0 \/ 0 < c /\ 8 * (c - 1) < m <= 8 * c)%nat).
  { destruct c as [|c'].
    - left. split; [reflexivity|].
      destruct (Nat.eq_dec m 0%nat) as [|Hm]; [trivial|].
      destruct (Hsome 0%nat) as (o & Ho & _); [lia|].
      apply lookup_lt_Some in Ho. lia.
    - right. split; [lia|]. split.
      + destruct (Nat.le_gt_cases m (8 * (S c' - 1))%nat) as [Hle|]; [|trivial].
        specialize (Hnone (S c' - 1)%nat Hle).
        replace (S (S c' - 1)) with (S c') in Hnone by lia. congruence.
      + destruct (Nat.le_gt_cases m (8 * S c')%nat) as [|Hgt]; [trivial|].
        destruct (Hsome (S c') Hgt) as (o & Ho & _).
        apply lookup_lt_Some in Ho. lia. }
  assert (Hold : forall i : nat, (8 * i + 8 <= m)%nat ->
            exists o, orbits n !! S i = Some o /\
                      transactions o = take 8 (drop (8 * i) done) /\
                      is_sealed o = true).
  { intros i Hi. destruct (Hsome i) as (o & Ho & Htxs & Hs); [lia|].
    exists o. split_and!; trivial. rewrite Hs. apply bool_decide_eq_true.
    rewrite Htxs, length_take, length_drop. fold m. lia. }
  destruct (Nat.eq_dec m (8 * c)%nat) as [Hm|Hm].
  - (* the current orbit is sealed: a new one is created *)
    assert (Hs : is_sealed cur = true).
    { destruct Hc as [[Hc0 _]|[Hc0 _]].
      - rewrite Hc0 in Hcur. congruence.
      - destruct (Hold (c - 1)%nat) as (o & Ho & _ & Hs); [lia|].
        replace (S (c - 1)) with c in Ho by lia. congruence. }
    exists c, (Orbit_init (current_orbit_index n + 1) default_max_transactions now).
    unfold opened. rewrite Hget, Hs, orb_true_r.
    unfold create_new_orbit. simpl.
    split; [lia|]. split; [rewrite length_app; simpl; lia|].
    split; [lia|]. split.
    { rewrite lookup_app_r by lia. now replace (S c - length (orbits n))%nat with 0%nat by lia. }
    split; [symmetry; apply drop_ge; fold m; lia|].
    split; [reflexivity|].
    intros i Hi. destruct (Hold i) as (o & Ho & Htxs & Hso); [lia|].
    exists o. split_and!; trivial. now apply lookup_app_l_Some.
  - (* the current orbit is open and has room *)
    destruct Hc as [[Hc0 Hm0]|[Hc0 Hcm]]; [lia|].
    destruct (Hsome (c - 1)%nat) as (o & Ho & Htxs & Hso); [lia|].
    replace (S (c - 1)) with c in Ho by lia.
    assert (o = cur) by congruence. subst o.
    assert (Hcount : length (transactions cur) = (m - 8 * (c - 1))%nat).
    { rewrite Htxs, length_take, length_drop. fold m. lia. }
    assert (Hopen : is_sealed cur = false).
    { rewrite Hso. apply bool_decide_eq_false. lia. }
    destruct (Hwf c cur Hcur) as (_ & Hmax & _).
    assert (Hmax8 : max_transactions cur = 8).
    { rewrite Hmax. destruct c; [lia | reflexivity]. }
    assert (Hroom : is_full cur = false).
    { unfold is_full. rewrite Z.geb_leb. apply Z.leb_gt. unfold len. lia. }
    exists (c - 1)%nat, cur.
    unfold opened. rewrite Hget, Hopen, Hroom. simpl.
    replace (S (c - 1)) with c by lia.
    split; [lia|]. split; [exact Hlen|]. split; [lia|].
    split; [exact Hcur|]. split.
    { rewrite Htxs. apply take_ge. rewrite length_drop. fold m. lia. }
    split; [exact Hmax8|].
    intros i Hi. apply Hold. lia.
Qed.

Lemma round_filled {host : Host} (now : datetime) (tx : Transaction) (w : World)
  (done : list Transaction) :
  reachable w ->
  pending_transactions (net w) = [] ->
  unanimous w ->
  well_formed tx = true ->
  filled (net w) done ->
  exists w',
    process_pending_transactions now (submit_transaction tx w) = Returns tt w' /\
    reachable w' /\
    pending_transactions (net w') = [] /\
    unanimous w' /\
    filled (net w') (done ++ [tx]).
Proof.
  intros Hreach Hpending (Hregistry & Hactive & Hrate) Htx Hfilled.
  set (ws := submit_transaction tx w).
  assert (Hreach_s : reachable ws).
  { apply (reachable_step w); [exact Hreach | apply step_submit]. }
  assert (Hpend_s : pending_transactions (net ws) = [tx]).
  { unfold ws, submit_transaction. simpl. now rewrite Hpending. }
  assert (Hk : active_count (heap ws) (validators (net ws)) = len (validators (net w))).
  { unfold ws, submit_transaction. simpl. now apply active_count_all. }
  assert (Hgate : 0 < active_count (heap ws) (validators (net ws))).
  { rewrite Hk. unfold len. destruct (validators (net w)); [contradiction | simpl; lia]. }
  destruct (process_pending_pass now ws Hreach_s) as
    (target & previous & pending' & h' & n' & Hrun & Htarget & Hopen & Hroom
     & _ & Hc & Horbits & _ & Hvs & Hcur & Hthr & _ & Hlen & _);
    [rewrite Hpend_s; discriminate | now right |].
  cbv zeta in *.
  assert (Hg : gate_verdict (net ws) (active_count (heap ws) (validators (net ws))) tx
               = true).
  { rewrite Hk. unfold gate_verdict, ws, submit_transaction. simpl.
    destruct (validators (net w)); [reflexivity|]. now rewrite Htx. }
  rewrite Hpend_s in *.
  rewrite filter_cons_True in * by exact Hg.
  rewrite filter_nil in *.
  destruct (opened_filled now (net ws) done) as
    (j & target' & Hj & Hlen1 & Hcur1 & Htarget' & Htxs & Hmax & Hold).
  { apply (reachable_inv ws Hreach_s). }
  { apply (reachable_wf ws Hreach_s). }
  { apply (genesis_sealed ws Hreach_s). }
  { exact Hfilled. }
  rewrite Hcur1 in *. rewrite Nat2Z.id in *.
  assert (target' = target) by congruence. subst target'.
  assert (Hcount : length (transactions target) = (length done - 8 * j)%nat).
  { now rewrite Htxs, length_drop. }
  assert (Hone : take (Z.to_nat (max_transactions target - len (transactions target))) [tx]
                 = [tx]).
  { unfold len. rewrite Hmax, Hcount.
    replace (Z.to_nat (8 - Z.of_nat (length done - 8 * j)))
      with (S (7 - (length done - 8 * j))) by lia.
    simpl. now rewrite take_nil. }
  rewrite Hone in *.
  destruct (add_all_fits target [tx] Hopen) as (Htxs1 & Hopen1 & _ & Hmax1 & _).
  { unfold len. rewrite Hmax, Hcount. simpl. lia. }
  set (o' := if is_full (add_all target [tx])
             then seal_orbit (add_all target [tx]) previous
             else add_all target [tx]) in *.
  assert (Ho' : transactions o' = drop (8 * j) done ++ [tx] /\
                is_sealed o' = bool_decide (length (transactions o') = 8%nat)).
  { assert (Hf : is_full (add_all target [tx])
                 = bool_decide (length (transactions (add_all target [tx])) = 8%nat)).
    { unfold is_full. rewrite Hmax1, Hmax, Htxs1. unfold len.
      rewrite length_app, Hcount. simpl length.
      destruct (Z.geb_spec (Z.of_nat (length done - 8 * j + 1)) 8);
        symmetry; [apply bool_decide_eq_true | apply bool_decide_eq_false]; lia. }
    unfold o'. destruct (is_full (add_all target [tx])) eqn:Hfull.
    - destruct (seal_orbit_fields (add_all target [tx]) previous)
        as (_ & -> & _ & _ & _ & _ & -> & _).
      rewrite <- Hf, Htxs1, Htxs. now split.
    - rewrite Hopen1, <- Hf, Htxs1, Htxs. now split. }
  destruct Ho' as [Htxs' Hsealed'].
  assert (Hp' : pending' = []).
  { destruct pending'; [reflexivity | simpl in Hlen; lia]. }
  subst pending'.
  exists {| heap := h'; net := set_pending n' [] |}.
  split; [exact Hrun|]. split.
  { replace {| heap := h'; net := set_pending n' [] |}
      with (state_of (process_pending_transactions now ws)) by now rewrite Hrun.
    apply (reachable_step ws); [exact Hreach_s | apply step_process]. }
  split; [reflexivity|]. split.
  { unfold unanimous. simpl. rewrite Hvs, Hthr.
    unfold ws, submit_transaction. simpl.
    split_and!; trivial.
    eapply Forall_impl; [|exact Hactive].
    intros v Hv. simpl in *. destruct (Hc v) as (_ & _ & _ & -> & _). exact Hv. }
  split.
  - intros i Hi. rewrite length_app in Hi. simpl in Hi. simpl.
    rewrite Horbits.
    destruct (Nat.eq_dec i j) as [->|Hij].
    + exists o'. split.
      { apply list_lookup_insert_eq. lia. }
      split; [|exact Hsealed'].
      rewrite Htxs', drop_app_le by lia.
      symmetry. apply take_ge. rewrite length_app, length_drop. simpl. lia.
    + destruct (Hold i) as (o & Ho & Htxso & Hso); [lia|].
      exists o. split.
      { rewrite list_lookup_insert_ne by lia. exact Ho. }
      split.
      * rewrite Htxso, drop_app_le by lia.
        rewrite take_app_le; [reflexivity|]. rewrite length_drop. lia.
      * rewrite Hso. symmetry. apply bool_decide_eq_true.
        rewrite Htxso, length_take, length_drop. lia.
  - intros i Hi. rewrite length_app in Hi. simpl in Hi. simpl.
    rewrite Horbits. apply lookup_ge_None. rewrite length_insert. lia.
Qed.

Lemma rounds_filled {host : Host} (steps : list (datetime * Transaction)) :
  forall (w : World) (done : list Transaction),
    reachable w ->
    pending_transactions (net w) = [] ->
    unanimous w ->
    filled (net w) done ->
    Forall (fun s => well_formed (snd s) = true) steps ->
    exists w',
      submit_and_process steps w = Returns tt w' /\
      reachable w' /\
      pending_transactions (net w') = [] /\
      filled (net w') (done ++ map snd steps).
Proof.
  induction steps as [|[now tx] steps IH]; intros w done Hreach Hp Hun Hfilled Hall.
  - exists w. simpl. rewrite app_nil_r. now split_and!.
  - inversion Hall as [|? ? Htx Hrest]; subst. simpl in Htx.
    destruct (round_filled now tx w done Hreach Hp Hun Htx Hfilled)
      as (w1 & Hrun & Hreach1 & Hp1 & Hun1 & Hfilled1).
    destruct (IH w1 (done ++ [tx]) Hreach1 Hp1 Hun1 Hfilled1 Hrest)
      as (w' & Hrun' & Hreach' & Hp' & Hfilled').
    exists w'. simpl submit_and_process. rewrite Hrun. simpl bind.
    split; [exact Hrun'|]. split; [exact Hreach'|]. split; [exact Hp'|].
    simpl map. now rewrite <- app_assoc in Hfilled'.
Qed.

(** Generalising the scenario of [create_demo_network] to any number of
    transactions: on a reachable ledger that has only its genesis orbit and
    an empty queue, with a registry of validators all active whose
    unanimous share reaches the threshold, submitting well-formed
    transactions and processing after each one returns every time, leaves
    the queue empty and fills the orbits after the genesis orbit with the
    transactions eight by eight, in the order of submission: orbit [i + 1]
    exists exactly when there are more than [8 * i] transactions, holds
    the next eight of them or those that are left, and is sealed exactly
    when it holds eight. *)
Theorem rounds_fill_orbits {host : Host} (steps : list (datetime * Transaction))
  (w : World) :
  reachable w ->
  length (orbits (net w)) = 1%nat ->
  pending_transactions (net w) = [] ->
  unanimous w ->
  Forall (fun s => well_formed (snd s) = true) steps ->
  exists w',
    submit_and_process steps w = Returns tt w' /\
    pending_transactions (net w') = [] /\
    (forall i : nat, (8 * i < length steps)%nat ->
       exists o,
         orbits (net w') !! S i = Some o /\
         transactions o = take 8 (drop (8 * i) (map snd steps)) /\
         is_sealed o = bool_decide (length (transactions o) = 8%nat)) /\
    (forall i : nat, (length steps <= 8 * i)%nat ->
       orbits (net w') !! S i = None).
Proof.
  intros Hreach Hone Hp Hun Hall.
  destruct (rounds_filled steps w [] Hreach Hp Hun) as (w' & Hrun & _ & Hp' & Hsome & Hnone);
    [|exact Hall|].
  - split.
    + intros i Hi. simpl in Hi. lia.
    + intros i _. apply lookup_ge_None. lia.
  - exists w'. simpl in Hsome, Hnone. rewrite length_map in Hsome, Hnone.
    now split_and!.
Qed.

Lemma rounds_fill_orbits_witness :
  exists w' o,
    submit_and_process [(demo_date 9, demo_tx 1)] (add_validator 0%nat demo_world)
      = Returns tt w' /\
    pending_transactions (net w') = [] /\
    orbits (net w') !! 1%nat = Some o /\
    transactions o = [demo_tx 1] /\
    orbits (net w') !! 2%nat = None.
Proof.
  destruct (rounds_fill_orbits [(demo_date 9, demo_tx 1)]
              (add_validator 0%nat demo_world))
    as (w' & Hrun & Hp & Hsome & Hnone).
  - apply (reachable_step demo_world); [|apply step_add_validator].
    apply reachable_initial.
    now exists "OrbitChain-MainNet", (demo_date 0), demo_genesis.
  - reflexivity.
  - reflexivity.
  - split; [discriminate|]. split; [|vm_compute; reflexivity].
    constructor; [reflexivity | constructor].
  - constructor; [vm_compute; reflexivity | constructor].
  - destruct (Hsome 0%nat) as (o & Ho & Htxs & _); [simpl; lia|].
    exists w', o. split; [exact Hrun|]. split; [exact Hp|].
    split; [exact Ho|]. split; [exact Htxs|].
    apply (Hnone 1%nat). simpl. lia.
Defined.
